(** * A B+Tree index over a paged file: model of btree.h / btree.cpp

    The index maps 10-byte string keys to record ids.  Nodes live in the
    pages of an index file that is reached through a buffer manager (pin,
    read, allocate, unpin).  The definitions below follow the C++ source
    function by function; the theorems further down state what the source
    guarantees about insertion, splitting and range scans. *)

From Stdlib Require Import ZArith List Bool Lia.
From Stdlib.Strings Require Import Byte.
From stdpp Require Import base list.
Import ListNotations.

Local Open Scope Z_scope.

(** ** C strings *)

Module CString.

(** A [const char*] is the list of bytes it points to; reading past the end
    of the list yields the terminating NUL. *)
Definition NUL : byte := "000"%byte.

(** The value of a character as [unsigned char], which is how the
    comparison functions of <string.h> look at it. *)
Definition uchar (c : byte) : Z := Z.of_N (Byte.to_N c).

Definition peek (s : list byte) : byte := hd NUL s.

(** [strncmp s1 s2 n]: compare at most [n] characters, stopping at the
    first difference or at a NUL. *)
Fixpoint strncmp (s1 s2 : list byte) (n : nat) : Z :=
  match n with
  | O => 0
  | S n' =>
      if uchar (peek s1) =? uchar (peek s2)
      then if uchar (peek s1) =? 0 then 0 else strncmp (tl s1) (tl s2) n'
      else uchar (peek s1) - uchar (peek s2)
  end.

(** [strncpy dst src n]: exactly [n] bytes are written; once the source is
    exhausted the destination is padded with NULs. *)
Fixpoint strncpy (src : list byte) (n : nat) : list byte :=
  match n with
  | O => []
  | S n' =>
      if uchar (peek src) =? 0 then repeat NUL (S n')
      else peek src :: strncpy (tl src) n'
  end.

(** [strcmp] on two terminated strings. *)
Definition strcmp (s1 s2 : list byte) : Z :=
  strncmp s1 s2 (S (Nat.max (length s1) (length s2))).

(** The string a terminated buffer denotes: everything before the first
    NUL. *)
Fixpoint cstr (s : list byte) : list byte :=
  match s with
  | [] => []
  | c :: t => if uchar c =? 0 then [] else c :: cstr t
  end.

(** A buffer holds a terminated string when a NUL occurs in it. *)
Definition terminated (s : list byte) : bool :=
  existsb (fun c => uchar c =? 0) s.

End CString.
Import CString.

(** ** Constants and plain data (btree.h) *)

(** Scan operators. *)
Inductive Operator := LT | LTE | GTE | GT.

Definition Operator_eqb (a b : Operator) : bool :=
  match a, b with
  | LT, LT | LTE, LTE | GTE, GTE | GT, GT => true
  | _, _ => false
  end.

Definition STRINGSIZE : nat := 10.

(** The header is compiled with DEBUG defined. *)
Definition LEAF_NUM_KEYS : nat := 4.
Definition NON_LEAF_NUM_KEYS : nat := 4.

(** Page numbers and slot numbers are opaque identifiers; no arithmetic is
    done on them. *)
Definition PageId := nat.
Definition SlotId := nat.

(** Modelled from the spec: Page::INVALID_NUMBER and Page::INVALID_SLOT of
    include/page.h, which is not part of the sources.  The reserved page
    number that marks an absent page; a freshly allocated page is
    zero-filled, and the code relies on such a page reading as "all slots
    INVALID_NUMBER". *)
Definition INVALID_NUMBER : PageId := 0%nat.
Definition INVALID_SLOT : SlotId := 0%nat.

Record RecordId := mkRid { page_number : PageId; slot_number : SlotId }.

Definition Key := list byte.

(** [std::string(STRINGSIZE, '\0').c_str()] *)
Definition zeroKey : Key := repeat NUL STRINGSIZE.

Record RIDKeyPair := mkRIDKeyPair { rk_rid : RecordId; rk_key : Key }.

(** [RIDKeyPair::set] *)
Definition RIDKeyPair_set (r : RecordId) (k : list byte) : RIDKeyPair :=
  {| rk_rid := r; rk_key := strncpy k STRINGSIZE |}.

Record PageKeyPair := mkPageKeyPair { pk_pageNo : PageId; pk_key : Key }.

Record IndexMetaInfo := mkMeta {
  relationName : list byte;   (* char[20] *)
  meta_attrByteOffset : Z;
  rootPageNo : PageId
}.

Record NonLeafNode := mkNonLeaf {
  level : Z;
  nl_keyArray : list Key;          (* NON_LEAF_NUM_KEYS keys *)
  pageNoArray : list PageId        (* NON_LEAF_NUM_KEYS + 1 children *)
}.

Record LeafNode := mkLeaf {
  lf_keyArray : list Key;          (* LEAF_NUM_KEYS keys *)
  ridArray : list RecordId;        (* LEAF_NUM_KEYS record ids *)
  rightSibPageNo : PageId
}.

(** Array reads.  Every index used below is bounded by the loop that
    produces it, so the default is never observed on a node of the declared
    size. *)
Definition keyAt (a : list Key) (i : nat) : Key := nth i a zeroKey.
Definition pageAt (a : list PageId) (i : nat) : PageId := nth i a INVALID_NUMBER.
Definition ridAt (a : list RecordId) (i : nat) : RecordId :=
  nth i a (mkRid INVALID_NUMBER INVALID_SLOT).

(** Field updates through a node pointer. *)
Definition nl_setKey (i : nat) (k : list byte) (n : NonLeafNode) : NonLeafNode :=
  {| level := level n;
     nl_keyArray := <[i := strncpy k STRINGSIZE]> (nl_keyArray n);
     pageNoArray := pageNoArray n |}.
Definition nl_setPage (i : nat) (p : PageId) (n : NonLeafNode) : NonLeafNode :=
  {| level := level n;
     nl_keyArray := nl_keyArray n;
     pageNoArray := <[i := p]> (pageNoArray n) |}.
Definition nl_setLevel (l : Z) (n : NonLeafNode) : NonLeafNode :=
  {| level := l; nl_keyArray := nl_keyArray n; pageNoArray := pageNoArray n |}.

Definition lf_setKey (i : nat) (k : list byte) (l : LeafNode) : LeafNode :=
  {| lf_keyArray := <[i := strncpy k STRINGSIZE]> (lf_keyArray l);
     ridArray := ridArray l;
     rightSibPageNo := rightSibPageNo l |}.
Definition lf_setRid (i : nat) (r : RecordId) (l : LeafNode) : LeafNode :=
  {| lf_keyArray := lf_keyArray l;
     ridArray := <[i := r]> (ridArray l);
     rightSibPageNo := rightSibPageNo l |}.
Definition lf_setRidPage (i : nat) (p : PageId) (l : LeafNode) : LeafNode :=
  lf_setRid i (mkRid p (slot_number (ridAt (ridArray l) i))) l.
Definition lf_setRightSib (p : PageId) (l : LeafNode) : LeafNode :=
  {| lf_keyArray := lf_keyArray l; ridArray := ridArray l; rightSibPageNo := p |}.

(** A page of the index file under the layout it was last written with.
    Reinterpreting the bytes of a page under another layout is outside the
    model: such a read is reported as [BadCast]. *)
Inductive Page :=
| PMeta (m : IndexMetaInfo)
| PNonLeaf (n : NonLeafNode)
| PLeaf (l : LeafNode).

(** Modelled from the spec: the page handed out by the buffer manager's
    allocatePage (include/buffer.h is not part of the sources) is
    zero-filled: level 0, every key zero, every page slot and every record
    id INVALID_NUMBER. *)
Definition freshNonLeaf : NonLeafNode :=
  {| level := 0;
     nl_keyArray := repeat zeroKey NON_LEAF_NUM_KEYS;
     pageNoArray := repeat INVALID_NUMBER (S NON_LEAF_NUM_KEYS) |}.
Definition freshLeaf : LeafNode :=
  {| lf_keyArray := repeat zeroKey LEAF_NUM_KEYS;
     ridArray := repeat (mkRid INVALID_NUMBER INVALID_SLOT) LEAF_NUM_KEYS;
     rightSibPageNo := INVALID_NUMBER |}.
Definition freshMeta : IndexMetaInfo :=
  {| relationName := repeat NUL 20; meta_attrByteOffset := 0;
     rootPageNo := INVALID_NUMBER |}.

(** ** Occupancy and in-node insertion (btree.cpp, private helpers) *)

Definition isRoomyLeaf (leaf : LeafNode) : bool :=
  Nat.eqb (page_number (ridAt (ridArray leaf) (LEAF_NUM_KEYS - 1))) INVALID_NUMBER.

(** The source indexes with LEAF_NUM_KEYS here, not NON_LEAF_NUM_KEYS. *)
Definition isRoomyNonLeaf (node : NonLeafNode) : bool :=
  Nat.eqb (pageAt (pageNoArray node) LEAF_NUM_KEYS) INVALID_NUMBER.

(** [for (i = from; i < NON_LEAF_NUM_KEYS+1; i++)] with [todo] iterations
    left. *)
Fixpoint getNonLeafLength_from (todo i : nat) (node : NonLeafNode) : nat :=
  match todo with
  | O => NON_LEAF_NUM_KEYS
  | S todo' =>
      if Nat.eqb (pageAt (pageNoArray node) i) INVALID_NUMBER then (i - 1)%nat
      else getNonLeafLength_from todo' (S i) node
  end.

Definition getNonLeafLength (node : NonLeafNode) : nat :=
  getNonLeafLength_from NON_LEAF_NUM_KEYS 1 node.

Fixpoint getLeafLength_from (todo i : nat) (node : LeafNode) : nat :=
  match todo with
  | O => LEAF_NUM_KEYS
  | S todo' =>
      if Nat.eqb (page_number (ridAt (ridArray node) i)) INVALID_NUMBER then i
      else getLeafLength_from todo' (S i) node
  end.

Definition getLeafLength (node : LeafNode) : nat :=
  getLeafLength_from LEAF_NUM_KEYS 0 node.

(** [for (j = LEAF_NUM_KEYS - 2; j >= i; j--)]: [cnt] iterations left, the
    next one at [j = i + cnt - 1]. *)
Fixpoint leafShiftDown (i cnt : nat) (leaf : LeafNode) : LeafNode :=
  match cnt with
  | O => leaf
  | S c =>
      let j := (i + c)%nat in
      let leaf := lf_setKey (S j) (keyAt (lf_keyArray leaf) j) leaf in
      let leaf := lf_setRid (S j) (ridAt (ridArray leaf) j) leaf in
      leafShiftDown i c leaf
  end.

Fixpoint insertInRoomyLeaf_from (todo i : nat) (leaf : LeafNode) (krid : RIDKeyPair)
  : LeafNode :=
  match todo with
  | O => leaf
  | S todo' =>
      if Nat.eqb (page_number (ridAt (ridArray leaf) i)) INVALID_NUMBER then
        lf_setRid i (rk_rid krid) (lf_setKey i (rk_key krid) leaf)
      else if strncmp (keyAt (lf_keyArray leaf) i) (rk_key krid) STRINGSIZE >=? 0 then
        let leaf := leafShiftDown i (LEAF_NUM_KEYS - 1 - i) leaf in
        lf_setRid i (rk_rid krid) (lf_setKey i (rk_key krid) leaf)
      else insertInRoomyLeaf_from todo' (S i) leaf krid
  end.

Definition insertInRoomyLeaf (leaf : LeafNode) (krid : RIDKeyPair) : LeafNode :=
  insertInRoomyLeaf_from LEAF_NUM_KEYS 0 leaf krid.

(** [for (j = NON_LEAF_NUM_KEYS - 2; j >= i; j--)] *)
Fixpoint nonLeafShiftDown (i cnt : nat) (node : NonLeafNode) : NonLeafNode :=
  match cnt with
  | O => node
  | S c =>
      let j := (i + c)%nat in
      let node := nl_setKey (S j) (keyAt (nl_keyArray node) j) node in
      let node := nl_setPage (S (S j)) (pageAt (pageNoArray node) (S j)) node in
      nonLeafShiftDown i c node
  end.

Fixpoint insertInRoomyNonLeaf_from (todo i : nat) (node : NonLeafNode)
  (pageKey : PageKeyPair) : NonLeafNode :=
  match todo with
  | O => node
  | S todo' =>
      if Nat.eqb (pageAt (pageNoArray node) (S i)) INVALID_NUMBER then
        nl_setPage (S i) (pk_pageNo pageKey) (nl_setKey i (pk_key pageKey) node)
      else if strncmp (keyAt (nl_keyArray node) i) (pk_key pageKey) STRINGSIZE >=? 0 then
        let node := nonLeafShiftDown i (NON_LEAF_NUM_KEYS - 1 - i) node in
        nl_setPage (S i) (pk_pageNo pageKey) (nl_setKey i (pk_key pageKey) node)
      else insertInRoomyNonLeaf_from todo' (S i) node pageKey
  end.

Definition insertInRoomyNonLeaf (node : NonLeafNode) (pageKey : PageKeyPair)
  : NonLeafNode :=
  insertInRoomyNonLeaf_from NON_LEAF_NUM_KEYS 0 node pageKey.

(** [matchRange] reads the scan members; here they are arguments. *)
Definition matchRangeWith (lowOp : Operator) (lowVal : list byte)
  (highOp : Operator) (highVal : list byte) (key : list byte) : bool :=
  let lowFit :=
    if Operator_eqb lowOp GT then strncmp key lowVal STRINGSIZE >? 0
    else strncmp key lowVal STRINGSIZE >=? 0 in
  let highFit :=
    if Operator_eqb highOp LT then strncmp key highVal STRINGSIZE <? 0
    else strncmp key highVal STRINGSIZE <=? 0 in
  lowFit && highFit.

(** ** Splitting a node (the loops inside insertInLeaf and insertInSubtree) *)

(** [for (i = LEAF_NUM_KEYS/2; i < LEAF_NUM_KEYS; i++)] of insertInLeaf. *)
Fixpoint leafSplitLoop (todo i : nat) (currLeaf newLeaf : LeafNode)
  : LeafNode * LeafNode :=
  match todo with
  | O => (currLeaf, newLeaf)
  | S todo' =>
      let d := (i - LEAF_NUM_KEYS / 2)%nat in
      let newLeaf := lf_setKey d (keyAt (lf_keyArray currLeaf) i) newLeaf in
      let newLeaf := lf_setRid d (ridAt (ridArray currLeaf) i) newLeaf in
      let currLeaf := lf_setKey i zeroKey currLeaf in
      let currLeaf := lf_setRidPage i INVALID_NUMBER currLeaf in
      leafSplitLoop todo' (S i) currLeaf newLeaf
  end.

(** The part of insertInLeaf that runs on a full leaf, as a function of the
    two nodes: distribute, insert, thread the sibling pointers, and produce
    the pair that is copied up. *)
Definition leafSplit (currLeaf newLeaf : LeafNode) (newPageNum : PageId)
  (krid : RIDKeyPair) : LeafNode * LeafNode * PageKeyPair :=
  let '(currLeaf, newLeaf) :=
    leafSplitLoop (LEAF_NUM_KEYS - LEAF_NUM_KEYS / 2) (LEAF_NUM_KEYS / 2)
                  currLeaf newLeaf in
  let '(currLeaf, newLeaf) :=
    if strncmp (rk_key krid) (keyAt (lf_keyArray newLeaf) 0) STRINGSIZE <? 0
    then (insertInRoomyLeaf currLeaf krid, newLeaf)
    else (currLeaf, insertInRoomyLeaf newLeaf krid) in
  let newLeaf := lf_setRightSib (rightSibPageNo currLeaf) newLeaf in
  let currLeaf := lf_setRightSib newPageNum currLeaf in
  let splitKey :=
    {| pk_pageNo := newPageNum;
       pk_key := strncpy (keyAt (lf_keyArray newLeaf) 0) STRINGSIZE |} in
  (currLeaf, newLeaf, splitKey).

(** [for (i = NON_LEAF_NUM_KEYS/2; i < NON_LEAF_NUM_KEYS; i++)] of
    insertInSubtree, carrying [temp]. *)
Fixpoint nonLeafSplitLoop (todo i : nat) (temp : PageId)
  (currNode newNode : NonLeafNode) : NonLeafNode * NonLeafNode * PageId :=
  match todo with
  | O => (currNode, newNode, temp)
  | S todo' =>
      let d := (i - NON_LEAF_NUM_KEYS / 2)%nat in
      let newNode := nl_setKey d (keyAt (nl_keyArray currNode) i) newNode in
      let newNode := nl_setPage d temp newNode in
      let currNode := nl_setKey i zeroKey currNode in
      let temp := pageAt (pageNoArray currNode) (S i) in
      let currNode := nl_setPage (S i) INVALID_NUMBER currNode in
      nonLeafSplitLoop todo' (S i) temp currNode newNode
  end.

(** [for (int i = 0; i < newNodeLength; i++)]: shift keys and children one
    slot to the left. *)
Fixpoint nonLeafShiftUp (todo i : nat) (node : NonLeafNode) : NonLeafNode :=
  match todo with
  | O => node
  | S todo' =>
      let node := nl_setKey i (keyAt (nl_keyArray node) (S i)) node in
      let node := nl_setPage i (pageAt (pageNoArray node) (S i)) node in
      nonLeafShiftUp todo' (S i) node
  end.

(** The part of insertInSubtree that runs on a full node once the child has
    handed up [splitKey]: the two nodes after the split and the middle key.
    [None] stands for the read of [keyArray[currNodeLen-1]] with
    [currNodeLen = 0], which lies outside the array. *)
Definition nonLeafSplit (currNode newNode : NonLeafNode) (splitKey : PageKeyPair)
  : option (NonLeafNode * NonLeafNode * Key) :=
  let newNode := nl_setLevel (level currNode) newNode in
  let temp := pageAt (pageNoArray currNode) (NON_LEAF_NUM_KEYS / 2) in
  let '(currNode, newNode, temp) :=
    nonLeafSplitLoop (NON_LEAF_NUM_KEYS - NON_LEAF_NUM_KEYS / 2)
                     (NON_LEAF_NUM_KEYS / 2) temp currNode newNode in
  let newNode := nl_setPage (NON_LEAF_NUM_KEYS - NON_LEAF_NUM_KEYS / 2) temp newNode in
  if strncmp (pk_key splitKey) (keyAt (nl_keyArray newNode) 0) STRINGSIZE <? 0 then
    (* key should go in old node *)
    let currNode := insertInRoomyNonLeaf currNode splitKey in
    let currNodeLen := getNonLeafLength currNode in
    match currNodeLen with
    | O => None
    | S last =>
        let midKey := strncpy (keyAt (nl_keyArray currNode) last) STRINGSIZE in
        let currNode := nl_setKey last zeroKey currNode in
        let newNode := nl_setPage 0 (pageAt (pageNoArray currNode) currNodeLen) newNode in
        let currNode := nl_setPage currNodeLen INVALID_NUMBER currNode in
        Some (currNode, newNode, midKey)
    end
  else
    (* key should go in new node *)
    let newNode := insertInRoomyNonLeaf newNode splitKey in
    let midKey := strncpy (keyAt (nl_keyArray newNode) 0) STRINGSIZE in
    let newNodeLength := getNonLeafLength newNode in
    let newNode := nonLeafShiftUp newNodeLength 0 newNode in
    match newNodeLength with
    | O => None
    | S last =>
        let newNode := nl_setKey last zeroKey newNode in
        let newNode := nl_setPage newNodeLength INVALID_NUMBER newNode in
        Some (currNode, newNode, midKey)
    end.

(** ** Choosing a child *)

(** The three-way descent of insertInSubtree.  The middle case is the loop
    [for (i = 0; i < currNodeLen - 1; i++)]; the source repeats it for both
    values of [level], here it is written once.  [None]: the loop found no
    slot, so [split] is read uninitialised; or [currNodeLen = 0]. *)
Fixpoint insertMiddleLoop (todo i : nat) (key : Key) (currNode : NonLeafNode)
  : option nat :=
  match todo with
  | O => None
  | S todo' =>
      if (strncmp (keyAt (nl_keyArray currNode) i) key STRINGSIZE <=? 0)
         && (strncmp key (keyAt (nl_keyArray currNode) (S i)) STRINGSIZE <? 0)
      then Some (S i)
      else insertMiddleLoop todo' (S i) key currNode
  end.

Definition insertChildIndex (key : Key) (currNode : NonLeafNode) : option nat :=
  let currNodeLen := getNonLeafLength currNode in
  if strncmp key (keyAt (nl_keyArray currNode) 0) STRINGSIZE <? 0 then Some 0%nat
  else match currNodeLen with
       | O => None
       | S last =>
           if strncmp key (keyAt (nl_keyArray currNode) last) STRINGSIZE >=? 0
           then Some currNodeLen
           else insertMiddleLoop last 0 key currNode
       end.

(** The loop of findInSubtree: the value of [i] when the loop is left. *)
Fixpoint findChildLoop (todo i numKeys : nat) (lowOp : Operator) (lowVal : list byte)
  (currNode : NonLeafNode) : nat :=
  match todo with
  | O => i
  | S todo' =>
      let c := strncmp (keyAt (nl_keyArray currNode) i) lowVal STRINGSIZE in
      if Operator_eqb lowOp GT then
        if c >? 0 then i else findChildLoop todo' (S i) numKeys lowOp lowVal currNode
      else if Nat.eqb (S i) numKeys then
        if c >? 0 then i else findChildLoop todo' (S i) numKeys lowOp lowVal currNode
      else
        if c =? 0 then S i
        else if c >? 0 then i
        else findChildLoop todo' (S i) numKeys lowOp lowVal currNode
  end.

Definition findChildIndex (lowOp : Operator) (lowVal : list byte)
  (currNode : NonLeafNode) : nat :=
  let numKeys := getNonLeafLength currNode in
  findChildLoop numKeys 0 numKeys lowOp lowVal currNode.

(** ** The index object and the buffer manager behind it *)

(** The members of [class BTreeIndex].  [file] is the content of the index
    file as the buffer manager presents it, page number [p >= 1] at position
    [p - 1]; [pins] holds the buffer manager's pin count per page.  A pointer
    to a pinned page ([currentPageData], the local node pointers) is the
    number of the page it points into, so that a read through the pointer
    sees every write made to the page. *)
Record BTreeIndex := mkIndex {
  file : list Page;
  pins : list Z;
  headerPageNum : PageId;
  rootPageNum : PageId;
  attrByteOffset : Z;
  scanExecuting : bool;
  nextEntry : nat;
  currentPageNum : PageId;
  currentPageData : option PageId;
  lowVal : list byte;
  highVal : list byte;
  lowOp : Operator;
  highOp : Operator
}.

Definition set_file (f : list Page) (s : BTreeIndex) : BTreeIndex :=
  mkIndex f (pins s) (headerPageNum s) (rootPageNum s) (attrByteOffset s)
          (scanExecuting s) (nextEntry s) (currentPageNum s) (currentPageData s)
          (lowVal s) (highVal s) (lowOp s) (highOp s).
Definition set_pins (p : list Z) (s : BTreeIndex) : BTreeIndex :=
  mkIndex (file s) p (headerPageNum s) (rootPageNum s) (attrByteOffset s)
          (scanExecuting s) (nextEntry s) (currentPageNum s) (currentPageData s)
          (lowVal s) (highVal s) (lowOp s) (highOp s).
Definition set_headerPageNum (h : PageId) (s : BTreeIndex) : BTreeIndex :=
  mkIndex (file s) (pins s) h (rootPageNum s) (attrByteOffset s)
          (scanExecuting s) (nextEntry s) (currentPageNum s) (currentPageData s)
          (lowVal s) (highVal s) (lowOp s) (highOp s).
Definition set_rootPageNum (r : PageId) (s : BTreeIndex) : BTreeIndex :=
  mkIndex (file s) (pins s) (headerPageNum s) r (attrByteOffset s)
          (scanExecuting s) (nextEntry s) (currentPageNum s) (currentPageData s)
          (lowVal s) (highVal s) (lowOp s) (highOp s).
Definition set_scanExecuting (b : bool) (s : BTreeIndex) : BTreeIndex :=
  mkIndex (file s) (pins s) (headerPageNum s) (rootPageNum s) (attrByteOffset s)
          b (nextEntry s) (currentPageNum s) (currentPageData s)
          (lowVal s) (highVal s) (lowOp s) (highOp s).
Definition set_nextEntry (n : nat) (s : BTreeIndex) : BTreeIndex :=
  mkIndex (file s) (pins s) (headerPageNum s) (rootPageNum s) (attrByteOffset s)
          (scanExecuting s) n (currentPageNum s) (currentPageData s)
          (lowVal s) (highVal s) (lowOp s) (highOp s).
Definition set_currentPageNum (p : PageId) (s : BTreeIndex) : BTreeIndex :=
  mkIndex (file s) (pins s) (headerPageNum s) (rootPageNum s) (attrByteOffset s)
          (scanExecuting s) (nextEntry s) p (currentPageData s)
          (lowVal s) (highVal s) (lowOp s) (highOp s).
Definition set_currentPageData (d : option PageId) (s : BTreeIndex) : BTreeIndex :=
  mkIndex (file s) (pins s) (headerPageNum s) (rootPageNum s) (attrByteOffset s)
          (scanExecuting s) (nextEntry s) (currentPageNum s) d
          (lowVal s) (highVal s) (lowOp s) (highOp s).
Definition set_range (lv : list byte) (lo : Operator) (hv : list byte) (ho : Operator)
  (s : BTreeIndex) : BTreeIndex :=
  mkIndex (file s) (pins s) (headerPageNum s) (rootPageNum s) (attrByteOffset s)
          (scanExecuting s) (nextEntry s) (currentPageNum s) (currentPageData s)
          lv hv lo ho.

(** What a call can end with besides a normal return.  The first six are
    the exceptions of the source.  [InvalidPageException] is raised by the
    buffer manager for a page number that is not in the file.  [BadCast] and
    [UndefinedBehaviour] mark executions the model does not follow any
    further: a page read under a layout it was not written with, and a read
    outside an array or of an uninitialised local. *)
Inductive Exn :=
| BadIndexInfoException
| BadOpcodesException
| BadScanrangeException
| NoSuchKeyFoundException
| ScanNotInitializedException
| IndexScanCompletedException
| InvalidPageException
| BadCast
| UndefinedBehaviour.

Inductive Result (A : Type) :=
| Ok (a : A) (s : BTreeIndex)
| Raise (e : Exn) (s : BTreeIndex)
| OutOfFuel.
Arguments Ok {A} a s.
Arguments Raise {A} e s.
Arguments OutOfFuel {A}.

(** A member function: from the object's state to a result and a state. *)
Definition M (A : Type) : Type := BTreeIndex -> Result A.

Definition ret {A} (a : A) : M A := fun s => Ok a s.
Definition bind {A B} (m : M A) (k : A -> M B) : M B :=
  fun s => match m s with
           | Ok a s' => k a s'
           | Raise e s' => Raise e s'
           | OutOfFuel => OutOfFuel
           end.
Definition raise {A} (e : Exn) : M A := fun s => Raise e s.
Definition outOfFuel {A} : M A := fun _ => OutOfFuel.
Definition gets {A} (f : BTreeIndex -> A) : M A := fun s => Ok (f s) s.
Definition modify (f : BTreeIndex -> BTreeIndex) : M unit := fun s => Ok tt (f s).

Declare Scope btree_scope.
Delimit Scope btree_scope with btree.
Notation "x <- c ;; k" := (bind c (fun x => k))
  (at level 100, c at next level, right associativity) : btree_scope.
Notation "c ;; k" := (bind c (fun _ => k))
  (at level 100, right associativity) : btree_scope.
Local Open Scope btree_scope.

Definition lookupPage (f : list Page) (p : PageId) : option Page :=
  match p with
  | O => None
  | S i => f !! i
  end.

Definition writePage (f : list Page) (p : PageId) (pg : Page) : list Page :=
  match p with
  | O => f
  | S i => <[i := pg]> f
  end.

(** Pin counts, one per page number (position [p] for page [p]); a page the
    list does not reach has count 0. *)
Definition pinCount (c : list Z) (p : PageId) : Z := nth p c 0.

Fixpoint pinDelta (p : PageId) (d : Z) (c : list Z) : list Z :=
  match p, c with
  | O, [] => [d]
  | O, x :: c' => (x + d) :: c'
  | S p', [] => 0 :: pinDelta p' d []
  | S p', x :: c' => x :: pinDelta p' d c'
  end.

(** Modelled from the spec: the buffer manager operations the index consumes
    (readPage, allocatePage, unPinPage; include/buffer.h is not part of the
    sources).  readPage pins an existing page; allocatePage appends a
    zero-filled page to the file and returns it pinned; unPinPage releases
    one pin. *)
Definition readPage (p : PageId) : M Page :=
  fun s => match lookupPage (file s) p with
           | Some pg => Ok pg (set_pins (pinDelta p 1 (pins s)) s)
           | None => Raise InvalidPageException s
           end.

Definition allocatePage (init : Page) : M PageId :=
  fun s => let p := S (length (file s)) in
           Ok p (set_pins (pinDelta p 1 (pins s)) (set_file (file s ++ [init]) s)).

Definition unPinPage (p : PageId) (dirty : bool) : M unit :=
  modify (fun s => set_pins (pinDelta p (-1) (pins s)) s).

(** Reading and writing through a pointer to a page. *)
Definition deref (p : PageId) : M Page :=
  fun s => match lookupPage (file s) p with
           | Some pg => Ok pg s
           | None => Raise InvalidPageException s
           end.

Definition store (p : PageId) (pg : Page) : M unit :=
  modify (fun s => set_file (writePage (file s) p pg) s).

Definition asNonLeaf (pg : Page) : M NonLeafNode :=
  match pg with PNonLeaf n => ret n | _ => raise BadCast end.
Definition asLeaf (pg : Page) : M LeafNode :=
  match pg with PLeaf l => ret l | _ => raise BadCast end.
Definition asMeta (pg : Page) : M IndexMetaInfo :=
  match pg with PMeta m => ret m | _ => raise BadCast end.

Definition derefNonLeaf (p : PageId) : M NonLeafNode := pg <- deref p ;; asNonLeaf pg.
Definition derefLeaf (p : PageId) : M LeafNode := pg <- deref p ;; asLeaf pg.
Definition derefMeta (p : PageId) : M IndexMetaInfo := pg <- deref p ;; asMeta pg.

(** ** Page helpers of the class *)

Definition allocateNonLeafNode : M (PageId * NonLeafNode) :=
  p <- allocatePage (PNonLeaf freshNonLeaf) ;; ret (p, freshNonLeaf).

Definition allocateLeafNode : M (PageId * LeafNode) :=
  p <- allocatePage (PLeaf freshLeaf) ;; ret (p, freshLeaf).

Definition readNonLeafNode (pageNo : PageId) : M NonLeafNode :=
  pg <- readPage pageNo ;; asNonLeaf pg.

Definition readLeafNode (pageNo : PageId) : M LeafNode :=
  pg <- readPage pageNo ;; asLeaf pg.

Definition getHeader : M IndexMetaInfo :=
  h <- gets headerPageNum ;; pg <- readPage h ;; asMeta pg.

Definition matchRange (key : list byte) : M bool :=
  fun s => Ok (matchRangeWith (lowOp s) (lowVal s) (highOp s) (highVal s) key) s.

(** ** Insertion engine *)

Definition insertInLeaf (krid : RIDKeyPair) (pageNum : PageId) (splitKey : PageKeyPair)
  : M (bool * PageKeyPair) :=
  currLeaf <- readLeafNode pageNum ;;
  if isRoomyLeaf currLeaf then
    store pageNum (PLeaf (insertInRoomyLeaf currLeaf krid)) ;;
    unPinPage pageNum true ;;
    ret (false, splitKey)
  else
    r <- allocateLeafNode ;; let '(newPageNum, newLeaf) := r in
    let '(currLeaf, newLeaf, splitKey) := leafSplit currLeaf newLeaf newPageNum krid in
    store pageNum (PLeaf currLeaf) ;;
    store newPageNum (PLeaf newLeaf) ;;
    unPinPage pageNum true ;;
    unPinPage newPageNum true ;;
    ret (true, splitKey).

(** A new root above the node that was the root (lines 320-329). *)
Definition growRoot (pageNum newPageNum : PageId) (midKey : Key) : M unit :=
  r <- allocateNonLeafNode ;; let '(newRootNum, newRoot) := r in
  modify (set_rootPageNum newRootNum) ;;
  header <- getHeader ;;
  h <- gets headerPageNum ;;
  store h (PMeta {| relationName := relationName header;
                    meta_attrByteOffset := meta_attrByteOffset header;
                    rootPageNo := newRootNum |}) ;;
  unPinPage h true ;;
  currNode <- derefNonLeaf pageNum ;;
  let newRoot := nl_setKey 0 midKey newRoot in
  let newRoot := nl_setPage 0 pageNum newRoot in
  let newRoot := nl_setPage 1 newPageNum newRoot in
  let newRoot := nl_setLevel (level currNode + 1) newRoot in
  store newRootNum (PNonLeaf newRoot) ;;
  unPinPage newRootNum true.

Fixpoint insertInSubtree (fuel : nat) (krid : RIDKeyPair) (pageNum : PageId)
  (splitKey : PageKeyPair) : M (bool * PageKeyPair) :=
  match fuel with
  | O => outOfFuel
  | S fuel' =>
      currNode <- readNonLeafNode pageNum ;;
      r <-
        match insertChildIndex (rk_key krid) currNode with
        | None => raise UndefinedBehaviour
        | Some i =>
            if level currNode =? 1
            then insertInLeaf krid (pageAt (pageNoArray currNode) i) splitKey
            else insertInSubtree fuel' krid (pageAt (pageNoArray currNode) i) splitKey
        end ;;
      let '(split, splitKey) := r in
      if (split : bool) then
        currNode <- derefNonLeaf pageNum ;;
        if isRoomyNonLeaf currNode then
          store pageNum (PNonLeaf (insertInRoomyNonLeaf currNode splitKey)) ;;
          unPinPage pageNum true ;;
          ret (false, splitKey)
        else
          r <- allocateNonLeafNode ;; let '(newPageNum, newNode) := r in
          match nonLeafSplit currNode newNode splitKey with
          | None => raise UndefinedBehaviour
          | Some (currNode, newNode, midKey) =>
              store pageNum (PNonLeaf currNode) ;;
              store newPageNum (PNonLeaf newNode) ;;
              root <- gets rootPageNum ;;
              splitKey <-
                (if Nat.eqb pageNum root then
                   growRoot pageNum newPageNum midKey ;; ret splitKey
                 else
                   ret {| pk_pageNo := newPageNum;
                          pk_key := strncpy midKey STRINGSIZE |}) ;;
              unPinPage pageNum true ;;
              unPinPage newPageNum true ;;
              ret (true, splitKey)
          end
      else
        unPinPage pageNum false ;;
        ret (false, splitKey)
  end.

(** [insertEntry], first insert (lines 120-137). *)
Definition insertFirst (key : list byte) (rid : RecordId) : M unit :=
  r <- allocateNonLeafNode ;; let '(root, rootNode) := r in
  modify (set_rootPageNum root) ;;
  let rootNode := nl_setLevel 1 rootNode in
  store root (PNonLeaf rootNode) ;;
  header <- getHeader ;;
  h <- gets headerPageNum ;;
  store h (PMeta {| relationName := relationName header;
                    meta_attrByteOffset := meta_attrByteOffset header;
                    rootPageNo := root |}) ;;
  unPinPage h true ;;
  let rootNode := nl_setKey 0 key rootNode in
  r <- allocateLeafNode ;; let '(p0, leaf1) := r in
  let rootNode := nl_setPage 0 p0 rootNode in
  r <- allocateLeafNode ;; let '(p1, leaf2) := r in
  let rootNode := nl_setPage 1 p1 rootNode in
  let leaf1 := lf_setRightSib (pageAt (pageNoArray rootNode) 1) leaf1 in
  let leaf2 := lf_setRightSib INVALID_NUMBER leaf2 in
  let leaf2 := lf_setKey 0 key leaf2 in
  let leaf2 := lf_setRid 0 rid leaf2 in
  store root (PNonLeaf rootNode) ;;
  store p0 (PLeaf leaf1) ;;
  store p1 (PLeaf leaf2) ;;
  unPinPage root true ;;
  unPinPage (pageAt (pageNoArray rootNode) 0) true ;;
  unPinPage (pageAt (pageNoArray rootNode) 1) true.

(** The local [PageKeyPair pagekey] of insertEntry is not initialised; it is
    only ever written before it is read. *)
Definition uninitPageKey : PageKeyPair := {| pk_pageNo := INVALID_NUMBER; pk_key := zeroKey |}.

Definition insertEntry (fuel : nat) (key : list byte) (rid : RecordId) : M unit :=
  root <- gets rootPageNum ;;
  if Nat.eqb root INVALID_NUMBER then insertFirst key rid
  else
    let ridkey := RIDKeyPair_set rid key in
    insertInSubtree fuel ridkey root uninitPageKey ;; ret tt.

(** ** Scan engine *)

Definition endScan : M unit :=
  se <- gets scanExecuting ;;
  if negb se then raise ScanNotInitializedException
  else
    modify (set_scanExecuting false) ;;
    cur <- gets currentPageNum ;;
    if negb (Nat.eqb cur INVALID_NUMBER) then
      unPinPage cur false ;;
      modify (set_currentPageNum INVALID_NUMBER) ;;
      modify (set_currentPageData None)
    else ret tt.

(** Reading the leaf [currentPageData] points to. *)
Definition currentLeaf : M LeafNode :=
  d <- gets currentPageData ;;
  match d with
  | None => raise UndefinedBehaviour
  | Some p => derefLeaf p
  end.

(** [bufferManager->readPage(file, currentPageNum, currentPageData)] *)
Definition readCurrentPage : M unit :=
  cur <- gets currentPageNum ;;
  readPage cur ;;
  modify (set_currentPageData (Some cur)).

(** How the loop over the keys of one leaf in findInLeaf ends. *)
Inductive LeafProbe :=
| Found (i : nat)      (* matchRange holds at slot i *)
| PastHigh             (* a key larger than highVal was met *)
| Exhausted.           (* the loop ran to numKeys *)

Fixpoint findInLeafLoop (todo i : nat) (lowOp : Operator) (lowVal : list byte)
  (highOp : Operator) (highVal : list byte) (currNode : LeafNode) : LeafProbe :=
  match todo with
  | O => Exhausted
  | S todo' =>
      if matchRangeWith lowOp lowVal highOp highVal (keyAt (lf_keyArray currNode) i)
      then Found i
      else if strncmp (keyAt (lf_keyArray currNode) i) highVal STRINGSIZE >? 0
      then PastHigh
      else findInLeafLoop todo' (S i) lowOp lowVal highOp highVal currNode
  end.

Fixpoint findInLeaf (fuel : nat) (currPid : PageId) (result : RecordId) : M RecordId :=
  match fuel with
  | O => outOfFuel
  | S fuel' =>
      currNode <- currentLeaf ;;
      let numKeys := getLeafLength currNode in
      lo <- gets lowOp ;; lv <- gets lowVal ;; ho <- gets highOp ;; hv <- gets highVal ;;
      match findInLeafLoop numKeys 0 lo lv ho hv currNode with
      | Found i =>
          modify (set_nextEntry i) ;;
          ret (ridAt (ridArray currNode) i)
      | PastHigh => ret result
      | Exhausted =>
          if negb (Nat.eqb (rightSibPageNo currNode) INVALID_NUMBER) then
            modify (set_currentPageNum (rightSibPageNo currNode)) ;;
            unPinPage currPid false ;;
            readCurrentPage ;;
            cur <- gets currentPageNum ;;
            findInLeaf fuel' cur result
          else ret result
      end
  end.

Fixpoint findInSubtree (fuel : nat) (currPid : PageId) : M unit :=
  match fuel with
  | O => outOfFuel
  | S fuel' =>
      currNode <- readNonLeafNode currPid ;;
      lo <- gets lowOp ;; lv <- gets lowVal ;;
      let i := findChildIndex lo lv currNode in
      if negb (level currNode =? 1) then
        unPinPage currPid false ;;
        findInSubtree fuel' (pageAt (pageNoArray currNode) i)
      else
        modify (set_currentPageNum (pageAt (pageNoArray currNode) i)) ;;
        unPinPage currPid false ;;
        readCurrentPage ;;
        cur <- gets currentPageNum ;;
        rec <- findInLeaf fuel cur (mkRid INVALID_NUMBER INVALID_SLOT) ;;
        if Nat.eqb (page_number rec) INVALID_NUMBER then
          endScan ;;
          raise NoSuchKeyFoundException
        else ret tt
  end.

Definition startScan (fuel : nat) (lowValParm : list byte) (lowOpParm : Operator)
  (highValParm : list byte) (highOpParm : Operator) : M unit :=
  se <- gets scanExecuting ;;
  (if se then endScan else ret tt) ;;
  if strncmp lowValParm highValParm STRINGSIZE >? 0 then
    raise BadScanrangeException
  else if negb (Operator_eqb lowOpParm GT) && negb (Operator_eqb lowOpParm GTE) then
    raise BadOpcodesException
  else if negb (Operator_eqb highOpParm LT) && negb (Operator_eqb highOpParm LTE) then
    raise BadOpcodesException
  else
    modify (set_scanExecuting true) ;;
    modify (set_nextEntry 0) ;;
    modify (set_range lowValParm lowOpParm highValParm highOpParm) ;;
    root <- gets rootPageNum ;;
    findInSubtree fuel root.

Definition scanNext : M RecordId :=
  se <- gets scanExecuting ;;
  if negb se then raise ScanNotInitializedException
  else
    cur <- gets currentPageNum ;;
    if Nat.eqb cur INVALID_NUMBER then
      endScan ;; raise IndexScanCompletedException
    else
      currNode <- currentLeaf ;;
      ne <- gets nextEntry ;;
      if (LEAF_NUM_KEYS <=? ne)%nat then raise UndefinedBehaviour
      else
        fits <- matchRange (keyAt (lf_keyArray currNode) ne) ;;
        if negb fits then
          endScan ;; raise IndexScanCompletedException
        else
          let numKeys := getLeafLength currNode in
          let outRid := ridAt (ridArray currNode) ne in
          (if Nat.eqb (S ne) numKeys then
             modify (set_nextEntry 0) ;;
             let nextPageNo := rightSibPageNo currNode in
             unPinPage cur false ;;
             modify (set_currentPageNum nextPageNo) ;;
             if negb (Nat.eqb nextPageNo INVALID_NUMBER) then readCurrentPage
             else modify (set_currentPageData None)
           else modify (set_nextEntry (S ne))) ;;
          ret outRid.

(** The scan driver of main.cpp ([stringScan]): start the scan, treat
    NoSuchKeyFound as an empty answer, then call scanNext until
    IndexScanCompleted.  It returns the record ids in the order they were
    produced; [calls] bounds the number of scanNext calls. *)
Fixpoint scanLoop (calls : nat) : M (list RecordId) :=
  match calls with
  | O => outOfFuel
  | S calls' =>
      fun s =>
        match scanNext s with
        | Ok rid s' =>
            match scanLoop calls' s' with
            | Ok rids s'' => Ok (rid :: rids) s''
            | other => other
            end
        | Raise IndexScanCompletedException s' => Ok [] s'
        | Raise e s' => Raise e s'
        | OutOfFuel => OutOfFuel
        end
  end.

Definition scanAll (fuel : nat) (lowValParm : list byte) (lowOpParm : Operator)
  (highValParm : list byte) (highOpParm : Operator) : M (list RecordId) :=
  fun s =>
    match startScan fuel lowValParm lowOpParm highValParm highOpParm s with
    | Ok _ s' => scanLoop fuel s'
    | Raise NoSuchKeyFoundException s' => Ok [] s'
    | Raise e s' => Raise e s'
    | OutOfFuel => OutOfFuel
    end.

(** ** Index lifecycle *)

(** [strcmp(a, s)] where [a] is a [char] array member: when the whole array
    matches without a NUL, the comparison runs past the end of the array. *)
Definition strcmpArray (a s : list byte) : option Z :=
  let c := strncmp a s (length a) in
  if c =? 0 then (if terminated a then Some 0 else None) else Some c.

(** One record of the relation as the FileScanner hands it out. *)
Definition Record_ := (RecordId * list byte)%type.

(** The loop [while (1) { fscan->scanNext(scanRid); ... insertEntry(key,
    scanRid); }], left through EndOfFileException. *)
Fixpoint bulkLoad (fuel : nat) (records : list Record_) : M unit :=
  match records with
  | [] => ret tt
  | (scanRid, record) :: rest =>
      off <- gets attrByteOffset ;;
      insertEntry fuel (drop (Z.to_nat off) record) scanRid ;;
      bulkLoad fuel rest
  end.

(** The state the constructor starts from.  [existing] is the content of the
    file named [relationName.attrByteOffset] when there is one; [bufPins]
    are the buffer manager's pin counts; [uninit] supplies the members the
    constructor does not initialise. *)
Definition constructorEntry (attrByteOffsetIn : Z) (existing : option (list Page))
  (bufPins : list Z) (uninit : BTreeIndex) : BTreeIndex :=
  {| file := match existing with Some f => f | None => [] end;
     pins := bufPins;
     headerPageNum := headerPageNum uninit;
     rootPageNum := INVALID_NUMBER;
     attrByteOffset := attrByteOffsetIn;
     scanExecuting := false;
     nextEntry := nextEntry uninit;
     currentPageNum := currentPageNum uninit;
     currentPageData := currentPageData uninit;
     lowVal := lowVal uninit; highVal := highVal uninit;
     lowOp := lowOp uninit; highOp := highOp uninit |}.

(** The [try] block: load an existing index. *)
Definition loadIndex (relationNameIn : list byte) (attrByteOffsetIn : Z) : M unit :=
  modify (set_headerPageNum 1%nat) ;;
  header <- getHeader ;;
  modify (set_rootPageNum (rootPageNo header)) ;;
  match strcmpArray (relationName header) relationNameIn with
  | None => raise UndefinedBehaviour
  | Some c =>
      if negb (c =? 0) then raise BadIndexInfoException
      else if negb (meta_attrByteOffset header =? attrByteOffsetIn) then
        raise BadIndexInfoException
      else
        h <- gets headerPageNum ;;
        unPinPage h false
  end.

(** The [catch (FileNotFoundException)] block: build a new index. *)
Definition buildIndex (fuel : nat) (relationNameIn : list byte) (attrByteOffsetIn : Z)
  (relation : list Record_) : M unit :=
  h <- allocatePage (PMeta freshMeta) ;;
  modify (set_headerPageNum h) ;;
  root <- gets rootPageNum ;;
  store h (PMeta {| relationName := strncpy relationNameIn 20;
                    meta_attrByteOffset := attrByteOffsetIn;
                    rootPageNo := root |}) ;;
  bulkLoad fuel relation ;;
  h <- gets headerPageNum ;;
  unPinPage h true.

Definition BTreeIndex_new (fuel : nat) (relationNameIn : list byte) (attrByteOffsetIn : Z)
  (existing : option (list Page)) (relation : list Record_)
  (bufPins : list Z) (uninit : BTreeIndex) : Result unit :=
  let s := constructorEntry attrByteOffsetIn existing bufPins uninit in
  match existing with
  | Some _ => loadIndex relationNameIn attrByteOffsetIn s
  | None => buildIndex fuel relationNameIn attrByteOffsetIn relation s
  end.


(** ** Keys as numbers

    The order [strncmp] puts on keys is the order of the numbers the first
    [STRINGSIZE] bytes spell in base 256, a string that ends early counting
    as padded with NULs. *)
Fixpoint keyVal (s : list byte) (n : nat) : Z :=
  match n with
  | O => 0
  | S n' =>
      if uchar (peek s) =? 0 then 0
      else uchar (peek s) * 256 ^ Z.of_nat n' + keyVal (tl s) n'
  end.

Definition kv (k : list byte) : Z := keyVal k STRINGSIZE.

(** ** Notions used to state the properties *)

(** A leaf slot is free when its record id carries the reserved page
    number; this is the test getLeafLength and insertInRoomyLeaf apply. *)
Definition freeSlot (l : LeafNode) (i : nat) : Prop :=
  page_number (ridAt (ridArray l) i) = INVALID_NUMBER.

(** Free slots hold the zero-filled key: true of a fresh page, and restored
    by the split loops for every slot they vacate. *)
Definition leafFreeSlotsZero (l : LeafNode) : Prop :=
  forall i, (i < LEAF_NUM_KEYS)%nat -> freeSlot l i -> keyAt (lf_keyArray l) i = zeroKey.

(** The low bound of a scan leaves the all-zero key out: lowVal is greater
    than ten zero bytes, or the operator is GT and lowVal is at least the
    all-zero key. *)
Definition lowExcludesZero (op : Operator) (lv : list byte) : Prop :=
  strncmp lv zeroKey STRINGSIZE > 0 \/ (op = GT /\ strncmp lv zeroKey STRINGSIZE >= 0).

(** The state endScan leaves behind when a scan is running. *)
Definition scanEnded (s : BTreeIndex) : BTreeIndex :=
  if Nat.eqb (currentPageNum s) INVALID_NUMBER then set_scanExecuting false s
  else set_currentPageData None
         (set_currentPageNum INVALID_NUMBER
            (set_pins (pinDelta (currentPageNum s) (-1) (pins s))
               (set_scanExecuting false s))).

(** The position of a running scan fails the range test, or there is no
    current page. *)
Definition scanPositionRejected (s : BTreeIndex) : Prop :=
  currentPageNum s = INVALID_NUMBER \/
  exists p l,
    currentPageData s = Some p /\ lookupPage (file s) p = Some (PLeaf l) /\
    (nextEntry s < LEAF_NUM_KEYS)%nat /\
    matchRangeWith (lowOp s) (lowVal s) (highOp s) (highVal s)
                   (keyAt (lf_keyArray l) (nextEntry s)) = false.

(** Operators startScan accepts. *)
Definition goodOpcodes (lowOpParm highOpParm : Operator) : Prop :=
  (lowOpParm = GT \/ lowOpParm = GTE) /\ (highOpParm = LT \/ highOpParm = LTE).

(** ** A small index used to instantiate the statements *)

(** Members before the constructor has run. *)
Definition blankIndex : BTreeIndex :=
  mkIndex [] [] 0%nat 0%nat 0 false 0%nat 0%nat None [] [] LT LT.

Definition exampleRelation : list Record_ :=
  [ (mkRid 1%nat 1%nat, ["d"%byte]); (mkRid 1%nat 2%nat, ["b"%byte]); (mkRid 1%nat 3%nat, ["f"%byte]);
    (mkRid 2%nat 1%nat, ["a"%byte]); (mkRid 2%nat 2%nat, ["e"%byte]); (mkRid 2%nat 3%nat, ["c"%byte]);
    (mkRid 3%nat 1%nat, ["g"%byte]) ].

Definition relA : list byte := ["r"%byte; "e"%byte; "l"%byte; "A"%byte].
Definition relB : list byte := ["r"%byte; "e"%byte; "l"%byte; "B"%byte].

Definition stateOf {A} (r : Result A) : BTreeIndex :=
  match r with
  | Ok _ s => s
  | Raise _ s => s
  | OutOfFuel => blankIndex
  end.

(** The index built over [exampleRelation]. *)
Definition exampleIndex : BTreeIndex :=
  Eval vm_compute in
    stateOf (BTreeIndex_new 8 relA 0 None exampleRelation [] blankIndex).

(** The same index with a scan of ["b" <= key < "f"] started. *)
Definition exampleScan : BTreeIndex :=
  Eval vm_compute in stateOf (startScan 8 ["b"%byte] GTE ["f"%byte] LT exampleIndex).

(** The scan of [exampleScan] after "b", "c", "d" and "e" have been handed
    out: the cursor is on "f". *)
Definition exampleScanAtF : BTreeIndex :=
  Eval vm_compute in stateOf ((scanNext ;; scanNext ;; scanNext ;; scanNext) exampleScan).

(** [exampleScan] with the cursor moved onto the free slot of its leaf. *)
Definition exampleScanOnFreeSlot : BTreeIndex :=
  Eval vm_compute in set_nextEntry 3 exampleScan.

(** Child slot [i] of an internal node holds a page number. *)
Definition childOccupied (N : NonLeafNode) (i : nat) : bool :=
  negb (Nat.eqb (pageAt (pageNoArray N) i) INVALID_NUMBER).

(** Key slot [i] counts as occupied when the child pointer to its right,
    [pageNoArray[i+1]], is set: that pointer is the only occupancy mark the
    code reads. *)
Definition keySlotOccupied (N : NonLeafNode) (i : nat) : bool := childOccupied N (S i).

(** The number of [i < n] with [f i]. *)
Fixpoint countBelow (f : nat -> bool) (n : nat) : nat :=
  match n with
  | O => O
  | S n' => ((if f n' then 1 else 0) + countBelow f n')%nat
  end.

Definition occupiedKeySlots (N : NonLeafNode) : nat :=
  countBelow (keySlotOccupied N) NON_LEAF_NUM_KEYS.

(** Occupancy is a dense prefix: no occupied key slot follows a free one. *)
Definition densePrefix (N : NonLeafNode) : Prop :=
  forall i j, (i <= j)%nat -> (j < NON_LEAF_NUM_KEYS)%nat ->
              keySlotOccupied N j = true -> keySlotOccupied N i = true.

(** The fullness test insertInSubtree applies before it splits a node. *)
Definition nonLeafFull (N : NonLeafNode) : bool := negb (isRoomyNonLeaf N).

(** An internal node with a gap in its child pointers. *)
Definition sparseNode : NonLeafNode :=
  {| level := 1; nl_keyArray := repeat zeroKey 4; pageNoArray := [3; 0; 5; 0; 0]%nat |}.

(** The index built over an empty relation: a meta page and no tree. *)
Definition emptyIndex : BTreeIndex :=
  Eval vm_compute in stateOf (BTreeIndex_new 8 relA 0 None [] [] blankIndex).



(** The state in which the constructor leaves the object (also when it
    throws), and the outcome. *)
Definition constructed (fuel : nat) (name : list byte) (off : Z)
  (existing : option (list Page)) (relation : list Record_) : BTreeIndex :=
  stateOf (BTreeIndex_new fuel name off existing relation [] blankIndex).

Definition outcome {A} (r : Result A) : option Exn :=
  match r with
  | Ok _ _ => None
  | Raise e _ => Some e
  | OutOfFuel => None
  end.

(** ** What a node holds *)

(** An entry of the index as the order sees it: the number its key spells
    and the record id. *)
Definition entry : Type := (Z * RecordId)%type.

Definition validRid (r : RecordId) : Prop := page_number r <> INVALID_NUMBER.

(** The entries of a leaf: its first [getLeafLength] slots. *)
Definition leafEntries (l : LeafNode) : list entry :=
  map (fun i => (kv (keyAt (lf_keyArray l) i), ridAt (ridArray l) i))
      (seq 0 (getLeafLength l)).

(** A leaf page in good shape: arrays of the declared size, and every slot
    from the first free one on is free and zero-filled. *)
Definition leafOk (l : LeafNode) : Prop :=
  length (lf_keyArray l) = LEAF_NUM_KEYS /\
  length (ridArray l) = LEAF_NUM_KEYS /\
  forall i, (getLeafLength l <= i < LEAF_NUM_KEYS)%nat ->
            freeSlot l i /\ keyAt (lf_keyArray l) i = zeroKey.

(** Insertion into a list of entries in ascending key order: before the
    first entry whose key is not smaller. *)
Fixpoint insEntry (k : Z) (r : RecordId) (es : list entry) : list entry :=
  match es with
  | [] => [(k, r)]
  | e :: t => if k <=? fst e then (k, r) :: es else e :: insEntry k r t
  end.

(** Keys strictly ascending, all of them in [lo, hi). *)
Fixpoint ascending (lo hi : Z) (es : list entry) : Prop :=
  match es with
  | [] => True
  | e :: t => lo <= fst e < hi /\ ascending (fst e + 1) hi t
  end.

(** The router keys of an internal node and the children between them: the
    leftmost child, then each key with the child to its right. *)
Definition nodeFirstChild (N : NonLeafNode) : PageId := pageAt (pageNoArray N) 0.

Definition nodeItems (N : NonLeafNode) : list (Z * PageId) :=
  map (fun i => (kv (keyAt (nl_keyArray N) i), pageAt (pageNoArray N) (S i)))
      (seq 0 (getNonLeafLength N)).

(** An internal page in good shape: arrays of the declared size, at least
    one key, and every child slot from the first free one on is free. *)
Definition nodeOk (N : NonLeafNode) : Prop :=
  length (nl_keyArray N) = NON_LEAF_NUM_KEYS /\
  length (pageNoArray N) = S NON_LEAF_NUM_KEYS /\
  (1 <= getNonLeafLength N)%nat /\
  forall i, (getNonLeafLength N < i <= NON_LEAF_NUM_KEYS)%nat ->
            pageAt (pageNoArray N) i = INVALID_NUMBER.

(** Insertion of a router key with the child to its right, in key order. *)
Fixpoint insItem (k : Z) (q : PageId) (items : list (Z * PageId)) : list (Z * PageId) :=
  match items with
  | [] => [(k, q)]
  | it :: t => if k <=? fst it then (k, q) :: items else it :: insItem k q t
  end.

(** Router keys strictly ascending and strictly inside (lo, hi). *)
Fixpoint itemsAscending (lo hi : Z) (items : list (Z * PageId)) : Prop :=
  match items with
  | [] => lo < hi
  | it :: t => lo < fst it /\ itemsAscending (fst it) hi t
  end.

(** The child a key belongs to: the one left of the first router key that
    is larger than the key. *)
Fixpoint descend (k : Z) (c0 : PageId) (items : list (Z * PageId)) : PageId :=
  match items with
  | [] => c0
  | it :: t => if k <? fst it then c0 else descend k (snd it) t
  end.

(** The five shapes of a leaf in good shape, by number of entries.  A free
    slot keeps whatever slot number was last written to it. *)
Inductive leafForm : LeafNode -> Prop :=
| LeafForm0 s0 s1 s2 s3 sib :
    leafForm (mkLeaf [zeroKey; zeroKey; zeroKey; zeroKey]
                     [mkRid INVALID_NUMBER s0; mkRid INVALID_NUMBER s1; mkRid INVALID_NUMBER s2; mkRid INVALID_NUMBER s3] sib)
| LeafForm1 k0 p0 s0 s1 s2 s3 sib :
    leafForm (mkLeaf [k0; zeroKey; zeroKey; zeroKey]
                     [mkRid (S p0) s0; mkRid INVALID_NUMBER s1; mkRid INVALID_NUMBER s2; mkRid INVALID_NUMBER s3] sib)
| LeafForm2 k0 k1 p0 p1 s0 s1 s2 s3 sib :
    leafForm (mkLeaf [k0; k1; zeroKey; zeroKey]
                     [mkRid (S p0) s0; mkRid (S p1) s1; mkRid INVALID_NUMBER s2; mkRid INVALID_NUMBER s3] sib)
| LeafForm3 k0 k1 k2 p0 p1 p2 s0 s1 s2 s3 sib :
    leafForm (mkLeaf [k0; k1; k2; zeroKey]
                     [mkRid (S p0) s0; mkRid (S p1) s1; mkRid (S p2) s2; mkRid INVALID_NUMBER s3] sib)
| LeafForm4 k0 k1 k2 k3 p0 p1 p2 p3 s0 s1 s2 s3 sib :
    leafForm (mkLeaf [k0; k1; k2; k3]
                     [mkRid (S p0) s0; mkRid (S p1) s1; mkRid (S p2) s2; mkRid (S p3) s3] sib).

(** The four shapes of an internal node in good shape, by number of keys.
    Key slots past the last key may hold anything. *)
Inductive nodeForm : NonLeafNode -> Prop :=
| NodeForm1 lvl k0 x1 x2 x3 c0 c1 :
    nodeForm (mkNonLeaf lvl [k0; x1; x2; x3]
                [c0; S c1; INVALID_NUMBER; INVALID_NUMBER; INVALID_NUMBER])
| NodeForm2 lvl k0 k1 x2 x3 c0 c1 c2 :
    nodeForm (mkNonLeaf lvl [k0; k1; x2; x3]
                [c0; S c1; S c2; INVALID_NUMBER; INVALID_NUMBER])
| NodeForm3 lvl k0 k1 k2 x3 c0 c1 c2 c3 :
    nodeForm (mkNonLeaf lvl [k0; k1; k2; x3]
                [c0; S c1; S c2; S c3; INVALID_NUMBER])
| NodeForm4 lvl k0 k1 k2 k3 c0 c1 c2 c3 c4 :
    nodeForm (mkNonLeaf lvl [k0; k1; k2; k3] [c0; S c1; S c2; S c3; S c4]).

(** ** The tree behind a page number *)

(** Every key is below [INF]. *)
Definition INF : Z := 256 ^ Z.of_nat STRINGSIZE.

Section Children.
(** What is known of a child: page, key range, first leaf, the leaf after
    its last leaf, entries in order, pages used. *)
Variable R : PageId -> Z -> Z -> PageId -> PageId -> list entry -> list PageId -> Prop.

(** The children of an internal node, left to right: [c0], then each
    router key with the child to its right.  Router keys separate the key
    ranges, the leaves of one child are followed by the first leaf of the
    next, and no page belongs to two children. *)
Fixpoint reps (c0 : PageId) (items : list (Z * PageId)) (lo hi : Z)
  (first nxt : PageId) (es : list entry) (fp : list PageId) : Prop :=
  match items with
  | [] => R c0 lo hi first nxt es fp
  | it :: rest =>
      exists es1 es2 fp1 fp2 mid,
        R c0 lo (fst it) first mid es1 fp1 /\
        reps (snd it) rest (fst it) hi mid nxt es2 fp2 /\
        es = es1 ++ es2 /\ fp = fp1 ++ fp2 /\
        (forall x, In x fp1 -> ~ In x fp2) /\
        lo < fst it < hi
  end.
End Children.

(** [rep f h p lo hi first nxt es fp]: in file [f], page [p] is the root of a
    subtree of height [h] (0 for a leaf) that holds the entries [es], all
    with keys in [lo, hi); its leftmost leaf is [first], its rightmost leaf
    has right sibling [nxt], and [fp] lists its pages. *)
Fixpoint rep (f : list Page) (h : nat) (p : PageId) (lo hi : Z)
  (first nxt : PageId) (es : list entry) (fp : list PageId) : Prop :=
  match h with
  | O =>
      exists l,
        lookupPage f p = Some (PLeaf l) /\ leafOk l /\
        leafEntries l = es /\ rightSibPageNo l = nxt /\
        ascending lo hi es /\ first = p /\ fp = [p] /\
        (es <> [] \/ lo < 0)
  | S h' =>
      exists N fpc,
        lookupPage f p = Some (PNonLeaf N) /\ nodeOk N /\
        level N = Z.of_nat (S h') /\
        reps (rep f h') (nodeFirstChild N) (nodeItems N) lo hi first nxt es fpc /\
        fp = p :: fpc /\ ~ In p fpc
  end.

(** The index holds the entries [es] in a tree of at most [n] levels. *)
Definition treeInv (s : BTreeIndex) (es : list entry) (n : nat) : Prop :=
  exists h first fp m,
    rep (file s) (S h) (rootPageNum s) (-1) INF first INVALID_NUMBER es fp /\
    (S h <= n)%nat /\
    lookupPage (file s) (headerPageNum s) = Some (PMeta m).

(** The leaves from page [p] on, following rightSibPageNo to the end, with
    their entries. *)
Inductive chain (f : list Page) : PageId -> list (list entry) -> Prop :=
| chain_end : chain f INVALID_NUMBER []
| chain_leaf p l ess :
    lookupPage f p = Some (PLeaf l) -> leafOk l ->
    chain f (rightSibPageNo l) ess ->
    chain f p (leafEntries l :: ess).

(** ** The scan, on entries *)

Definition inRangeZ (lop : Operator) (lo : Z) (hop : Operator) (hi : Z) (k : Z) : bool :=
  (if Operator_eqb lop GT then lo <? k else lo <=? k)
  && (if Operator_eqb hop LT then k <? hi else k <=? hi).

(** The range test of the running scan, on an entry. *)
Definition scanTest (s : BTreeIndex) (e : entry) : bool :=
  inRangeZ (lowOp s) (kv (lowVal s)) (highOp s) (kv (highVal s)) (fst e).

(** The loop of findInLeaf over the entries of one leaf. *)
Fixpoint probe (P : entry -> bool) (hi : Z) (es : list entry) (i : nat) : LeafProbe :=
  match es with
  | [] => Exhausted
  | e :: t =>
      if P e then Found i
      else if hi <? fst e then PastHigh
      else probe P hi t (S i)
  end.

(** findInLeaf over a chain of leaves: the leaves skipped and the slot of
    the first entry in range, if the search finds one. *)
Fixpoint findFirst (P : entry -> bool) (hi : Z) (ess : list (list entry))
  : option (nat * nat) :=
  match ess with
  | [] => None
  | es :: rest =>
      match probe P hi es 0 with
      | Found i => Some (0%nat, i)
      | PastHigh => None
      | Exhausted =>
          match findFirst P hi rest with
          | Some (j, i) => Some (S j, i)
          | None => None
          end
      end
  end.

(** The cursor of a running scan stands before the entries [rem]: either
    the scan has run off the last leaf, or the cursor is on an occupied slot
    of the pinned leaf, and the leaves after it are not empty. *)
Inductive scanAt (s : BTreeIndex) : list entry -> Prop :=
| scanAt_done :
    scanExecuting s = true -> currentPageNum s = INVALID_NUMBER -> scanAt s []
| scanAt_entry p es0 essT :
    scanExecuting s = true -> currentPageNum s = p -> currentPageData s = Some p ->
    chain (file s) p (es0 :: essT) ->
    (nextEntry s < length es0)%nat ->
    Forall (fun es => es <> []) essT ->
    scanAt s (drop (nextEntry s) es0 ++ concat essT).

(** ** A sequence of inserts and what a scan should return *)

Fixpoint insertEntries (fuel : nat) (inserted : list (list byte * RecordId)) : M unit :=
  match inserted with
  | [] => ret tt
  | (key, rid) :: rest => insertEntry fuel key rid ;; insertEntries fuel rest
  end.

(** Ascending key order, by the comparison the index uses. *)
Fixpoint insertSorted (x : list byte * RecordId) (l : list (list byte * RecordId))
  : list (list byte * RecordId) :=
  match l with
  | [] => [x]
  | y :: t =>
      if strncmp (fst x) (fst y) STRINGSIZE <=? 0 then x :: l
      else y :: insertSorted x t
  end.

Definition sortByKey (l : list (list byte * RecordId)) : list (list byte * RecordId) :=
  fold_left (fun acc x => insertSorted x acc) l [].

(** The record ids of the inserted pairs whose key satisfies matchRange, in
    ascending key order. *)
Definition expectedScan (inserted : list (list byte * RecordId))
  (lowValParm : list byte) (lowOpParm : Operator)
  (highValParm : list byte) (highOpParm : Operator) : list RecordId :=
  map snd (List.filter
             (fun e => matchRangeWith lowOpParm lowValParm highOpParm highValParm (fst e))
             (sortByKey inserted)).

(** Keys are distinct when no two are equal as stored, that is, in their
    first STRINGSIZE characters up to a NUL. *)
Definition distinctKeys (inserted : list (list byte * RecordId)) : Prop :=
  NoDup (map (fun e => strncpy (fst e) STRINGSIZE) inserted).

(** The entry an inserted pair becomes. *)
Definition entryOf (x : list byte * RecordId) : entry := (kv (fst x), snd x).

(** ** Insertion, seen from the node above *)

(** What insertInSubtree does once the insertion below has returned [r]
    (lines 276-343). *)
Definition absorbSplit (pageNum : PageId) (r : bool * PageKeyPair) : M (bool * PageKeyPair) :=
  let '(split, splitKey) := r in
  if (split : bool) then
    currNode <- derefNonLeaf pageNum ;;
    if isRoomyNonLeaf currNode then
      store pageNum (PNonLeaf (insertInRoomyNonLeaf currNode splitKey)) ;;
      unPinPage pageNum true ;;
      ret (false, splitKey)
    else
      r <- allocateNonLeafNode ;; let '(newPageNum, newNode) := r in
      match nonLeafSplit currNode newNode splitKey with
      | None => raise UndefinedBehaviour
      | Some (currNode, newNode, midKey) =>
          store pageNum (PNonLeaf currNode) ;;
          store newPageNum (PNonLeaf newNode) ;;
          root <- gets rootPageNum ;;
          splitKey <-
            (if Nat.eqb pageNum root then
               growRoot pageNum newPageNum midKey ;; ret splitKey
             else
               ret {| pk_pageNo := newPageNum;
                      pk_key := strncpy midKey STRINGSIZE |}) ;;
          unPinPage pageNum true ;;
          unPinPage newPageNum true ;;
          ret (true, splitKey)
      end
  else
    unPinPage pageNum false ;;
    ret (false, splitKey).

(** A page that holds a node, not the header. *)
Definition nodePage (pg : Page) : Prop := forall m, pg <> PMeta m.

(** Children whose pages all lie in [fpL] or [fpR] are under [R'] what they
    are under [R]. *)
Definition transfers
  (R R' : PageId -> Z -> Z -> PageId -> PageId -> list entry -> list PageId -> Prop)
  (fpL fpR : list PageId) : Prop :=
  forall c lo hi first nxt es fp,
    R c lo hi first nxt es fp -> (forall x, In x fp -> In x fpL \/ In x fpR) ->
    R' c lo hi first nxt es fp.

(** No page of [fp] is in [fpL] or [fpR]. *)
Definition apart (fp fpL fpR : list PageId) : Prop :=
  forall x, In x fp -> ~ In x fpL /\ ~ In x fpR.

(** File [f'] keeps what file [f] holds outside the pages [fp]: node pages
    are the same, a meta page is still a meta page. *)
Definition keeps (f f' : list Page) (fp : list PageId) : Prop :=
  (length f <= length f')%nat /\
  forall x pg, lookupPage f x = Some pg -> ~ In x fp ->
    match pg with
    | PMeta _ => exists m', lookupPage f' x = Some (PMeta m')
    | _ => lookupPage f' x = Some pg
    end.

(** Pages of [fp'] that are not in [fp] were allocated after file [f]. *)
Definition grownFrom (f : list Page) (fp fp' : list PageId) : Prop :=
  forall x, In x fp' -> In x fp \/ (length f < x)%nat.

(** What an insertion below page [p] hands to the node above: the subtree
    with the new entries, or its two halves and the pair handed up. *)
Definition insOutcome (s s' : BTreeIndex) (h : nat) (p : PageId) (lo hi : Z)
  (first nxt : PageId) (es' : list entry) (fp : list PageId)
  (r : bool * PageKeyPair) : Prop :=
  keeps (file s) (file s') fp /\
  headerPageNum s' = headerPageNum s /\
  rootPageNum s' = rootPageNum s /\
  if fst r then
    exists firstq es1 es2 fp1 fp2,
      rep (file s') h p lo (kv (pk_key (snd r))) first firstq es1 fp1 /\
      rep (file s') h (pk_pageNo (snd r)) (kv (pk_key (snd r))) hi firstq nxt es2 fp2 /\
      lo < kv (pk_key (snd r)) < hi /\ es' = es1 ++ es2 /\
      (forall x, In x fp1 -> ~ In x fp2) /\
      grownFrom (file s) fp (fp1 ++ fp2)
  else
    exists fp',
      rep (file s') h p lo hi first nxt es' fp' /\ grownFrom (file s) fp fp'.

(** What an insertion at the root leaves: a tree under the root of the
    index, at most one level higher. *)
Definition rootOutcome (s s' : BTreeIndex) (h : nat) (lo hi : Z)
  (first nxt : PageId) (es' : list entry) (fp : list PageId) : Prop :=
  keeps (file s) (file s') fp /\
  headerPageNum s' = headerPageNum s /\
  exists h' fp',
    rep (file s') (S h') (rootPageNum s') lo hi first nxt es' fp' /\
    (h' <= S h)%nat /\ grownFrom (file s) fp fp'.

(** The header page of the index is there. *)
Definition headerOk (s : BTreeIndex) : Prop :=
  exists m, lookupPage (file s) (headerPageNum s) = Some (PMeta m).

(** The root the index gets when the old root [pageNum] has been split
    (lines 323-327). *)
Definition grownRootNode (pageNum newPageNum : PageId) (midKey : Key) (lvl : Z)
  : NonLeafNode :=
  nl_setLevel (lvl + 1)
    (nl_setPage 1 newPageNum (nl_setPage 0 pageNum (nl_setKey 0 midKey freshNonLeaf))).

(** The entries the tree holds after the pairs [inserted] were inserted in
    this order into a tree that held [es]. *)
Definition entriesAfter (inserted : list (list byte * RecordId)) (es : list entry)
  : list entry :=
  fold_left (fun acc x => insEntry (kv (fst x)) (snd x) acc) inserted es.

(** ** Where a scan starts *)

(** The range members of a running scan. *)
Definition rangeIs (s : BTreeIndex) (lop : Operator) (lv : list byte)
  (hop : Operator) (hv : list byte) : Prop :=
  lowOp s = lop /\ lowVal s = lv /\ highOp s = hop /\ highVal s = hv.

(** The range test on the number a key spells. *)
Definition rangeTest (lop : Operator) (lv : list byte) (hop : Operator) (hv : list byte)
  (e : entry) : bool :=
  inRangeZ lop (kv lv) hop (kv hv) (fst e).

Definition nonEmpties (ess : list (list entry)) : Prop :=
  Forall (fun es : list entry => es <> []) ess.

(** What findInLeaf leaves when it is started on the first leaf of the
    chain [ess]: the record id of the first entry in range with the cursor
    on it, or the record id it was given when the search ends without one. *)
Definition leafSearch (f : list Page) (lop : Operator) (lv : list byte)
  (hop : Operator) (hv : list byte) (res : RecordId) (r : Result RecordId)
  (ess : list (list entry)) : Prop :=
  match findFirst (rangeTest lop lv hop hv) (kv hv) ess with
  | Some (j, i) =>
      exists s' rid pre es0 rest,
        r = Ok rid s' /\ validRid rid /\
        file s' = f /\ rangeIs s' lop lv hop hv /\ scanExecuting s' = true /\
        ess = pre ++ es0 :: rest /\ length pre = j /\ (i < length es0)%nat /\
        chain f (currentPageNum s') (es0 :: rest) /\
        currentPageData s' = Some (currentPageNum s') /\ nextEntry s' = i
  | None =>
      exists s',
        r = Ok res s' /\ file s' = f /\ scanExecuting s' = true
  end.

(** What findInSubtree leaves when the leaf it descends to is the first of
    the chain [ess]. *)
Definition scanStart (f : list Page) (lop : Operator) (lv : list byte)
  (hop : Operator) (hv : list byte) (r : Result unit)
  (ess : list (list entry)) : Prop :=
  match findFirst (rangeTest lop lv hop hv) (kv hv) ess with
  | Some (j, i) =>
      exists s' pre es0 rest,
        r = Ok tt s' /\
        file s' = f /\ rangeIs s' lop lv hop hv /\ scanExecuting s' = true /\
        ess = pre ++ es0 :: rest /\ length pre = j /\ (i < length es0)%nat /\
        chain f (currentPageNum s') (es0 :: rest) /\
        currentPageData s' = Some (currentPageNum s') /\ nextEntry s' = i
  | None =>
      exists s',
        r = Raise NoSuchKeyFoundException s' /\ file s' = f /\ scanExecuting s' = false
  end.

(** Subtrees whose leaves are linked into the chain of leaves. *)
Definition chained (f : list Page)
  (R : PageId -> Z -> Z -> PageId -> PageId -> list entry -> list PageId -> Prop) : Prop :=
  forall c lo hi first nxt es fp essT,
    R c lo hi first nxt es fp -> -1 <= lo ->
    chain f nxt essT -> nonEmpties essT ->
    exists ess,
      chain f first (ess ++ essT) /\ concat ess = es /\ ess <> [] /\
      nonEmpties (tl ess) /\ (0 <= lo -> nonEmpties ess).

(** The entries at the front of [es] that pass the test. *)
Fixpoint whileTrue (P : entry -> bool) (es : list entry) : list entry :=
  match es with
  | [] => []
  | e :: t => if P e then e :: whileTrue P t else []
  end.

(** The entries of [es] from the first one that passes the test. *)
Fixpoint fromFirst (P : entry -> bool) (es : list entry) : list entry :=
  match es with
  | [] => []
  | e :: t => if P e then es else fromFirst P t
  end.

(** ** Pins and members *)

(** Every page has the pin count it had. *)
Definition pinsSame (s s' : BTreeIndex) : Prop :=
  forall q, pinCount (pins s') q = pinCount (pins s) q.

(** The pin counts of [s'] are those of [s] with [d] more on page [p]. *)
Definition pinsMoved (s s' : BTreeIndex) (p : PageId) (d : Z) : Prop :=
  forall q, pinCount (pins s') q = pinCount (pins s) q + (if Nat.eqb q p then d else 0).

(** The members an insertion does not write. *)
Definition scanMembersKept (s s' : BTreeIndex) : Prop :=
  headerPageNum s' = headerPageNum s /\ attrByteOffset s' = attrByteOffset s /\
  scanExecuting s' = scanExecuting s /\ nextEntry s' = nextEntry s /\
  currentPageNum s' = currentPageNum s /\ currentPageData s' = currentPageData s /\
  lowVal s' = lowVal s /\ highVal s' = highVal s /\
  lowOp s' = lowOp s /\ highOp s' = highOp s.

(** The members a scan does not write. *)
Definition treeMembersKept (s s' : BTreeIndex) : Prop :=
  file s' = file s /\ headerPageNum s' = headerPageNum s /\
  rootPageNum s' = rootPageNum s /\ attrByteOffset s' = attrByteOffset s.

(** The pins of a running scan: one on the leaf under the cursor, on top of
    the counts [c0]. *)
Definition scanPinned (c0 : list Z) (s : BTreeIndex) : Prop :=
  forall q, pinCount (pins s) q
            = pinCount c0 q +
              (if Nat.eqb q (currentPageNum s) && negb (Nat.eqb q INVALID_NUMBER)
               then 1 else 0).

(** The pins the scan functions keep: the counts [c0], and one more on the
    leaf under the cursor while a scan is running. *)
Definition scanPins (c0 : list Z) (s : BTreeIndex) : Prop :=
  if scanExecuting s then scanPinned c0 s
  else forall q, pinCount (pins s) q = pinCount c0 q.

(** Failures that are not exceptions of the index: a page that is not in
    the file, a page read under the wrong layout, a read outside an array. *)
Definition isFault (e : Exn) : bool :=
  match e with
  | InvalidPageException | BadCast | UndefinedBehaviour => true
  | _ => false
  end.

(** The meta page carries the relation name, the attribute offset and the
    page number of the root the index object works with. *)
Definition headerNames (s : BTreeIndex) (name : list byte) (off : Z) : Prop :=
  lookupPage (file s) (headerPageNum s)
  = Some (PMeta {| relationName := name; meta_attrByteOffset := off;
                   rootPageNo := rootPageNum s |}).

(** The pairs the constructor inserts for the records of a relation. *)
Definition keysOf (off : Z) (relation : list Record_) : list (list byte * RecordId) :=
  map (fun r : Record_ => (drop (Z.to_nat off) (snd r), fst r)) relation.

(** The object and the file when the constructor has written the meta page
    of a new index (line 79), before it reads the relation. *)
Definition headerWritten (relationNameIn : list byte) (attrByteOffsetIn : Z)
  (bufPins : list Z) (uninit : BTreeIndex) : BTreeIndex :=
  {| file := [PMeta {| relationName := strncpy relationNameIn 20;
                       meta_attrByteOffset := attrByteOffsetIn;
                       rootPageNo := INVALID_NUMBER |}];
     pins := pinDelta 1%nat 1 bufPins;
     headerPageNum := 1%nat;
     rootPageNum := INVALID_NUMBER;
     attrByteOffset := attrByteOffsetIn;
     scanExecuting := false;
     nextEntry := nextEntry uninit;
     currentPageNum := currentPageNum uninit;
     currentPageData := currentPageData uninit;
     lowVal := lowVal uninit; highVal := highVal uninit;
     lowOp := lowOp uninit; highOp := highOp uninit |}.

(** A full leaf (keys "d", "e", "f", "g") and a full internal node (router
    keys "b", "d", "f", "h" over the pages 2 to 6), to instantiate
    statements about splits. *)
Definition fullLeaf : LeafNode :=
  {| lf_keyArray := map (fun c => strncpy [c] STRINGSIZE) ["d"; "e"; "f"; "g"]%byte;
     ridArray := [mkRid 1%nat 1%nat; mkRid 2%nat 2%nat; mkRid 1%nat 3%nat; mkRid 3%nat 1%nat];
     rightSibPageNo := INVALID_NUMBER |}.

Definition fullNode : NonLeafNode :=
  {| level := 1;
     nl_keyArray := map (fun c => strncpy [c] STRINGSIZE) ["b"; "d"; "f"; "h"]%byte;
     pageNoArray := [2; 3; 4; 5; 6]%nat |}.

(** ** Printing the tree (printTree, printSubtree, printLeaf) *)

(** One call of printf, named after its format string, with the values it
    formats. *)
Inductive Printed :=
| PrBegin                                            (* ====BEGIN PRINT TREE==== *)
| PrEmptyTree                                        (* (empty tree) *)
| PrEnd                                              (* ====END PRINT TREE==== *)
| PrNonLeaf (lvl : Z) (pageId : PageId) (len : nat)  (* ***NON-LEAF*** Level, pageId, length *)
| PrRouter (pageNo : PageId) (key : list byte)       (* {%d} | (%.10s) | *)
| PrLastPage (pageNo : PageId)                       (* {%d} and a newline *)
| PrLeaf (pageId sib : PageId) (len : nat)           (* ***LEAF*** pageId, rightSibPageNo, length *)
| PrLeafEmpty                                        (* (empty) *)
| PrTab
| PrEntry (key : list byte) (rid : RecordId)         (* (%.10s, [%d, %d]) | *)
| PrNewline.

(** What [%.10s] shows of a key slot: at most STRINGSIZE characters, up to
    the first NUL. *)
Definition shown (key : list byte) : list byte := cstr (take STRINGSIZE key).

(** A member function that prints: the printf calls it made, in order, and
    its outcome.  The calls made before an exception are kept. *)
Definition Printer (A : Type) : Type := BTreeIndex -> list Printed * Result A.

Definition quiet {A} (c : M A) : Printer A := fun s => ([], c s).

Definition printf (x : Printed) : Printer unit := fun s => ([x], Ok tt s).

Definition pbind {A B} (c : Printer A) (k : A -> Printer B) : Printer B :=
  fun s =>
    match c s with
    | (out, Ok a s') => let (out', r) := k a s' in (out ++ out', r)
    | (out, Raise e s') => (out, Raise e s')
    | (out, OutOfFuel) => (out, OutOfFuel)
    end.

Declare Scope printer_scope.
Delimit Scope printer_scope with pr.
Notation "x <- c ;; k" := (pbind c (fun x => k))
  (at level 100, c at next level, right associativity) : printer_scope.
Notation "c ;; k" := (pbind c (fun _ => k))
  (at level 100, right associativity) : printer_scope.

(** [for (int i = 0; i < n; i++) body(i)] over the values of [i]. *)
Fixpoint pfor {X} (xs : list X) (body : X -> Printer unit) : Printer unit :=
  match xs with
  | [] => quiet (ret tt)
  | x :: rest => (body x ;; pfor rest body)%pr
  end.

Definition printLeaf (pageNum : PageId) : Printer unit :=
  (pg <- quiet (readPage pageNum) ;;
   node <- quiet (asLeaf pg) ;;
   let numKeys := getLeafLength node in
   printf (PrLeaf pageNum (rightSibPageNo node) numKeys) ;;
   (if Nat.eqb numKeys 0 then printf PrLeafEmpty
    else
      printf PrTab ;;
      pfor (seq 0 numKeys)
        (fun i => printf (PrEntry (shown (keyAt (lf_keyArray node) i))
                                  (ridAt (ridArray node) i))) ;;
      printf PrNewline) ;;
   quiet (unPinPage pageNum false))%pr.

Fixpoint printSubtree (fuel : nat) (pageNum : PageId) : Printer unit :=
  match fuel with
  | O => quiet outOfFuel
  | S fuel' =>
      (pg <- quiet (readPage pageNum) ;;
       node <- quiet (asNonLeaf pg) ;;
       let numKeys := getNonLeafLength node in
       printf (PrNonLeaf (level node) pageNum numKeys) ;;
       pfor (seq 0 numKeys)
         (fun i => printf (PrRouter (pageAt (pageNoArray node) i)
                                    (shown (keyAt (nl_keyArray node) i)))) ;;
       printf (PrLastPage (pageAt (pageNoArray node) numKeys)) ;;
       pfor (seq 0 (S numKeys))
         (fun i => if level node =? 1 then printLeaf (pageAt (pageNoArray node) i)
                   else printSubtree fuel' (pageAt (pageNoArray node) i)) ;;
       quiet (unPinPage pageNum false))%pr
  end.

Definition printTree (fuel : nat) : Printer unit :=
  (printf PrBegin ;;
   root <- quiet (gets rootPageNum) ;;
   (if Nat.eqb root INVALID_NUMBER then printf PrEmptyTree
    else printSubtree fuel root) ;;
   printf PrEnd)%pr.

(** The entries a printout shows, in the order of printing. *)
Fixpoint printedEntries (out : list Printed) : list entry :=
  match out with
  | [] => []
  | PrEntry key rid :: rest => (kv key, rid) :: printedEntries rest
  | _ :: rest => printedEntries rest
  end.

(** * Properties *)

(** ** The key order *)

Lemma uchar_range c : 0 <= uchar c < 256.
Proof.
  unfold uchar. pose proof (Byte.to_N_bounded c). lia.
Qed.

Lemma uchar_inj a b : uchar a = uchar b -> a = b.
Proof.
  unfold uchar. intros H.
  assert (E : Byte.to_N a = Byte.to_N b) by lia.
  pose proof (Byte.of_to_N a) as Ha. pose proof (Byte.of_to_N b) as Hb.
  rewrite E in Ha. congruence.
Qed.

Lemma keyVal_range s n : 0 <= keyVal s n < 256 ^ Z.of_nat n.
Proof.
  revert s. induction n as [|n IH]; intros s.
  - simpl. lia.
  - cbn [keyVal]. rewrite Nat2Z.inj_succ, Z.pow_succ_r by lia.
    pose proof (uchar_range (peek s)). specialize (IH (tl s)).
    destruct (uchar (peek s) =? 0) eqn:E; [lia|].
    apply Z.eqb_neq in E. nia.
Qed.

Lemma strncmp_compare a b n :
  (strncmp a b n ?= 0) = (keyVal a n ?= keyVal b n).
Proof.
  revert a b. induction n as [|n IH]; intros a b.
  - reflexivity.
  - cbn [strncmp keyVal].
    pose proof (uchar_range (peek a)) as Ha. pose proof (uchar_range (peek b)) as Hb.
    pose proof (keyVal_range (tl a) n) as Ta. pose proof (keyVal_range (tl b) n) as Tb.
    destruct (uchar (peek a) =? uchar (peek b)) eqn:E.
    + apply Z.eqb_eq in E. rewrite <- E.
      destruct (uchar (peek a) =? 0) eqn:E0; [reflexivity|].
      rewrite IH. symmetry. apply Z.add_compare_mono_l.
    + apply Z.eqb_neq in E.
      destruct (Z.eqb_spec (uchar (peek a)) 0) as [Ea|Ea],
               (Z.eqb_spec (uchar (peek b)) 0) as [Eb|Eb].
      * lia.
      * destruct (Z.compare_spec (uchar (peek a) - uchar (peek b)) 0);
          destruct (Z.compare_spec 0 (uchar (peek b) * 256 ^ Z.of_nat n + keyVal (tl b) n));
          try reflexivity; nia.
      * destruct (Z.compare_spec (uchar (peek a) - uchar (peek b)) 0);
          destruct (Z.compare_spec (uchar (peek a) * 256 ^ Z.of_nat n + keyVal (tl a) n) 0);
          try reflexivity; nia.
      * destruct (Z.compare_spec (uchar (peek a) - uchar (peek b)) 0);
          destruct (Z.compare_spec (uchar (peek a) * 256 ^ Z.of_nat n + keyVal (tl a) n)
                                   (uchar (peek b) * 256 ^ Z.of_nat n + keyVal (tl b) n));
          try reflexivity; nia.
Qed.

Lemma strncmp_S a b n :
  strncmp a b (S n) =
  if uchar (peek a) =? uchar (peek b)
  then if uchar (peek a) =? 0 then 0 else strncmp (tl a) (tl b) n
  else uchar (peek a) - uchar (peek b).
Proof. reflexivity. Qed.

Lemma strncmp_ltb a b : (strncmp a b STRINGSIZE <? 0) = (kv a <? kv b).
Proof. unfold Z.ltb, kv. now rewrite strncmp_compare. Qed.

Lemma strncmp_leb a b : (strncmp a b STRINGSIZE <=? 0) = (kv a <=? kv b).
Proof. unfold Z.leb, kv. now rewrite strncmp_compare. Qed.

Lemma strncmp_gtb a b : (strncmp a b STRINGSIZE >? 0) = (kv b <? kv a).
Proof. unfold Z.gtb, Z.ltb, kv. rewrite strncmp_compare, (Z.compare_antisym (keyVal a _)).
  now destruct (keyVal a _ ?= keyVal b _). Qed.

Lemma strncmp_geb a b : (strncmp a b STRINGSIZE >=? 0) = (kv b <=? kv a).
Proof. unfold Z.geb, Z.leb, kv. rewrite strncmp_compare, (Z.compare_antisym (keyVal a _)).
  now destruct (keyVal a _ ?= keyVal b _). Qed.

Lemma strncmp_eqb a b : (strncmp a b STRINGSIZE =? 0) = (kv a =? kv b).
Proof.
  unfold kv. pose proof (strncmp_compare a b STRINGSIZE) as H.
  destruct (Z.eqb_spec (strncmp a b STRINGSIZE) 0) as [e|ne],
           (Z.eqb_spec (keyVal a STRINGSIZE) (keyVal b STRINGSIZE)) as [e'|ne'];
    try reflexivity.
  - rewrite e, Z.compare_refl in H. symmetry in H. apply Z.compare_eq in H. contradiction.
  - rewrite e', Z.compare_refl in H. apply Z.compare_eq in H. contradiction.
Qed.

Lemma keyVal_strncpy s n : keyVal (strncpy s n) n = keyVal s n.
Proof.
  revert s. induction n as [|n IH]; intros s; [reflexivity|].
  cbn [strncpy keyVal].
  destruct (uchar (peek s) =? 0) eqn:E.
  - reflexivity.
  - unfold peek in *. cbn [hd tl]. rewrite E. now rewrite IH.
Qed.

Lemma kv_strncpy s : kv (strncpy s STRINGSIZE) = kv s.
Proof. apply keyVal_strncpy. Qed.


Lemma strncpy_idem s n : strncpy (strncpy s n) n = strncpy s n.
Proof.
  revert s. induction n as [|n IH]; intros s; [reflexivity|].
  cbn [strncpy]. destruct (uchar (peek s) =? 0) eqn:E.
  - reflexivity.
  - unfold peek in *. cbn [hd tl]. rewrite E. now rewrite IH.
Qed.

Lemma keyVal_inj a b n : keyVal a n = keyVal b n -> strncpy a n = strncpy b n.
Proof.
  revert a b. induction n as [|n IH]; intros a b H; [reflexivity|].
  cbn [strncpy keyVal] in *.
  pose proof (uchar_range (peek a)) as Ha. pose proof (uchar_range (peek b)) as Hb.
  pose proof (keyVal_range (tl a) n) as Ta. pose proof (keyVal_range (tl b) n) as Tb.
  destruct (Z.eqb_spec (uchar (peek a)) 0) as [Ea|Ea],
           (Z.eqb_spec (uchar (peek b)) 0) as [Eb|Eb].
  - reflexivity.
  - exfalso. nia.
  - exfalso. nia.
  - assert (uchar (peek a) = uchar (peek b)) as E by nia.
    rewrite (uchar_inj _ _ E). f_equal. apply IH. rewrite E in H. lia.
Qed.

Lemma kv_inj a b : kv a = kv b -> strncpy a STRINGSIZE = strncpy b STRINGSIZE.
Proof. apply keyVal_inj. Qed.

Lemma kv_zeroKey : kv zeroKey = 0.
Proof. reflexivity. Qed.

Lemma kv_nonneg k : 0 <= kv k.
Proof. unfold kv. pose proof (keyVal_range k STRINGSIZE). lia. Qed.

Lemma kv_zero_strncpy k : kv k = 0 -> strncpy k STRINGSIZE = zeroKey.
Proof. intros H. rewrite <- kv_zeroKey in H. apply kv_inj in H. rewrite H. reflexivity. Qed.

(** ** The page file *)

Lemma lookupPage_bounds f p pg :
  lookupPage f p = Some pg -> (1 <= p <= length f)%nat.
Proof.
  destruct p as [|i]; cbn; [discriminate|].
  intros H. apply lookup_lt_Some in H. lia.
Qed.

Lemma lookupPage_app_new f x : lookupPage (f ++ [x]) (S (length f)) = Some x.
Proof. cbn. now rewrite list_lookup_middle. Qed.

Lemma lookupPage_app_old f x p :
  (p <= length f)%nat -> lookupPage (f ++ [x]) p = lookupPage f p.
Proof.
  destruct p as [|i]; cbn; [reflexivity|]. intros H. apply lookup_app_l. lia.
Qed.

Lemma lookupPage_write_eq f p pg :
  (1 <= p <= length f)%nat -> lookupPage (writePage f p pg) p = Some pg.
Proof.
  destruct p as [|i]; cbn; [lia|]. intros H. apply list_lookup_insert_eq. lia.
Qed.

Lemma lookupPage_write_ne f p q pg :
  p <> q -> lookupPage (writePage f p pg) q = lookupPage f q.
Proof.
  destruct p as [|i], q as [|j]; cbn; try reflexivity; try congruence.
  intros H. apply list_lookup_insert_ne. congruence.
Qed.

Lemma length_writePage f p pg : length (writePage f p pg) = length f.
Proof. destruct p; cbn; [reflexivity|apply length_insert]. Qed.

Lemma lookupPage_write f p q pg :
  lookupPage (writePage f p pg) q =
  if Nat.eqb p q && (Nat.leb 1 p && Nat.leb p (length f)) then Some pg else lookupPage f q.
Proof.
  destruct (Nat.eqb_spec p q) as [<-|ne]; cbn [andb].
  - destruct (Nat.leb_spec 1 p), (Nat.leb_spec p (length f)); cbn [andb].
    + apply lookupPage_write_eq. lia.
    + destruct p as [|i]; cbn; [reflexivity|]. rewrite list_insert_ge by lia. reflexivity.
    + destruct p; [reflexivity|lia].
    + destruct p; [reflexivity|lia].
  - now apply lookupPage_write_ne.
Qed.

Lemma pinCount_pinDelta p d c q :
  pinCount (pinDelta p d c) q = pinCount c q + (if Nat.eqb q p then d else 0).
Proof.
  unfold pinCount. revert c q. induction p as [|p IH]; intros c q.
  - destruct c as [|x c], q as [|q]; cbn; try lia. destruct q; cbn; lia.
  - destruct c as [|x c], q as [|q]; cbn; try lia.
    + rewrite IH. destruct q; cbn; lia.
    + apply IH.
Qed.

Lemma pinCount_pinDelta_eq p d c : pinCount (pinDelta p d c) p = pinCount c p + d.
Proof. rewrite pinCount_pinDelta, Nat.eqb_refl. reflexivity. Qed.

Lemma pinCount_pinDelta_ne p d c q : q <> p -> pinCount (pinDelta p d c) q = pinCount c q.
Proof.
  intros H. rewrite pinCount_pinDelta. destruct (Nat.eqb_spec q p); [contradiction|lia].
Qed.

(** ** Occupancy of an internal node *)

(** C4: for an internal node whose occupancy is a dense prefix, the fullness
    test of insertion holds exactly when the last child slot
    pageNoArray[NON_LEAF_NUM_KEYS] is occupied, and getNonLeafLength returns
    the number of occupied key slots. *)
Theorem nonLeaf_occupancy (N : NonLeafNode) :
  densePrefix N ->
  (nonLeafFull N = true <-> childOccupied N NON_LEAF_NUM_KEYS = true) /\
  getNonLeafLength N = occupiedKeySlots N.
Proof.
  intros Hd. split.
  - unfold nonLeafFull, isRoomyNonLeaf, childOccupied, LEAF_NUM_KEYS, NON_LEAF_NUM_KEYS.
    reflexivity.
  - assert (K12 : keySlotOccupied N 1 = true -> keySlotOccupied N 0 = true)
      by (apply Hd; unfold NON_LEAF_NUM_KEYS; lia).
    assert (K23 : keySlotOccupied N 2 = true -> keySlotOccupied N 1 = true)
      by (apply Hd; unfold NON_LEAF_NUM_KEYS; lia).
    assert (K34 : keySlotOccupied N 3 = true -> keySlotOccupied N 2 = true)
      by (apply Hd; unfold NON_LEAF_NUM_KEYS; lia).
    unfold getNonLeafLength, occupiedKeySlots, NON_LEAF_NUM_KEYS.
    cbn [getNonLeafLength_from countBelow].
    unfold keySlotOccupied, childOccupied in *.
    destruct (Nat.eqb (pageAt (pageNoArray N) 1) INVALID_NUMBER),
             (Nat.eqb (pageAt (pageNoArray N) 2) INVALID_NUMBER),
             (Nat.eqb (pageAt (pageNoArray N) 3) INVALID_NUMBER),
             (Nat.eqb (pageAt (pageNoArray N) 4) INVALID_NUMBER);
      cbn [negb] in *; try reflexivity;
      try (specialize (K12 eq_refl); discriminate);
      try (specialize (K23 eq_refl); discriminate);
      try (specialize (K34 eq_refl); discriminate).
Qed.

Lemma nonLeaf_occupancy_witness :
  let N := {| level := 1; nl_keyArray := repeat zeroKey 4;
              pageNoArray := [3; 4; 5; 0; 0]%nat |} in
  (nonLeafFull N = true <-> childOccupied N NON_LEAF_NUM_KEYS = true) /\
  getNonLeafLength N = occupiedKeySlots N.
Proof.
  intros N. apply (nonLeaf_occupancy N).
  intros i j Hij Hj Ho. unfold NON_LEAF_NUM_KEYS in Hj.
  destruct j as [|[|[|[|j]]]]; try lia; destruct i as [|[|[|[|i]]]]; try lia;
    try reflexivity; cbv in Ho; discriminate.
Defined.

(** Without density the count and the length differ. *)
Lemma nonLeaf_occupancy_needs_density :
  getNonLeafLength sparseNode = 0%nat /\ occupiedKeySlots sparseNode = 1%nat.
Proof. split; reflexivity. Qed.

Lemma lookupPage_app_new' f x p :
  p = S (length f) -> lookupPage (f ++ [x]) p = Some x.
Proof. intros ->. apply lookupPage_app_new. Qed.

Ltac len_solve :=
  repeat rewrite ?length_writePage, ?length_app in *; cbn [length] in *; lia.

Ltac lsimp :=
  repeat first
    [ rewrite lookupPage_write_eq by len_solve
    | rewrite lookupPage_write_ne by len_solve
    | rewrite lookupPage_app_new' by len_solve
    | rewrite lookupPage_app_old by len_solve ].

(** Simplification leaves the operations on strings, files and pin counts
    folded. *)
Arguments strncmp : simpl never.
Arguments strncpy : simpl never.
Arguments lookupPage : simpl never.
Arguments writePage : simpl never.
Arguments pinDelta : simpl never.
Arguments pinCount : simpl never.

(** ** Scan errors *)

Lemma endScan_running s :
  scanExecuting s = true -> endScan s = Ok tt (scanEnded s).
Proof.
  destruct s as [f pn h r a se ne cp cd lv hv lo ho]. cbn. intros ->.
  unfold endScan, scanEnded, bind, gets, modify, raise, unPinPage, ret. cbn.
  destruct (Nat.eqb cp INVALID_NUMBER); reflexivity.
Qed.

Lemma scanEnded_cleared s :
  scanExecuting (scanEnded s) = false /\
  currentPageNum (scanEnded s) = INVALID_NUMBER /\
  file (scanEnded s) = file s /\
  (currentPageNum s <> INVALID_NUMBER ->
     currentPageData (scanEnded s) = None /\
     pinCount (pins (scanEnded s)) (currentPageNum s) = pinCount (pins s) (currentPageNum s) - 1 /\
     forall q, q <> currentPageNum s -> pinCount (pins (scanEnded s)) q = pinCount (pins s) q).
Proof.
  destruct s as [f pn h r a se ne cp cd lv hv lo ho]. unfold scanEnded. cbn.
  destruct (Nat.eqb_spec cp INVALID_NUMBER) as [->|ne']; cbn.
  - repeat split; try reflexivity; intros; congruence.
  - repeat split; try reflexivity.
    + apply pinCount_pinDelta_eq.
    + intros q Hq. now apply pinCount_pinDelta_ne.
Qed.

Lemma scanNext_not_running s :
  scanExecuting s = false ->
  scanNext s = Raise ScanNotInitializedException s /\
  endScan s = Raise ScanNotInitializedException s.
Proof.
  intros H. destruct s as [f pn h r a se ne cp cd lv hv lo ho]. cbn in H. subst se.
  split; reflexivity.
Qed.

Lemma scanNext_rejected s :
  scanExecuting s = true -> scanPositionRejected s ->
  scanNext s = Raise IndexScanCompletedException (scanEnded s).
Proof.
  intros Hrun Hrej.
  pose proof (endScan_running s Hrun) as Hend.
  unfold scanNext, bind, gets at 1. rewrite Hrun. cbn [negb].
  unfold gets at 1.
  destruct Hrej as [Hinv | (p & l & Hd & Hl & Hne & Hm)].
  - rewrite Hinv. cbn [Nat.eqb INVALID_NUMBER]. rewrite Hend. reflexivity.
  - destruct (Nat.eqb (currentPageNum s) INVALID_NUMBER) eqn:E.
    + rewrite Hend. reflexivity.
    + unfold currentLeaf, bind, gets. rewrite Hd.
      unfold derefLeaf, deref, bind. rewrite Hl. cbn [asLeaf ret].
      destruct (Nat.leb_spec LEAF_NUM_KEYS (nextEntry s)) as [Hle|_]; [lia|].
      unfold matchRange. rewrite Hm. cbn [negb]. rewrite Hend. reflexivity.
Qed.

(** C9: scanNext and endScan raise ScanNotInitialized when no scan is
    running, leaving the object untouched.  With a scan running whose
    current position fails matchRange, or whose current page is
    INVALID_NUMBER, scanNext first performs endScan (the pinned leaf is
    unpinned, scanExecuting is reset, currentPageNum and currentPageData are
    cleared) and then raises IndexScanCompleted. *)
Theorem scanNext_endScan_errors (s : BTreeIndex) :
  (scanExecuting s = false ->
     scanNext s = Raise ScanNotInitializedException s /\
     endScan s = Raise ScanNotInitializedException s) /\
  (scanExecuting s = true -> scanPositionRejected s ->
     endScan s = Ok tt (scanEnded s) /\
     scanNext s = Raise IndexScanCompletedException (scanEnded s) /\
     scanExecuting (scanEnded s) = false /\
     currentPageNum (scanEnded s) = INVALID_NUMBER /\
     file (scanEnded s) = file s /\
     (currentPageNum s <> INVALID_NUMBER ->
        currentPageData (scanEnded s) = None /\
        pinCount (pins (scanEnded s)) (currentPageNum s) = pinCount (pins s) (currentPageNum s) - 1 /\
        forall q, q <> currentPageNum s -> pinCount (pins (scanEnded s)) q = pinCount (pins s) q)).
Proof.
  split.
  - apply scanNext_not_running.
  - intros Hrun Hrej.
    split; [now apply endScan_running|].
    split; [now apply scanNext_rejected|apply scanEnded_cleared].
Qed.

(** C10: when the slot under the cursor of a running scan is free, and the
    low bound of the scan leaves the all-zero key out, scanNext does not
    hand out the record id stored in that slot: the zero-filled key of the
    free slot fails the low half of matchRange, so the scan is ended and
    IndexScanCompleted is raised. *)
Theorem scanNext_stops_at_free_slot (s : BTreeIndex) (p : PageId) (l : LeafNode) :
  scanExecuting s = true ->
  currentPageNum s <> INVALID_NUMBER ->
  currentPageData s = Some p ->
  lookupPage (file s) p = Some (PLeaf l) ->
  (nextEntry s < LEAF_NUM_KEYS)%nat ->
  leafFreeSlotsZero l ->
  freeSlot l (nextEntry s) ->
  lowExcludesZero (lowOp s) (lowVal s) ->
  matchRangeWith (lowOp s) (lowVal s) (highOp s) (highVal s)
                 (keyAt (lf_keyArray l) (nextEntry s)) = false /\
  scanNext s = Raise IndexScanCompletedException (scanEnded s) /\
  scanExecuting (scanEnded s) = false.
Proof.
  intros Hrun Hcur Hd Hl Hne Hz Hfree Hlow.
  assert (Hm : matchRangeWith (lowOp s) (lowVal s) (highOp s) (highVal s)
                 (keyAt (lf_keyArray l) (nextEntry s)) = false).
  { rewrite (Hz _ Hne Hfree). unfold matchRangeWith.
    rewrite strncmp_gtb, strncmp_geb, kv_zeroKey.
    pose proof (kv_nonneg (lowVal s)) as Hnn.
    destruct Hlow as [Hgt | [Hop Hge]].
    - assert ((strncmp (lowVal s) zeroKey STRINGSIZE >? 0) = true) as E by (apply Z.gtb_lt; lia).
      rewrite strncmp_gtb, kv_zeroKey in E. apply Z.ltb_lt in E.
      destruct (Operator_eqb (lowOp s) GT).
      + replace (kv (lowVal s) <? 0) with false by (symmetry; apply Z.ltb_ge; lia). reflexivity.
      + replace (kv (lowVal s) <=? 0) with false by (symmetry; apply Z.leb_gt; lia). reflexivity.
    - rewrite Hop. cbn [Operator_eqb].
      replace (kv (lowVal s) <? 0) with false by (symmetry; apply Z.ltb_ge; lia). reflexivity. }
  split; [exact Hm|].
  split; [|apply scanEnded_cleared].
  apply scanNext_rejected; [exact Hrun|]. right. exists p, l. auto.
Qed.

Lemma scanNext_endScan_errors_witness :
  (scanNext exampleIndex = Raise ScanNotInitializedException exampleIndex /\
   endScan exampleIndex = Raise ScanNotInitializedException exampleIndex) /\
  scanNext exampleScanAtF = Raise IndexScanCompletedException (scanEnded exampleScanAtF).
Proof.
  split.
  - apply (scanNext_endScan_errors exampleIndex). reflexivity.
  - apply (scanNext_endScan_errors exampleScanAtF); [reflexivity|].
    right. exists 4%nat. eexists. repeat split; try reflexivity. unfold LEAF_NUM_KEYS; cbn; lia.
Defined.

Lemma scanNext_stops_at_free_slot_witness :
  scanNext exampleScanOnFreeSlot
  = Raise IndexScanCompletedException (scanEnded exampleScanOnFreeSlot).
Proof.
  refine (proj1 (proj2 (scanNext_stops_at_free_slot exampleScanOnFreeSlot 3%nat _
                          _ _ _ _ _ _ _ _))).
  - reflexivity.
  - cbn. discriminate.
  - reflexivity.
  - reflexivity.
  - unfold LEAF_NUM_KEYS; cbn; lia.
  - intros i Hi Hf. unfold LEAF_NUM_KEYS in Hi.
    destruct i as [|[|[|[|i]]]]; try lia; try (cbv in Hf; discriminate). reflexivity.
  - reflexivity.
  - left. cbv. reflexivity.
Defined.

(** ** Rejected scan parameters *)

Lemma startScan_prologue fuel lv lop hv hop s :
  let s0 := if scanExecuting s then scanEnded s else s in
  (strncmp lv hv STRINGSIZE > 0 ->
     startScan fuel lv lop hv hop s = Raise BadScanrangeException s0) /\
  (strncmp lv hv STRINGSIZE <= 0 -> ~ goodOpcodes lop hop ->
     startScan fuel lv lop hv hop s = Raise BadOpcodesException s0).
Proof.
  intros s0.
  assert (Hpre : ((se <- gets scanExecuting ;; (if se then endScan else ret tt)) s) = Ok tt s0).
  { unfold bind, gets. subst s0. destruct (scanExecuting s) eqn:E.
    - now apply endScan_running.
    - reflexivity. }
  split.
  - intros Hgt. unfold startScan.
    unfold bind at 1. unfold bind at 1 in Hpre. unfold gets in *.
    destruct (scanExecuting s); unfold bind in *; rewrite Hpre;
      (destruct (Z.gtb_spec (strncmp lv hv STRINGSIZE) 0); [reflexivity|lia]).
  - intros Hle Hbad. unfold startScan.
    unfold bind at 1. unfold bind at 1 in Hpre. unfold gets in *.
    assert (Hops : negb (Operator_eqb lop GT) && negb (Operator_eqb lop GTE) = true \/
                   (negb (Operator_eqb lop GT) && negb (Operator_eqb lop GTE) = false /\
                    negb (Operator_eqb hop LT) && negb (Operator_eqb hop LTE) = true)).
    { unfold goodOpcodes in Hbad. destruct lop, hop; cbn; auto;
        exfalso; apply Hbad; auto. }
    destruct (scanExecuting s); unfold bind in *; rewrite Hpre;
      (destruct (Z.gtb_spec (strncmp lv hv STRINGSIZE) 0); [lia|]);
      destruct Hops as [-> | [-> ->]]; reflexivity.
Qed.

(** C6 (as the code has it): startScan raises BadScanrange when lowVal >
    highVal in the 10-byte comparison; otherwise it raises BadOpcodes when
    lowOp is not GT or GTE, or highOp is not LT or LTE.  In both cases the
    object is left as it was, except that a scan that was running has been
    ended first (as by endScan); with no scan running nothing changes. *)
Theorem startScan_rejects (fuel : nat) (lv : list byte) (lop : Operator)
  (hv : list byte) (hop : Operator) (s : BTreeIndex) :
  let s0 := if scanExecuting s then scanEnded s else s in
  (strncmp lv hv STRINGSIZE > 0 ->
     startScan fuel lv lop hv hop s = Raise BadScanrangeException s0) /\
  (strncmp lv hv STRINGSIZE <= 0 -> ~ goodOpcodes lop hop ->
     startScan fuel lv lop hv hop s = Raise BadOpcodesException s0) /\
  (scanExecuting s = false -> s0 = s).
Proof.
  intros s0. destruct (startScan_prologue fuel lv lop hv hop s) as [H1 H2].
  split; [exact H1|]. split; [exact H2|].
  intros H. subst s0. now rewrite H.
Qed.

(** C6 as stated fails: with a scan running, the rejected call has ended
    that scan before raising, so the scan state is not what it was; and when
    the range and an operator are both bad, the exception is BadScanrange,
    not BadOpcodes. *)
Lemma startScan_rejects_counterexample :
  (scanExecuting exampleScan = true /\
   strncmp ["f"%byte] ["b"%byte] STRINGSIZE > 0 /\
   startScan 8 ["f"%byte] GT ["b"%byte] LT exampleScan
     <> Raise BadScanrangeException exampleScan) /\
  (~ goodOpcodes LT LT /\
   startScan 8 ["f"%byte] LT ["b"%byte] LT exampleIndex
     <> Raise BadOpcodesException exampleIndex).
Proof.
  split.
  - split; [reflexivity|]. split; [reflexivity|].
    intros H. apply (f_equal (fun r => scanExecuting (stateOf r))) in H.
    vm_compute in H. discriminate.
  - split.
    + intros [[H|H] _]; discriminate.
    + intros H. apply (f_equal (fun r => match r with Raise e _ => Some e | _ => None end)) in H.
      vm_compute in H. discriminate.
Qed.

(** ** The first insert *)



(** ** Opening an existing index file *)

Lemma strncmp_cstr a s n :
  terminated (take n a) = true ->
  (strncmp a s n = 0 <-> cstr a = cstr s).
Proof.
  revert a s. induction n as [|n IH]; intros a s Ht.
  - rewrite take_0 in Ht. discriminate.
  - rewrite strncmp_S. destruct a as [|c a]; [discriminate|].
    change (take (S n) (c :: a)) with (c :: take n a) in Ht.
    cbn [terminated existsb] in Ht. fold (terminated (take n a)) in Ht.
    destruct s as [|d s]; cbn [peek hd tl cstr].
    + change (uchar NUL) with 0.
      destruct (Z.eqb_spec (uchar c) 0) as [Ec|Ec]; [tauto|].
      split; [lia|discriminate].
    + destruct (Z.eqb_spec (uchar c) (uchar d)) as [E|E].
      * apply uchar_inj in E. subst d.
        destruct (Z.eqb_spec (uchar c) 0) as [Ec|Ec]; [tauto|].
        cbn [orb] in Ht. rewrite (IH a s Ht).
        split; [intros ->; reflexivity|]. intros H. now injection H.
      * destruct (Z.eqb_spec (uchar c) 0) as [Ec|Ec],
                 (Z.eqb_spec (uchar d) 0) as [Ed|Ed].
        -- congruence.
        -- split; [lia|discriminate].
        -- split; [lia|discriminate].
        -- split; [lia|]. intros H. injection H as H _. subst. contradiction.
Qed.

Lemma strcmpArray_terminated a s :
  terminated a = true ->
  exists c, strcmpArray a s = Some c /\ (c = 0 <-> cstr a = cstr s).
Proof.
  intros Ht. unfold strcmpArray. rewrite Ht.
  pose proof (strncmp_cstr a s (length a)) as H. rewrite firstn_all in H.
  specialize (H Ht).
  destruct (Z.eqb_spec (strncmp a s (length a)) 0) as [E|E].
  - exists 0. split; [reflexivity|]. rewrite <- H. tauto.
  - eexists. split; [reflexivity|]. exact H.
Qed.

(** What the constructor does with an existing file whose meta page holds a
    terminated relation name: BadIndexInfo when the name or the offset
    differ, otherwise the stored root is adopted and the file is left as it
    is.  On the BadIndexInfo paths the pin getHeader took on the meta page
    is still held. *)
Lemma BTreeIndex_new_existing fuel name off f m relation bufPins uninit :
  lookupPage f 1%nat = Some (PMeta m) ->
  terminated (relationName m) = true ->
  let r := BTreeIndex_new fuel name off (Some f) relation bufPins uninit in
  file (stateOf r) = f /\
  rootPageNum (stateOf r) = rootPageNo m /\
  (cstr (relationName m) <> cstr name \/ meta_attrByteOffset m <> off ->
     outcome r = Some BadIndexInfoException /\
     pinCount (pins (stateOf r)) 1%nat = pinCount bufPins 1%nat + 1) /\
  (cstr (relationName m) = cstr name -> meta_attrByteOffset m = off ->
     exists s', r = Ok tt s' /\
       forall q, pinCount (pins s') q = pinCount bufPins q).
Proof.
  intros Hm Ht r.
  destruct (strcmpArray_terminated (relationName m) name Ht) as (c & Hc & Hc0).
  assert (Hr : r =
    if negb (c =? 0) then Raise BadIndexInfoException
         (set_rootPageNum (rootPageNo m)
            (set_pins (pinDelta 1%nat 1 bufPins)
               (set_headerPageNum 1%nat (constructorEntry off (Some f) bufPins uninit))))
    else if negb (meta_attrByteOffset m =? off) then Raise BadIndexInfoException
         (set_rootPageNum (rootPageNo m)
            (set_pins (pinDelta 1%nat 1 bufPins)
               (set_headerPageNum 1%nat (constructorEntry off (Some f) bufPins uninit))))
    else Ok tt
         (set_pins (pinDelta 1%nat (-1) (pinDelta 1%nat 1 bufPins))
            (set_rootPageNum (rootPageNo m)
               (set_pins (pinDelta 1%nat 1 bufPins)
                  (set_headerPageNum 1%nat (constructorEntry off (Some f) bufPins uninit)))))).
  { subst r. unfold BTreeIndex_new, loadIndex, getHeader, readPage, unPinPage, bind, gets,
      modify, ret, raise.
    cbn [file pins headerPageNum set_headerPageNum set_pins set_rootPageNum constructorEntry].
    rewrite Hm. cbn [asMeta ret]. rewrite Hc.
    destruct (negb (c =? 0)); [reflexivity|].
    destruct (negb (meta_attrByteOffset m =? off)); reflexivity. }
  rewrite Hr.
  destruct (Z.eqb_spec c 0) as [E0|E0]; cbn [negb];
    [destruct (Z.eqb_spec (meta_attrByteOffset m) off) as [E1|E1]; cbn [negb]|];
    (split; [reflexivity|]); (split; [reflexivity|]); split.
  - intros [H|H]; [exfalso; apply H; now apply Hc0|contradiction].
  - intros _ _. eexists. split; [reflexivity|]. intros q. cbn [pins set_pins].
    rewrite !pinCount_pinDelta. destruct (Nat.eqb q 1%nat); lia.
  - intros _. split; [reflexivity|]. cbn [stateOf pins set_pins set_rootPageNum].
    apply pinCount_pinDelta_eq.
  - intros _ H. contradiction.
  - intros _. split; [reflexivity|]. cbn [stateOf pins set_pins set_rootPageNum].
    apply pinCount_pinDelta_eq.
  - intros H. exfalso. apply E0. now apply Hc0.
Qed.


(** C5, the failing case: the file of [exampleIndex] opened under another
    relation name.  The constructor throws BadIndexInfo, and the meta page
    (page 1), pinned by getHeader, keeps its pin. *)
Lemma BTreeIndex_new_mismatch_keeps_pin :
  outcome (BTreeIndex_new 8 relB 0 (Some (file exampleIndex)) [] [] blankIndex)
    = Some BadIndexInfoException /\
  pinCount (pins (constructed 8 relB 0 (Some (file exampleIndex)) [])) 1%nat = 1 /\
  pinCount (pins blankIndex) 1%nat = 0.
Proof. repeat split; vm_compute; reflexivity. Qed.

(** ** Leaves *)

Lemma strncpy_zeroKey : strncpy zeroKey STRINGSIZE = zeroKey.
Proof. reflexivity. Qed.

Lemma eqb_S_INVALID n : Nat.eqb (S n) INVALID_NUMBER = false.
Proof. reflexivity. Qed.

(** Bring a leaf into the form of four explicit slots. *)
Ltac explode_leaf l :=
  let ks := fresh "ks" in let rs := fresh "rs" in let sib := fresh "sib" in
  destruct l as [ks rs sib];
  repeat match goal with
         | H : leafOk _ |- _ => destruct H as (?Hk & ?Hr & ?Hfree); cbn [lf_keyArray ridArray] in *
         end;
  destruct ks as [|?k [|?k [|?k [|?k [|? ?]]]]]; try discriminate;
  destruct rs as [|[?p ?s] [|[?p ?s] [|[?p ?s] [|[?p ?s] [|? ?]]]]]; try discriminate.

Ltac kv_tests :=
  repeat rewrite ?strncmp_ltb, ?strncmp_leb, ?strncmp_gtb, ?strncmp_geb, ?strncmp_eqb,
    ?kv_strncpy, ?strncpy_zeroKey, ?strncpy_idem in *.

Ltac case_tests :=
  repeat (match goal with
          | |- context [(?x <? ?y)%Z] => destruct (Z.ltb_spec x y)
          | |- context [(?x <=? ?y)%Z] => destruct (Z.leb_spec x y)
          | |- context [(?x =? ?y)%Z] => destruct (Z.eqb_spec x y)
          end; try lia).

Lemma leafOk_freshLeaf : leafOk freshLeaf /\ leafEntries freshLeaf = [].
Proof.
  split; [|reflexivity]. split; [reflexivity|]. split; [reflexivity|].
  intros i Hi. cbn in Hi. unfold LEAF_NUM_KEYS in Hi.
  destruct i as [|[|[|[|i]]]]; try lia; split; reflexivity.
Qed.

Lemma leaf_length_bound l : (getLeafLength l <= LEAF_NUM_KEYS)%nat.
Proof.
  unfold getLeafLength, LEAF_NUM_KEYS. cbn [getLeafLength_from].
  repeat match goal with |- context [Nat.eqb ?a ?b] => destruct (Nat.eqb a b) end;
    unfold LEAF_NUM_KEYS; lia.
Qed.

Lemma leafEntries_length l : length (leafEntries l) = getLeafLength l.
Proof. unfold leafEntries. now rewrite length_map, length_seq. Qed.

Lemma isRoomyLeaf_length l :
  leafOk l -> isRoomyLeaf l = (getLeafLength l <? LEAF_NUM_KEYS)%nat.
Proof.
  intros Hok. explode_leaf l.
  unfold isRoomyLeaf, getLeafLength, LEAF_NUM_KEYS in *.
  cbn [getLeafLength_from ridArray ridAt nth Nat.sub page_number] in *.
  pose proof (Hfree 0%nat) as F0. pose proof (Hfree 1%nat) as F1.
  pose proof (Hfree 2%nat) as F2. pose proof (Hfree 3%nat) as F3.
  unfold freeSlot in *. cbn [ridArray ridAt nth page_number lf_keyArray keyAt] in *.
  destruct p as [|p]; cbn [Nat.eqb INVALID_NUMBER] in *;
    [destruct (F3 ltac:(lia)) as [-> _]; reflexivity|].
  destruct p0 as [|p0]; cbn [Nat.eqb INVALID_NUMBER] in *;
    [destruct (F3 ltac:(lia)) as [-> _]; reflexivity|].
  destruct p1 as [|p1]; cbn [Nat.eqb INVALID_NUMBER] in *;
    [destruct (F3 ltac:(lia)) as [-> _]; reflexivity|].
  destruct p2 as [|p2]; cbn [Nat.eqb INVALID_NUMBER] in *; reflexivity.
Qed.

Lemma leafOk_leafForm l : leafOk l <-> leafForm l.
Proof.
  split.
  - intros Hok. explode_leaf l.
    unfold getLeafLength, LEAF_NUM_KEYS, freeSlot in Hfree.
    cbn [getLeafLength_from ridArray ridAt nth page_number lf_keyArray keyAt] in Hfree.
    pose proof (Hfree 0%nat) as F0. pose proof (Hfree 1%nat) as F1.
    pose proof (Hfree 2%nat) as F2. pose proof (Hfree 3%nat) as F3. clear Hfree.
    cbn [nth] in *.
    destruct p as [|p]; cbn [Nat.eqb INVALID_NUMBER] in *.
    { destruct (F0 ltac:(lia)) as [_ ->], (F1 ltac:(lia)) as [E1 ->],
        (F2 ltac:(lia)) as [E2 ->], (F3 ltac:(lia)) as [E3 ->].
      cbn [page_number] in *. unfold INVALID_NUMBER in *. subst. constructor. }
    destruct p0 as [|p0]; cbn [Nat.eqb INVALID_NUMBER] in *.
    { destruct (F1 ltac:(lia)) as [_ ->],
        (F2 ltac:(lia)) as [E2 ->], (F3 ltac:(lia)) as [E3 ->].
      cbn [page_number] in *. unfold INVALID_NUMBER in *. subst. constructor. }
    destruct p1 as [|p1]; cbn [Nat.eqb INVALID_NUMBER] in *.
    { destruct (F2 ltac:(lia)) as [_ ->], (F3 ltac:(lia)) as [E3 ->].
      cbn [page_number] in *. unfold INVALID_NUMBER in *. subst. constructor. }
    destruct p2 as [|p2]; cbn [Nat.eqb INVALID_NUMBER] in *.
    { destruct (F3 ltac:(lia)) as [_ ->]. constructor. }
    constructor.
  - intros H. destruct H; (split; [reflexivity|]); (split; [reflexivity|]);
      intros i; unfold getLeafLength, LEAF_NUM_KEYS, freeSlot;
      cbn [getLeafLength_from ridArray ridAt nth page_number lf_keyArray keyAt Nat.eqb
           INVALID_NUMBER];
      intros Hi; unfold LEAF_NUM_KEYS in Hi;
      destruct i as [|[|[|[|i]]]]; try lia; split; reflexivity.
Qed.

Ltac leaf_forms H :=
  apply leafOk_leafForm in H; destruct H.

Ltac leaf_compute :=
  cbv [insertInRoomyLeaf leafEntries getLeafLength isRoomyLeaf LEAF_NUM_KEYS
       lf_setRidPage lf_setRid lf_setKey lf_setRightSib
       insertInRoomyLeaf_from getLeafLength_from leafShiftDown
       lf_keyArray ridArray rightSibPageNo rk_key rk_rid
       keyAt ridAt nth page_number slot_number Nat.eqb INVALID_NUMBER
       Nat.sub Nat.add list_insert insert map seq fst snd insEntry] in *.

Lemma insertInRoomyLeaf_spec l key rid :
  leafOk l -> (getLeafLength l < LEAF_NUM_KEYS)%nat -> validRid rid ->
  let l' := insertInRoomyLeaf l (mkRIDKeyPair rid key) in
  leafOk l' /\
  leafEntries l' = insEntry (kv key) rid (leafEntries l) /\
  rightSibPageNo l' = rightSibPageNo l.
Proof.
  intros Hok Hlen Hrid. destruct rid as [[|rp] rsl]; [now elim Hrid|].
  leaf_forms Hok; leaf_compute; try lia;
    kv_tests; case_tests; leaf_compute; kv_tests;
    (split; [apply leafOk_leafForm; constructor|split; reflexivity]).
Qed.

Ltac split_compute :=
  cbv [leafSplit freshLeaf insertInRoomyLeaf leafEntries getLeafLength isRoomyLeaf
       LEAF_NUM_KEYS lf_setRidPage lf_setRid lf_setKey lf_setRightSib
       leafSplitLoop insertInRoomyLeaf_from getLeafLength_from leafShiftDown
       lf_keyArray ridArray rightSibPageNo rk_key rk_rid pk_key pk_pageNo
       keyAt ridAt nth page_number slot_number Nat.eqb INVALID_NUMBER INVALID_SLOT
       Nat.sub Nat.add Nat.div Nat.divmod repeat app length
       list_insert insert map seq fst snd insEntry ascending] in *.

Lemma leafSplit_spec l key rid newPid lo hi :
  leafOk l -> getLeafLength l = LEAF_NUM_KEYS -> validRid rid ->
  ascending lo hi (leafEntries l) ->
  exists l' r' sk,
    leafSplit l freshLeaf newPid (mkRIDKeyPair rid key) = (l', r', sk) /\
    leafOk l' /\ leafOk r' /\
    rightSibPageNo l' = newPid /\ rightSibPageNo r' = rightSibPageNo l /\
    leafEntries l' ++ leafEntries r' = insEntry (kv key) rid (leafEntries l) /\
    pk_pageNo sk = newPid /\
    leafEntries l' <> [] /\
    exists e t, leafEntries r' = e :: t /\ kv (pk_key sk) = fst e.
Proof.
  intros Hok Hlen Hrid Hasc. destruct rid as [[|rp] rsl]; [now elim Hrid|].
  leaf_forms Hok; split_compute; try discriminate.
  kv_tests. destruct Hasc as (H0 & H1 & H2 & H3 & _).
  case_tests; split_compute; kv_tests; try lia;
    (do 3 eexists; split; [reflexivity|]);
    split_compute; kv_tests;
    (split; [apply leafOk_leafForm; constructor|]);
    (split; [apply leafOk_leafForm; constructor|]);
    (split; [reflexivity|]); (split; [reflexivity|]);
    (split; [reflexivity|]); (split; [reflexivity|]);
    (split; [discriminate|]); do 2 eexists; split; reflexivity.
Qed.



Ltac monad_unfold :=
  unfold readLeafNode, readNonLeafNode, allocateLeafNode, allocateNonLeafNode, getHeader,
    derefLeaf, derefNonLeaf, derefMeta, deref, readPage, allocatePage, store, unPinPage,
    bind, gets, modify, ret, raise in *.

Ltac state_simpl :=
  cbn [file pins headerPageNum rootPageNum attrByteOffset scanExecuting nextEntry
       currentPageNum currentPageData lowVal highVal lowOp highOp
       set_file set_pins set_headerPageNum set_rootPageNum set_scanExecuting
       set_nextEntry set_currentPageNum set_currentPageData set_range
       asLeaf asNonLeaf asMeta] in *.

Ltac mrun := repeat progress (monad_unfold; state_simpl).




(** ** Internal nodes *)

Lemma nodeOk_nodeForm N : nodeOk N <-> nodeForm N.
Proof.
  split.
  - intros (Hk & Hp & Hn & Hfree). destruct N as [lvl ks ps]. cbn [nl_keyArray pageNoArray] in *.
    destruct ks as [|k0 [|k1 [|k2 [|k3 [|? ?]]]]]; try discriminate.
    destruct ps as [|c0 [|c1 [|c2 [|c3 [|c4 [|? ?]]]]]]; try discriminate.
    unfold getNonLeafLength, NON_LEAF_NUM_KEYS in *.
    cbn [getNonLeafLength_from pageNoArray pageAt nth] in *.
    pose proof (Hfree 2%nat) as F2. pose proof (Hfree 3%nat) as F3.
    pose proof (Hfree 4%nat) as F4. clear Hfree. cbn [nth] in *.
    destruct c1 as [|c1]; cbn [Nat.eqb INVALID_NUMBER Nat.sub] in *; [lia|].
    destruct c2 as [|c2]; cbn [Nat.eqb INVALID_NUMBER Nat.sub] in *.
    { rewrite F3, F4 by lia. constructor. }
    destruct c3 as [|c3]; cbn [Nat.eqb INVALID_NUMBER Nat.sub] in *.
    { rewrite F4 by lia. constructor. }
    destruct c4 as [|c4]; constructor.
  - intros H. destruct H; (split; [reflexivity|]); (split; [reflexivity|]);
      unfold getNonLeafLength, NON_LEAF_NUM_KEYS;
      cbn [getNonLeafLength_from pageNoArray pageAt nth Nat.eqb INVALID_NUMBER Nat.sub];
      unfold NON_LEAF_NUM_KEYS;
      (split; [lia|]); intros i Hi;
      destruct i as [|[|[|[|[|i]]]]]; try lia; reflexivity.
Qed.

Ltac node_forms H :=
  apply nodeOk_nodeForm in H; destruct H.

Ltac node_compute :=
  cbv [insertInRoomyNonLeaf nodeItems nodeFirstChild getNonLeafLength isRoomyNonLeaf
       insertChildIndex findChildIndex nonLeafSplit freshNonLeaf
       NON_LEAF_NUM_KEYS LEAF_NUM_KEYS nl_setKey nl_setPage nl_setLevel
       insertInRoomyNonLeaf_from getNonLeafLength_from nonLeafShiftDown nonLeafShiftUp
       nonLeafSplitLoop insertMiddleLoop findChildLoop
       nl_keyArray pageNoArray level pk_key pk_pageNo
       keyAt pageAt nth Nat.eqb INVALID_NUMBER Operator_eqb
       Nat.sub Nat.add Nat.div Nat.divmod repeat app length andb negb
       list_insert insert map seq fst snd insItem itemsAscending descend] in *.

Lemma node_length_bound N : (getNonLeafLength N <= NON_LEAF_NUM_KEYS)%nat.
Proof.
  unfold getNonLeafLength, NON_LEAF_NUM_KEYS. cbn [getNonLeafLength_from].
  repeat match goal with |- context [Nat.eqb ?a ?b] => destruct (Nat.eqb a b) end;
    unfold NON_LEAF_NUM_KEYS; lia.
Qed.

Lemma nodeItems_length N : length (nodeItems N) = getNonLeafLength N.
Proof. unfold nodeItems. now rewrite length_map, length_seq. Qed.

Lemma isRoomyNonLeaf_length N :
  nodeOk N -> isRoomyNonLeaf N = (getNonLeafLength N <? NON_LEAF_NUM_KEYS)%nat.
Proof. intros Hok. node_forms Hok; reflexivity. Qed.

Lemma insertInRoomyNonLeaf_spec N key q :
  nodeOk N -> (getNonLeafLength N < NON_LEAF_NUM_KEYS)%nat -> q <> INVALID_NUMBER ->
  let N' := insertInRoomyNonLeaf N (mkPageKeyPair q key) in
  nodeOk N' /\
  nodeItems N' = insItem (kv key) q (nodeItems N) /\
  nodeFirstChild N' = nodeFirstChild N /\
  level N' = level N.
Proof.
  intros Hok Hlen Hq. destruct q as [|q]; [now elim Hq|].
  node_forms Hok; node_compute; try lia;
    kv_tests; case_tests; node_compute; kv_tests;
    (split; [apply nodeOk_nodeForm; constructor|repeat split; reflexivity]).
Qed.

Lemma insertChildIndex_spec N key lo hi :
  nodeOk N -> itemsAscending lo hi (nodeItems N) ->
  exists j, insertChildIndex key N = Some j /\
            pageAt (pageNoArray N) j = descend (kv key) (nodeFirstChild N) (nodeItems N).
Proof.
  intros Hok Hasc.
  node_forms Hok; node_compute; kv_tests; case_tests; node_compute; kv_tests; case_tests;
    try lia; eexists; split; reflexivity.
Qed.

Lemma findChildIndex_spec N lop lv lo hi :
  nodeOk N -> itemsAscending lo hi (nodeItems N) ->
  pageAt (pageNoArray N) (findChildIndex lop lv N)
  = descend (kv lv) (nodeFirstChild N) (nodeItems N).
Proof.
  intros Hok Hasc.
  node_forms Hok; destruct lop; node_compute; kv_tests; case_tests; node_compute;
    kv_tests; case_tests; try lia; reflexivity.
Qed.

Lemma nonLeafSplit_spec N key q lo hi :
  nodeOk N -> getNonLeafLength N = NON_LEAF_NUM_KEYS -> q <> INVALID_NUMBER ->
  itemsAscending lo hi (nodeItems N) ->
  exists N1 N2 mid,
    nonLeafSplit N freshNonLeaf (mkPageKeyPair q key) = Some (N1, N2, mid) /\
    nodeOk N1 /\ nodeOk N2 /\
    level N1 = level N /\ level N2 = level N /\
    nodeFirstChild N1 = nodeFirstChild N /\
    insItem (kv key) q (nodeItems N)
      = nodeItems N1 ++ (kv mid, nodeFirstChild N2) :: nodeItems N2.
Proof.
  intros Hok Hlen Hq Hasc. destruct q as [|q]; [now elim Hq|].
  node_forms Hok; node_compute; try discriminate.
  kv_tests. destruct Hasc as (H0 & H1 & H2 & H3 & H4).
  case_tests; node_compute; kv_tests; case_tests; node_compute; kv_tests; try lia;
    (do 3 eexists; split; [reflexivity|]);
    node_compute; kv_tests;
    (split; [apply nodeOk_nodeForm; constructor|]);
    (split; [apply nodeOk_nodeForm; constructor|]);
    repeat split; reflexivity.
Qed.

(** C2: the split of a full internal node that receives [splitKey] from
    below.  After the upper half has gone to the new node R, exactly one of
    two branches runs.  If splitKey.key is smaller than R's first key,
    splitKey is inserted into the old node; the middle key is the last key
    of the old node, which is then removed, and the old node's trailing
    child pointer moves to R.pageNoArray[0].  Otherwise splitKey is inserted
    into R; the middle key is R's first key; R is then shifted one slot to
    the left, which removes that key and keeps every child pointer of R but
    the first, and that first pointer is the one the old node keeps as its
    last child. *)
Theorem nonLeafSplit_two_branches (lvl : Z) (k0 k1 k2 k3 : Key)
  (p0 p1 p2 p3 p4 : PageId) (splitKey : PageKeyPair) :
  p1 <> INVALID_NUMBER -> p2 <> INVALID_NUMBER -> p3 <> INVALID_NUMBER ->
  p4 <> INVALID_NUMBER -> pk_pageNo splitKey <> INVALID_NUMBER ->
  let cur := mkNonLeaf lvl [k0; k1; k2; k3] [p0; p1; p2; p3; p4] in
  let curHalf :=
    mkNonLeaf lvl [k0; k1; zeroKey; zeroKey]
              [p0; p1; p2; INVALID_NUMBER; INVALID_NUMBER] in
  let R :=
    mkNonLeaf lvl [strncpy k2 STRINGSIZE; strncpy k3 STRINGSIZE; zeroKey; zeroKey]
              [p2; p3; p4; INVALID_NUMBER; INVALID_NUMBER] in
  if strncmp (pk_key splitKey) (keyAt (nl_keyArray R) 0) STRINGSIZE <? 0
  then
    let cur1 := insertInRoomyNonLeaf curHalf splitKey in
    getNonLeafLength cur1 = 3%nat /\
    nonLeafSplit cur freshNonLeaf splitKey
    = Some (nl_setPage 3 INVALID_NUMBER (nl_setKey 2 zeroKey cur1),
            nl_setPage 0 (pageAt (pageNoArray cur1) 3) R,
            strncpy (keyAt (nl_keyArray cur1) 2) STRINGSIZE)
  else
    let R1 := insertInRoomyNonLeaf R splitKey in
    getNonLeafLength R1 = 3%nat /\
    pageAt (pageNoArray R1) 0 = pageAt (pageNoArray curHalf) 2 /\
    nonLeafSplit cur freshNonLeaf splitKey
    = Some (curHalf,
            mkNonLeaf lvl
              [strncpy (keyAt (nl_keyArray R1) 1) STRINGSIZE;
               strncpy (keyAt (nl_keyArray R1) 2) STRINGSIZE; zeroKey; zeroKey]
              [pageAt (pageNoArray R1) 1; pageAt (pageNoArray R1) 2;
               pageAt (pageNoArray R1) 3; INVALID_NUMBER; INVALID_NUMBER],
            strncpy (keyAt (nl_keyArray R1) 0) STRINGSIZE).
Proof.
  intros H1 H2 H3 H4 Hq cur curHalf R. subst cur curHalf R.
  destruct splitKey as [q sk]. cbn [pk_pageNo pk_key] in *.
  destruct p1 as [|p1]; [now elim H1|]. destruct p2 as [|p2]; [now elim H2|].
  destruct p3 as [|p3]; [now elim H3|]. destruct p4 as [|p4]; [now elim H4|].
  destruct q as [|q]; [now elim Hq|].
  cbn [nl_keyArray keyAt nth].
  destruct (strncmp sk (strncpy k2 STRINGSIZE) STRINGSIZE <? 0) eqn:Etest;
    cbv zeta; node_compute; rewrite ?Etest; node_compute.
  - destruct (strncmp k0 sk STRINGSIZE >=? 0); node_compute;
      [split; reflexivity|].
    destruct (strncmp k1 sk STRINGSIZE >=? 0); node_compute; split; reflexivity.
  - destruct (strncmp (strncpy k2 STRINGSIZE) sk STRINGSIZE >=? 0); node_compute;
      [repeat split; rewrite ?strncpy_zeroKey; reflexivity|].
    destruct (strncmp (strncpy k3 STRINGSIZE) sk STRINGSIZE >=? 0); node_compute;
      repeat split; rewrite ?strncpy_zeroKey; reflexivity.
Qed.

Lemma nonLeafSplit_two_branches_witness :
  let kb := strncpy ["b"%byte] STRINGSIZE in
  let kd := strncpy ["d"%byte] STRINGSIZE in
  let ke := strncpy ["e"%byte] STRINGSIZE in
  let kf := strncpy ["f"%byte] STRINGSIZE in
  let kh := strncpy ["h"%byte] STRINGSIZE in
  nonLeafSplit (mkNonLeaf 1 [kb; kd; kf; kh] [3; 4; 5; 6; 7]%nat) freshNonLeaf
               (mkPageKeyPair 8%nat ke)
  = Some (mkNonLeaf 1 [kb; kd; zeroKey; zeroKey] [3; 4; 5; 0; 0]%nat,
          mkNonLeaf 1 [kf; kh; zeroKey; zeroKey] [8; 6; 7; 0; 0]%nat,
          ke).
Proof.
  intros kb kd ke kf kh.
  exact (proj2 (nonLeafSplit_two_branches 1 kb kd kf kh 3%nat 4%nat 5%nat 6%nat 7%nat
                  (mkPageKeyPair 8%nat ke)
                  ltac:(discriminate) ltac:(discriminate) ltac:(discriminate)
                  ltac:(discriminate) ltac:(discriminate))).
Defined.

(** ** Ordered entries *)

Lemma ascending_weaken lo lo' hi hi' es :
  lo' <= lo -> hi <= hi' -> ascending lo hi es -> ascending lo' hi' es.
Proof.
  revert lo lo'. induction es as [|e t IH]; intros lo lo' Hlo Hhi H; [exact I|].
  cbn [ascending] in *. destruct H as [Hb Ht]. split; [lia|].
  apply (IH (fst e + 1) (fst e + 1)); [lia|exact Hhi|exact Ht].
Qed.

Lemma ascending_bounds lo hi es e :
  ascending lo hi es -> In e es -> lo <= fst e < hi.
Proof.
  revert lo. induction es as [|x t IH]; intros lo H Hin; [destruct Hin|].
  cbn [ascending] in H. destruct H as [Hb Ht]. destruct Hin as [->|Hin]; [exact Hb|].
  specialize (IH _ Ht Hin). lia.
Qed.

Lemma ascending_app lo mid hi a b :
  lo <= mid -> ascending lo mid a -> ascending mid hi b -> mid <= hi ->
  ascending lo hi (a ++ b).
Proof.
  revert lo. induction a as [|x t IH]; intros lo Hlo Ha Hb Hhi; cbn [app].
  - apply (ascending_weaken mid lo hi hi); [lia|lia|exact Hb].
  - cbn [ascending] in *. destruct Ha as [Hx Ht]. split; [lia|].
    apply IH; [lia|exact Ht|exact Hb|exact Hhi].
Qed.

Lemma ascending_app_inv lo hi a b :
  ascending lo hi (a ++ b) ->
  ascending lo hi a /\ ascending lo hi b /\
  forall x y, In x a -> In y b -> fst x < fst y.
Proof.
  revert lo. induction a as [|e t IH]; intros lo H; cbn [app] in *.
  - repeat split; [exact H|]. intros x y [].
  - cbn [ascending] in *. destruct H as [Hb Ht].
    destruct (IH _ Ht) as (Ha' & Hb' & Hlt).
    split; [split; [exact Hb|exact Ha']|].
    split; [apply (ascending_weaken (fst e + 1) lo hi hi); [lia|lia|exact Hb']|].
    intros x y [->|Hx] Hy.
    + pose proof (ascending_bounds _ _ _ _ Hb' Hy). lia.
    + now apply Hlt.
Qed.

Lemma ascending_insEntry lo hi es k r :
  ascending lo hi es -> lo <= k < hi -> ~ In k (map fst es) ->
  ascending lo hi (insEntry k r es).
Proof.
  revert lo. induction es as [|e t IH]; intros lo H Hk Hnin; cbn [insEntry ascending].
  - split; [exact Hk|exact I].
  - cbn [ascending map In] in *. destruct H as [Hb Ht].
    destruct (Z.leb_spec k (fst e)).
    + cbn [ascending fst]. split; [lia|]. split; [|exact Ht].
      assert (k <> fst e) by (intros ->; apply Hnin; now left). lia.
    + cbn [ascending]. split; [exact Hb|]. apply IH; [exact Ht|lia|].
      intros Hin. apply Hnin. now right.
Qed.

Lemma insEntry_app_l k r a b :
  (forall e, In e a -> fst e < k) ->
  insEntry k r (a ++ b) = a ++ insEntry k r b.
Proof.
  induction a as [|e t IH]; intros H; cbn [app insEntry]; [reflexivity|].
  destruct (Z.leb_spec k (fst e)).
  - specialize (H e (or_introl eq_refl)). lia.
  - rewrite IH; [reflexivity|]. intros x Hx. apply H. now right.
Qed.

Lemma insEntry_app_r k r a b :
  (forall e, In e b -> k <= fst e) ->
  insEntry k r (a ++ b) = insEntry k r a ++ b.
Proof.
  intros H. induction a as [|e t IH]; cbn [app insEntry].
  - destruct b as [|y b]; [reflexivity|]. cbn [insEntry].
    destruct (Z.leb_spec k (fst y)); [reflexivity|].
    specialize (H y (or_introl eq_refl)). lia.
  - destruct (Z.leb_spec k (fst e)); [reflexivity|]. now rewrite IH.
Qed.

Lemma insEntry_nonempty k r es : insEntry k r es <> [].
Proof. destruct es as [|e t]; cbn [insEntry]; [discriminate|]. destruct (k <=? fst e); discriminate. Qed.

Lemma insEntry_length k r es : length (insEntry k r es) = S (length es).
Proof.
  induction es as [|e t IH]; cbn [insEntry]; [reflexivity|].
  destruct (k <=? fst e); cbn [length]; [reflexivity|]. now rewrite IH.
Qed.

Lemma insEntry_keys k r es x :
  In x (map fst (insEntry k r es)) <-> x = k \/ In x (map fst es).
Proof.
  induction es as [|e t IH]; cbn [insEntry map In fst].
  - intuition congruence.
  - destruct (k <=? fst e); cbn [map In fst]; [intuition congruence|].
    rewrite IH. intuition congruence.
Qed.

(** ** Router keys *)

Lemma insItem_app_l k q a b :
  (forall it, In it a -> fst it < k) ->
  insItem k q (a ++ b) = a ++ insItem k q b.
Proof.
  induction a as [|e t IH]; intros H; cbn [app insItem]; [reflexivity|].
  destruct (Z.leb_spec k (fst e)).
  - specialize (H e (or_introl eq_refl)). lia.
  - rewrite IH; [reflexivity|]. intros x Hx. apply H. now right.
Qed.

(** ** Children of a node *)

Section ChildrenFacts.
Variables R R' : PageId -> Z -> Z -> PageId -> PageId -> list entry -> list PageId -> Prop.

Lemma reps_transfer (Q : PageId -> Prop) c0 items lo hi first nxt es fp :
  (forall c lo hi first nxt es fp,
      R c lo hi first nxt es fp -> (forall x, In x fp -> Q x) ->
      R' c lo hi first nxt es fp) ->
  reps R c0 items lo hi first nxt es fp ->
  (forall x, In x fp -> Q x) ->
  reps R' c0 items lo hi first nxt es fp.
Proof.
  intros Htr. revert c0 lo first es fp.
  induction items as [|it rest IH]; intros c0 lo first es fp H HQ; cbn [reps] in *.
  - now apply Htr.
  - destruct H as (es1 & es2 & fp1 & fp2 & mid & H1 & H2 & -> & -> & Hd & Hk).
    exists es1, es2, fp1, fp2, mid. repeat split; try assumption; try lia.
    + apply Htr; [exact H1|]. intros x Hx. apply HQ, in_or_app. now left.
    + apply IH; [exact H2|]. intros x Hx. apply HQ, in_or_app. now right.
Qed.

Hypothesis Rbounds :
  forall c lo hi first nxt es fp e,
    R c lo hi first nxt es fp -> In e es -> lo <= fst e < hi.

Lemma reps_bounds c0 items lo hi first nxt es fp e :
  reps R c0 items lo hi first nxt es fp -> In e es -> lo <= fst e < hi.
Proof.
  revert c0 lo first es fp.
  induction items as [|it rest IH]; intros c0 lo first es fp H Hin; cbn [reps] in *.
  - eapply Rbounds; eassumption.
  - destruct H as (es1 & es2 & fp1 & fp2 & mid & H1 & H2 & -> & -> & Hd & Hk).
    apply in_app_or in Hin. destruct Hin as [Hin|Hin].
    + pose proof (Rbounds _ _ _ _ _ _ _ _ H1 Hin). lia.
    + pose proof (IH _ _ _ _ _ H2 Hin). lia.
Qed.

Lemma reps_itemsAscending c0 items lo hi first nxt es fp :
  reps R c0 items lo hi first nxt es fp -> lo < hi ->
  itemsAscending lo hi items.
Proof.
  revert c0 lo first es fp.
  induction items as [|it rest IH]; intros c0 lo first es fp H Hlt; cbn [reps itemsAscending] in *.
  - exact Hlt.
  - destruct H as (es1 & es2 & fp1 & fp2 & mid & H1 & H2 & -> & -> & Hd & Hk).
    split; [lia|]. eapply IH; [exact H2|lia].
Qed.

(** Cutting the row of children at a router key. *)
Lemma reps_app c0 pre k c suf lo hi first nxt es fp :
  reps R c0 (pre ++ (k, c) :: suf) lo hi first nxt es fp <->
  exists es1 es2 fp1 fp2 mid,
    reps R c0 pre lo k first mid es1 fp1 /\
    reps R c suf k hi mid nxt es2 fp2 /\
    es = es1 ++ es2 /\ fp = fp1 ++ fp2 /\
    (forall x, In x fp1 -> ~ In x fp2) /\
    lo < k < hi.
Proof.
  revert c0 lo first es fp.
  induction pre as [|it pre IH]; intros c0 lo first es fp; cbn [app reps fst snd].
  - reflexivity.
  - split.
    + intros (es1 & es2 & fp1 & fp2 & mid & H1 & H2 & -> & -> & Hd & Hk).
      apply IH in H2.
      destruct H2 as (es3 & es4 & fp3 & fp4 & mid' & H3 & H4 & -> & -> & Hd' & Hk').
      exists (es1 ++ es3), es4, (fp1 ++ fp3), fp4, mid'.
      split.
      { exists es1, es3, fp1, fp3, mid. repeat split; try assumption; try lia.
        intros x Hx Hx3. apply (Hd x Hx), in_or_app. now left. }
      split; [exact H4|].
      split; [now rewrite app_assoc|]. split; [now rewrite app_assoc|].
      split; [|lia].
      intros x Hx Hx4. apply in_app_or in Hx. destruct Hx as [Hx|Hx].
      * apply (Hd x Hx), in_or_app. now right.
      * now apply (Hd' x Hx).
    + intros (es1 & es2 & fp1 & fp2 & mid & H1 & H2 & -> & -> & Hd & Hk).
      destruct H1 as (es3 & es4 & fp3 & fp4 & mid' & H3 & H4 & -> & -> & Hd' & Hk').
      exists es3, (es4 ++ es2), fp3, (fp4 ++ fp2), mid'.
      split; [exact H3|]. split.
      { apply IH. exists es4, es2, fp4, fp2, mid. repeat split; try assumption; try lia.
        intros x Hx. apply Hd, in_or_app. now right. }
      split; [now rewrite app_assoc|]. split; [now rewrite app_assoc|].
      split; [|lia].
      intros x Hx Hx'. apply in_app_or in Hx'. destruct Hx' as [Hx'|Hx'].
      * now apply (Hd' x Hx).
      * apply (Hd x); [apply in_or_app; now left|exact Hx'].
Qed.
End ChildrenFacts.

Section Descend.
Variable R : PageId -> Z -> Z -> PageId -> PageId -> list entry -> list PageId -> Prop.

Hypothesis Rbounds :
  forall c lo hi first nxt es fp e,
    R c lo hi first nxt es fp -> In e es -> lo <= fst e < hi.

(** The child a key descends into, what lies left and right of it, and
    how the row of children is put together again once that child has
    been replaced, by itself or by the two halves of a split. *)
Lemma reps_descend c0 items lo hi first nxt es fp k :
  reps R c0 items lo hi first nxt es fp -> lo <= k < hi ->
  exists lo' hi' first' nxt' esL esC esR fpL fpC fpR,
    R (descend k c0 items) lo' hi' first' nxt' esC fpC /\
    lo <= lo' /\ lo' <= k < hi' /\ hi' <= hi /\
    es = esL ++ esC ++ esR /\ fp = fpL ++ fpC ++ fpR /\
    (forall e, In e esL -> fst e < k) /\
    (forall e, In e esR -> k < fst e) /\
    apart fpC fpL fpR /\
    (forall R' esC' fpC',
        transfers R R' fpL fpR ->
        R' (descend k c0 items) lo' hi' first' nxt' esC' fpC' ->
        apart fpC' fpL fpR ->
        reps R' c0 items lo hi first nxt (esL ++ esC' ++ esR) (fpL ++ fpC' ++ fpR)) /\
    (forall R' mk q firstq es1 es2 fp1 fp2,
        transfers R R' fpL fpR ->
        R' (descend k c0 items) lo' mk first' firstq es1 fp1 ->
        R' q mk hi' firstq nxt' es2 fp2 ->
        lo' < mk < hi' ->
        (forall x, In x fp1 -> ~ In x fp2) ->
        apart (fp1 ++ fp2) fpL fpR ->
        reps R' c0 (insItem mk q items) lo hi first nxt
             (esL ++ (es1 ++ es2) ++ esR) (fpL ++ (fp1 ++ fp2) ++ fpR)).
Proof.
  revert c0 lo first es fp.
  induction items as [|it rest IH]; intros c0 lo first es fp H Hk; cbn [reps descend] in *.
  - exists lo, hi, first, nxt, [], es, [], [], fp, [].
    split; [exact H|]. split; [lia|]. split; [lia|]. split; [lia|].
    split; [now rewrite app_nil_r|]. split; [now rewrite app_nil_r|].
    split; [intros e []|]. split; [intros e []|].
    split; [intros x _; split; intros []|].
    split.
    + intros R' esC' fpC' _ HC _. cbn [app]. now rewrite !app_nil_r.
    + intros R' mk q firstq es1 es2 fp1 fp2 _ H1 H2 Hmk Hd _.
      cbn [insItem reps app fst snd]. rewrite !app_nil_r.
      exists es1, es2, fp1, fp2, firstq. repeat split; try assumption; lia.
  - destruct H as (es1 & es2 & fp1 & fp2 & mid & H1 & H2 & -> & -> & Hd & Hit).
    destruct (Z.ltb_spec k (fst it)) as [Hlt|Hge].
    + exists lo, (fst it), first, mid, [], es1, es2, [], fp1, fp2.
      split; [exact H1|]. split; [lia|]. split; [lia|]. split; [lia|].
      split; [reflexivity|]. split; [reflexivity|].
      split; [intros e []|].
      split.
      { intros e He.
        pose proof (reps_bounds R Rbounds _ _ _ _ _ _ _ _ e H2 He). lia. }
      split; [intros x Hx; split; [intros []|now apply Hd]|].
      assert (Hrest : forall R', transfers R R' [] fp2 ->
                      reps R' (snd it) rest (fst it) hi mid nxt es2 fp2).
      { intros R' Htr. apply (reps_transfer R R' (fun x => In x [] \/ In x fp2)) with (2 := H2).
        - intros c l h f n e fpx Hc Hin. eapply Htr; eassumption.
        - intros x Hx. now right. }
      split.
      * intros R' esC' fpC' Htr HC Hap. cbn [app].
        exists esC', es2, fpC', fp2, mid. repeat split; try assumption; try lia.
        -- now apply Hrest.
        -- intros x Hx. now apply Hap.
      * intros R' mk q firstq e1 e2 f1 f2 Htr HC1 HC2 Hmk Hd12 Hap.
        cbn [insItem app]. destruct (Z.leb_spec mk (fst it)); [|lia].
        cbn [reps fst snd].
        exists e1, (e2 ++ es2), f1, (f2 ++ fp2), firstq.
        split; [exact HC1|]. split.
        { exists e2, es2, f2, fp2, mid. repeat split; try assumption; try lia.
          - now apply Hrest.
          - intros x Hx. apply Hap, in_or_app. now right. }
        split; [now rewrite <- !app_assoc|]. split; [now rewrite <- !app_assoc|].
        split; [|lia].
        intros x Hx Hx'. apply in_app_or in Hx'. destruct Hx' as [Hx'|Hx'].
        -- now apply (Hd12 x).
        -- assert (Hxx : In x (f1 ++ f2)) by (apply in_or_app; now left).
           now apply (Hap x Hxx).
    + destruct (IH (snd it) (fst it) mid es2 fp2 H2 ltac:(lia))
        as (lo' & hi' & first' & nxt' & esL & esC & esR & fpL & fpC & fpR &
            HC & Hlo & Hkk & Hhi & -> & -> & HL & HR & Hap & Hre1 & Hre2).
      exists lo', hi', first', nxt', (es1 ++ esL), esC, esR, (fp1 ++ fpL), fpC, fpR.
      split; [exact HC|]. split; [lia|]. split; [lia|]. split; [lia|].
      split; [now rewrite <- app_assoc|]. split; [now rewrite <- app_assoc|].
      split.
      { intros e He. apply in_app_or in He. destruct He as [He|He].
        - pose proof (Rbounds _ _ _ _ _ _ _ _ H1 He). lia.
        - now apply HL. }
      split; [exact HR|].
      split.
      { intros x Hx. split; [|now apply Hap].
        intros Hx'. apply in_app_or in Hx'. destruct Hx' as [Hx'|Hx'].
        - apply (Hd x Hx'). apply in_or_app. right. apply in_or_app. now left.
        - destruct (Hap x Hx) as [Ha _]. now apply Ha. }
      assert (Hsub : forall R', transfers R R' (fp1 ++ fpL) fpR -> transfers R R' fpL fpR).
      { intros R' Htr c l h f n e fpx Hc Hin. apply Htr; [exact Hc|].
        intros x Hx. destruct (Hin x Hx) as [Hl|Hr]; [left|now right].
        apply in_or_app. now right. }
      assert (Hfirst : forall R', transfers R R' (fp1 ++ fpL) fpR -> R' c0 lo (fst it) first mid es1 fp1).
      { intros R' Htr. apply Htr; [exact H1|]. intros x Hx. left. apply in_or_app. now left. }
      split.
      * intros R' esC' fpC' Htr HC' Hap'.
        exists es1, (esL ++ esC' ++ esR), fp1, (fpL ++ fpC' ++ fpR), mid.
        split; [now apply Hfirst|]. split.
        { apply Hre1; [now apply Hsub|exact HC'|].
          intros x Hx. destruct (Hap' x Hx) as [Ha Hb]. split; [|exact Hb].
          intros Hx'. apply Ha. apply in_or_app. now right. }
        split; [now rewrite <- app_assoc|]. split; [now rewrite <- app_assoc|].
        split; [|lia].
        intros x Hx Hx'. apply in_app_or in Hx'. destruct Hx' as [Hx'|Hx'].
        -- apply (Hd x Hx). apply in_or_app. now left.
        -- apply in_app_or in Hx'. destruct Hx' as [Hx'|Hx'].
           ++ destruct (Hap' x Hx') as [Ha _]. apply Ha. apply in_or_app. now left.
           ++ apply (Hd x Hx). apply in_or_app. right. apply in_or_app. now right.
      * intros R' mk q firstq e1 e2 f1 f2 Htr HC1 HC2 Hmk Hd12 Hap'.
        cbn [insItem]. destruct (Z.leb_spec mk (fst it)); [lia|].
        cbn [reps].
        exists es1, (esL ++ (e1 ++ e2) ++ esR), fp1, (fpL ++ (f1 ++ f2) ++ fpR), mid.
        split; [now apply Hfirst|]. split.
        { apply Hre2 with (firstq := firstq); try assumption; [now apply Hsub|].
          intros x Hx. destruct (Hap' x Hx) as [Ha Hb]. split; [|exact Hb].
          intros Hx'. apply Ha. apply in_or_app. now right. }
        split; [now rewrite <- app_assoc|]. split; [now rewrite <- app_assoc|].
        split; [|lia].
        intros x Hx Hx'. apply in_app_or in Hx'. destruct Hx' as [Hx'|Hx'].
        -- apply (Hd x Hx). apply in_or_app. now left.
        -- apply in_app_or in Hx'. destruct Hx' as [Hx'|Hx'].
           ++ destruct (Hap' x Hx') as [Ha _]. apply Ha. apply in_or_app. now left.
           ++ apply (Hd x Hx). apply in_or_app. right. apply in_or_app. now right.
Qed.
End Descend.

(** ** Subtrees *)

Lemma ascending_upper lo hi hi' es :
  ascending lo hi es -> (forall x, In x es -> fst x < hi') -> ascending lo hi' es.
Proof.
  revert lo. induction es as [|e t IH]; intros lo H Hx; cbn [ascending] in *; [exact I|].
  destruct H as [He Ht]. split.
  - pose proof (Hx e (or_introl eq_refl)). lia.
  - apply IH; [exact Ht|]. intros x Hin. apply Hx. now right.
Qed.

Section ChildrenShape.
Variable R : PageId -> Z -> Z -> PageId -> PageId -> list entry -> list PageId -> Prop.

Lemma reps_pages (Q : PageId -> Prop) c0 items lo hi first nxt es fp :
  (forall c lo hi first nxt es fp x,
      R c lo hi first nxt es fp -> In x fp -> Q x) ->
  reps R c0 items lo hi first nxt es fp ->
  forall x, In x fp -> Q x.
Proof.
  intros HR. revert c0 lo first es fp.
  induction items as [|it rest IH]; intros c0 lo first es fp H x Hx; cbn [reps] in *.
  - eapply HR; eassumption.
  - destruct H as (es1 & es2 & fp1 & fp2 & mid & H1 & H2 & -> & -> & Hd & Hk).
    apply in_app_or in Hx. destruct Hx as [Hx|Hx].
    + eapply HR; eassumption.
    + eapply IH; eassumption.
Qed.

Lemma reps_ascending c0 items lo hi first nxt es fp :
  (forall c lo hi first nxt es fp,
      R c lo hi first nxt es fp -> ascending lo hi es) ->
  reps R c0 items lo hi first nxt es fp ->
  ascending lo hi es.
Proof.
  intros HR. revert c0 lo first es fp.
  induction items as [|it rest IH]; intros c0 lo first es fp H; cbn [reps] in *.
  - eapply HR; eassumption.
  - destruct H as (es1 & es2 & fp1 & fp2 & mid & H1 & H2 & -> & -> & Hd & Hk).
    apply ascending_app with (mid := fst it); try lia.
    + eapply HR; eassumption.
    + eapply IH; eassumption.
Qed.

Lemma reps_routers c0 it rest lo hi first nxt es fp :
  reps R c0 (it :: rest) lo hi first nxt es fp ->
  itemsAscending lo hi (it :: rest).
Proof.
  intros H. apply (reps_itemsAscending R) with (1 := H).
  cbn [reps] in H.
  destruct H as (es1 & es2 & fp1 & fp2 & mid & H1 & H2 & -> & -> & Hd & Hk). lia.
Qed.

Lemma reps_first_child c0 items lo hi first nxt es fp (Q : PageId -> Prop) :
  (forall c lo hi first nxt es fp, R c lo hi first nxt es fp -> Q first) ->
  reps R c0 items lo hi first nxt es fp -> Q first.
Proof.
  intros HR H. destruct items as [|it rest]; cbn [reps] in H.
  - eapply HR; eassumption.
  - destruct H as (es1 & es2 & fp1 & fp2 & mid & H1 & H2 & _). eapply HR; eassumption.
Qed.
End ChildrenShape.

Lemma rep_page f h : forall p lo hi first nxt es fp x,
  rep f h p lo hi first nxt es fp -> In x fp ->
  exists pg, lookupPage f x = Some pg /\ nodePage pg.
Proof.
  induction h as [|h IH]; intros p lo hi first nxt es fp x H Hx; cbn [rep] in H.
  - destruct H as (l & Hl & _ & _ & _ & _ & _ & -> & _).
    destruct Hx as [<-|[]]. exists (PLeaf l). split; [exact Hl|]. intros m; discriminate.
  - destruct H as (N & fpc & HN & _ & _ & Hreps & -> & _).
    destruct Hx as [<-|Hx].
    + exists (PNonLeaf N). split; [exact HN|]. intros m; discriminate.
    + eapply (reps_pages (rep f h)
                (fun x => exists pg, lookupPage f x = Some pg /\ nodePage pg));
        [|exact Hreps|exact Hx].
      intros. eapply IH; eassumption.
Qed.

Lemma rep_root f h p lo hi first nxt es fp :
  rep f h p lo hi first nxt es fp -> In p fp.
Proof.
  destruct h; cbn [rep]; intros H.
  - destruct H as (l & _ & _ & _ & _ & _ & _ & -> & _). now left.
  - destruct H as (N & fpc & _ & _ & _ & _ & -> & _). now left.
Qed.

Lemma rep_root_page f h p lo hi first nxt es fp :
  rep f h p lo hi first nxt es fp -> p <> INVALID_NUMBER /\ (p <= length f)%nat.
Proof.
  intros H. destruct (rep_page _ _ _ _ _ _ _ _ _ p H (rep_root _ _ _ _ _ _ _ _ _ H))
    as (pg & Hpg & _).
  pose proof (lookupPage_bounds _ _ _ Hpg). unfold INVALID_NUMBER. lia.
Qed.

Lemma rep_ascending f h : forall p lo hi first nxt es fp,
  rep f h p lo hi first nxt es fp -> ascending lo hi es.
Proof.
  induction h as [|h IH]; intros p lo hi first nxt es fp H; cbn [rep] in H.
  - now destruct H as (l & _ & _ & _ & _ & Hasc & _).
  - destruct H as (N & fpc & _ & _ & _ & Hreps & _).
    eapply reps_ascending; [|exact Hreps]. exact IH.
Qed.

Lemma rep_bounds f h p lo hi first nxt es fp e :
  rep f h p lo hi first nxt es fp -> In e es -> lo <= fst e < hi.
Proof.
  intros H. apply ascending_bounds. eapply rep_ascending; eassumption.
Qed.

Lemma rep_frame f f' h : forall p lo hi first nxt es fp,
  rep f h p lo hi first nxt es fp ->
  (forall x, In x fp -> lookupPage f' x = lookupPage f x) ->
  rep f' h p lo hi first nxt es fp.
Proof.
  induction h as [|h IH]; intros p lo hi first nxt es fp H Hsame; cbn [rep] in *.
  - destruct H as (l & Hl & Hrest). exists l. split; [|exact Hrest].
    destruct Hrest as (_ & _ & _ & _ & _ & -> & _).
    rewrite Hsame; [exact Hl|now left].
  - destruct H as (N & fpc & HN & Hok & Hlvl & Hreps & -> & Hnin).
    exists N, fpc. split; [rewrite Hsame; [exact HN|now left]|].
    split; [exact Hok|]. split; [exact Hlvl|]. split; [|split; [reflexivity|exact Hnin]].
    apply (reps_transfer (rep f h) (rep f' h)
             (fun x => lookupPage f' x = lookupPage f x)) with (2 := Hreps).
    + intros. now apply IH.
    + intros x Hx. apply Hsame. now right.
Qed.

Lemma keeps_refl f fp : keeps f f fp.
Proof.
  split; [lia|]. intros x pg H _. destruct pg; try exact H. now exists m.
Qed.

Lemma keeps_node f f' fpx x pg :
  keeps f f' fpx -> lookupPage f x = Some pg -> nodePage pg -> ~ In x fpx ->
  lookupPage f' x = Some pg.
Proof.
  intros [_ Hk] Hx Hn Hnin. specialize (Hk x pg Hx Hnin).
  destruct pg; try exact Hk. now elim (Hn m).
Qed.

Lemma keeps_rep f f' fpx h p lo hi first nxt es fp :
  keeps f f' fpx -> rep f h p lo hi first nxt es fp ->
  (forall x, In x fp -> ~ In x fpx) ->
  rep f' h p lo hi first nxt es fp.
Proof.
  intros Hk H Hd. apply rep_frame with (1 := H).
  intros x Hx. destruct (rep_page _ _ _ _ _ _ _ _ _ x H Hx) as (pg & Hpg & Hn).
  rewrite Hpg. eapply keeps_node; eauto.
Qed.

Lemma keeps_meta f f' fpx x m :
  keeps f f' fpx -> lookupPage f x = Some (PMeta m) -> ~ In x fpx ->
  exists m', lookupPage f' x = Some (PMeta m').
Proof. intros [_ Hk] Hx Hnin. exact (Hk x _ Hx Hnin). Qed.

Lemma insertInSubtree_unfold fuel krid pageNum splitKey :
  insertInSubtree (S fuel) krid pageNum splitKey =
  (currNode <- readNonLeafNode pageNum ;;
   r <- match insertChildIndex (rk_key krid) currNode with
        | None => raise UndefinedBehaviour
        | Some i =>
            if level currNode =? 1
            then insertInLeaf krid (pageAt (pageNoArray currNode) i) splitKey
            else insertInSubtree fuel krid (pageAt (pageNoArray currNode) i) splitKey
        end ;;
   absorbSplit pageNum r).
Proof. reflexivity. Qed.

(** ** Files that keep their pages *)

Lemma keeps_trans f f' f'' fp fp' :
  keeps f f' fp -> keeps f' f'' fp' -> grownFrom f fp fp' -> keeps f f'' fp.
Proof.
  intros [Hl1 H1] [Hl2 H2] Hg. split; [lia|].
  intros x pg Hx Hnin. pose proof (lookupPage_bounds _ _ _ Hx) as Hb.
  assert (Hnin' : ~ In x fp').
  { intros Hin. destruct (Hg x Hin); [contradiction|lia]. }
  specialize (H1 x pg Hx Hnin). destruct pg.
  - destruct H1 as [m' H1]. exact (H2 x _ H1 Hnin').
  - exact (H2 x _ H1 Hnin').
  - exact (H2 x _ H1 Hnin').
Qed.

Lemma keeps_write f p pg fp : In p fp -> keeps f (writePage f p pg) fp.
Proof.
  intros Hin. split; [rewrite length_writePage; lia|].
  intros x pg' Hx Hnin.
  assert (Hne : p <> x) by (intros ->; contradiction).
  rewrite (lookupPage_write_ne _ _ _ _ Hne), Hx. destruct pg'; eauto.
Qed.

Lemma keeps_write_meta f h m m' fp :
  lookupPage f h = Some (PMeta m) -> keeps f (writePage f h (PMeta m')) fp.
Proof.
  intros Hh. pose proof (lookupPage_bounds _ _ _ Hh) as Hb.
  split; [rewrite length_writePage; lia|].
  intros x pg' Hx Hnin. destruct (Nat.eq_dec h x) as [<-|Hne].
  - rewrite Hh in Hx. injection Hx as <-. exists m'. now apply lookupPage_write_eq.
  - rewrite (lookupPage_write_ne _ _ _ _ Hne), Hx. destruct pg'; eauto.
Qed.

Lemma keeps_app f x fp : keeps f (f ++ [x]) fp.
Proof.
  split; [rewrite length_app; lia|].
  intros y pg' Hy Hnin. pose proof (lookupPage_bounds _ _ _ Hy) as Hb.
  rewrite lookupPage_app_old by lia. rewrite Hy. destruct pg'; eauto.
Qed.

Lemma keeps_weaken f f' fp fp' :
  keeps f f' fp -> (forall x, In x fp -> In x fp') -> keeps f f' fp'.
Proof.
  intros [Hl H] Hsub. split; [exact Hl|]. intros x pg Hx Hnin. apply H; auto.
Qed.

(** ** Insertion into a leaf *)

Lemma insertInLeaf_spec s p lo hi first nxt es fp key rid sk0 :
  rep (file s) 0 p lo hi first nxt es fp ->
  lo <= kv key < hi -> ~ In (kv key) (map fst es) -> validRid rid ->
  exists r s',
    insertInLeaf (RIDKeyPair_set rid key) p sk0 s = Ok r s' /\
    insOutcome s s' 0 p lo hi first nxt (insEntry (kv key) rid es) fp r.
Proof.
  intros Hrep Hk Hnew Hrid. cbn [rep] in Hrep.
  destruct Hrep as (l & Hl & Hok & <- & <- & Hasc & -> & -> & Hne).
  pose proof (lookupPage_bounds _ _ _ Hl) as Hb.
  pose proof (ascending_insEntry _ _ _ _ rid Hasc Hk Hnew) as Hasc'.
  unfold insertInLeaf, RIDKeyPair_set. mrun. rewrite Hl. mrun.
  rewrite (isRoomyLeaf_length _ Hok).
  destruct (Nat.ltb_spec (getLeafLength l) LEAF_NUM_KEYS) as [Hroom|Hfull].
  - destruct (insertInRoomyLeaf_spec l (strncpy key STRINGSIZE) rid Hok Hroom Hrid)
      as (Hok' & Hes' & Hsib').
    rewrite kv_strncpy in Hes'.
    mrun. eexists _, _. split; [reflexivity|].
    unfold insOutcome. mrun. cbn [fst snd].
    split; [apply keeps_write; now left|].
    split; [reflexivity|]. split; [reflexivity|].
    exists [p]. split; [|intros x Hx; now left].
    cbn [rep]. eexists. split; [apply lookupPage_write_eq; lia|].
    split; [exact Hok'|]. split; [exact Hes'|]. split; [exact Hsib'|].
    split; [exact Hasc'|]. split; [reflexivity|]. split; [reflexivity|].
    left. apply insEntry_nonempty.
  - assert (Hlen : getLeafLength l = LEAF_NUM_KEYS).
    { pose proof (leaf_length_bound l). lia. }
    destruct (leafSplit_spec l (strncpy key STRINGSIZE) rid (S (length (file s))) lo hi
                Hok Hlen Hrid Hasc)
      as (l' & r' & sk & Hsplit & Hokl & Hokr & Hsibl & Hsibr & Hes & Hskp & Hlne
          & e & t & Hr & Hske).
    rewrite kv_strncpy in Hes.
    mrun. rewrite Hsplit. mrun.
    eexists _, _. split; [reflexivity|].
    unfold insOutcome. mrun. cbn [fst snd].
    rewrite <- Hes in Hasc'.
    destruct (ascending_app_inv _ _ _ _ Hasc') as (Hal & Har & Hlt).
    assert (He : In e (leafEntries r')) by (rewrite Hr; now left).
    pose proof (ascending_bounds _ _ _ _ Har He) as Hbe.
    assert (Hlo : lo < fst e).
    { destruct (leafEntries l') as [|x xs] eqn:El; [now elim Hlne|].
      pose proof (ascending_bounds _ _ _ x Hal (or_introl eq_refl)).
      pose proof (Hlt x e (or_introl eq_refl) He). lia. }
    split.
    { apply keeps_trans with (f' := file s ++ [PLeaf freshLeaf])
                             (fp' := [p; S (length (file s))]); [apply keeps_app| |].
      - apply keeps_trans with (f' := writePage (file s ++ [PLeaf freshLeaf]) p (PLeaf l'))
                               (fp' := [p; S (length (file s))]).
        + apply keeps_write. now left.
        + apply keeps_write. right. now left.
        + intros x Hx. now left.
      - intros x [<-|[<-|[]]]; [left; now left|right; lia]. }
    split; [reflexivity|]. split; [reflexivity|].
    exists (S (length (file s))), (leafEntries l'), (leafEntries r'), [p], [pk_pageNo sk].
    rewrite Hske, Hskp.
    split.
    { cbn [rep]. exists l'. split; [lsimp; reflexivity|].
      split; [exact Hokl|]. split; [reflexivity|]. split; [exact Hsibl|].
      split; [|split; [reflexivity|split; [reflexivity|now left]]].
      apply ascending_upper with (1 := Hal). intros x Hx. now apply Hlt. }
    split.
    { cbn [rep]. exists r'. split; [lsimp; reflexivity|].
      split; [exact Hokr|]. split; [reflexivity|]. split; [exact Hsibr|].
      split; [|split; [reflexivity|split; [reflexivity|left; rewrite Hr; discriminate]]].
      rewrite Hr in *. cbn [ascending] in *. split; [lia|]. apply Har. }
    split; [lia|]. split; [now rewrite Hes|].
    split; [intros x [<-|[]] Hx; destruct Hx as [Hx|[]]; lia|].
    intros x [<-|[<-|[]]]; [left; now left|right; lia].
Qed.

(** ** Insertion below an internal node *)

Lemma headerOk_keeps s s' fp :
  headerOk s -> keeps (file s) (file s') fp -> headerPageNum s' = headerPageNum s ->
  (forall x, In x fp -> exists pg, lookupPage (file s) x = Some pg /\ nodePage pg) ->
  headerOk s'.
Proof.
  intros [m Hm] Hk Hh Hfp. unfold headerOk. rewrite Hh.
  eapply keeps_meta; [exact Hk|exact Hm|].
  intros Hin. destruct (Hfp _ Hin) as (pg & Hpg & Hn).
  rewrite Hm in Hpg. injection Hpg as <-. now elim (Hn m).
Qed.

Lemma grownRootNode_spec p q mid lvl :
  let NR := grownRootNode p (S q) mid lvl in
  nodeOk NR /\ nodeItems NR = [(kv mid, S q)] /\ nodeFirstChild NR = p /\
  level NR = lvl + 1.
Proof.
  unfold grownRootNode. node_compute. kv_tests.
  split; [apply nodeOk_nodeForm; constructor|]. repeat split; reflexivity.
Qed.

Lemma growRoot_spec s p q mid N1 m :
  lookupPage (file s) p = Some (PNonLeaf N1) ->
  lookupPage (file s) (headerPageNum s) = Some (PMeta m) ->
  exists s' m',
    growRoot p q mid s = Ok tt s' /\
    file s' = writePage
                (writePage (file s ++ [PNonLeaf freshNonLeaf]) (headerPageNum s) (PMeta m'))
                (S (length (file s))) (PNonLeaf (grownRootNode p q mid (level N1))) /\
    rootPageNum s' = S (length (file s)) /\
    headerPageNum s' = headerPageNum s.
Proof.
  intros Hp Hh.
  pose proof (lookupPage_bounds _ _ _ Hp) as Hbp.
  pose proof (lookupPage_bounds _ _ _ Hh) as Hbh.
  assert (Hne : headerPageNum s <> p) by (intros E; rewrite E, Hp in Hh; discriminate).
  unfold growRoot. mrun.
  rewrite lookupPage_app_old by lia. rewrite Hh. mrun.
  rewrite lookupPage_write_ne by exact Hne.
  rewrite lookupPage_app_old by lia. rewrite Hp. mrun.
  eexists _, _. split; [reflexivity|]. mrun. repeat split; reflexivity.
Qed.

Lemma rep_node f h p N lo hi first nxt es fpc :
  lookupPage f p = Some (PNonLeaf N) -> nodeOk N -> level N = Z.of_nat (S h) ->
  reps (rep f h) (nodeFirstChild N) (nodeItems N) lo hi first nxt es fpc ->
  ~ In p fpc ->
  rep f (S h) p lo hi first nxt es (p :: fpc).
Proof. intros. cbn [rep]. exists N, fpc. auto 10. Qed.

Lemma reps_page f h c0 items lo hi first nxt es fpc x :
  reps (rep f h) c0 items lo hi first nxt es fpc -> In x fpc ->
  exists pg, lookupPage f x = Some pg /\ nodePage pg.
Proof.
  intros H Hx.
  eapply (reps_pages (rep f h) (fun x => exists pg, lookupPage f x = Some pg /\ nodePage pg));
    [|exact H|exact Hx].
  intros. eapply rep_page; eassumption.
Qed.

Lemma nodeItems_cons N : nodeOk N -> exists it rest, nodeItems N = it :: rest.
Proof.
  intros (_ & _ & Hn & _). pose proof (nodeItems_length N) as Hl. revert Hl.
  destruct (nodeItems N) as [|it rest]; [cbn [length]; intros Hl; lia|eauto].
Qed.

Lemma apart_grown f fpC fp' fpL fpR :
  apart fpC fpL fpR -> grownFrom f fpC fp' ->
  (forall x, In x fpL \/ In x fpR -> (x <= length f)%nat) ->
  apart fp' fpL fpR.
Proof.
  intros Hap Hg Hlen x Hx. destruct (Hg x Hx) as [Hin|Hnew]; [now apply Hap|].
  split; intros Hin.
  - specialize (Hlen x (or_introl Hin)). lia.
  - specialize (Hlen x (or_intror Hin)). lia.
Qed.

Lemma notin_grown f fpC fp' p :
  ~ In p fpC -> grownFrom f fpC fp' -> (p <= length f)%nat -> ~ In p fp'.
Proof. intros Hn Hg Hlen Hin. destruct (Hg p Hin); [contradiction|lia]. Qed.

Lemma notin_three (p : PageId) a b c :
  ~ In p a -> ~ In p b -> ~ In p c -> ~ In p (a ++ b ++ c).
Proof.
  intros Ha Hb Hc Hin. apply in_app_or in Hin. destruct Hin as [Hin|Hin]; [contradiction|].
  apply in_app_or in Hin. destruct Hin; contradiction.
Qed.

Lemma in_three (p : PageId) a b c :
  In p (a ++ b ++ c) <-> In p a \/ In p b \/ In p c.
Proof. rewrite !in_app_iff. tauto. Qed.

Lemma outcome_single s s' h p lo hi first nxt es' fp fp' sk :
  keeps (file s) (file s') fp -> headerPageNum s' = headerPageNum s ->
  rootPageNum s' = rootPageNum s ->
  rep (file s') (S h) p lo hi first nxt es' fp' -> grownFrom (file s) fp fp' ->
  if Nat.eqb p (rootPageNum s)
  then rootOutcome s s' h lo hi first nxt es' fp
  else insOutcome s s' (S h) p lo hi first nxt es' fp (false, sk).
Proof.
  intros Hk Hh Hr Hrep Hg. destruct (Nat.eqb_spec p (rootPageNum s)) as [E|E].
  - split; [exact Hk|]. split; [exact Hh|]. exists h, fp'. rewrite Hr, <- E. auto.
  - split; [exact Hk|]. split; [exact Hh|]. split; [exact Hr|]. cbn [fst]. eauto.
Qed.

Section InsertBelow.
Variables (h : nat) (key : list byte) (rid : RecordId).
Variable child : PageId -> M (bool * PageKeyPair).

Hypothesis child_spec :
  forall s q lo hi first nxt es fp,
    rep (file s) h q lo hi first nxt es fp ->
    lo <= kv key < hi -> ~ In (kv key) (map fst es) ->
    headerOk s -> ~ In (rootPageNum s) fp ->
    exists r s',
      child q s = Ok r s' /\
      insOutcome s s' h q lo hi first nxt (insEntry (kv key) rid es) fp r.

Lemma insertBelow_spec s p N fpc lo hi first nxt es :
  lookupPage (file s) p = Some (PNonLeaf N) -> nodeOk N -> level N = Z.of_nat (S h) ->
  reps (rep (file s) h) (nodeFirstChild N) (nodeItems N) lo hi first nxt es fpc ->
  ~ In p fpc ->
  lo <= kv key < hi -> ~ In (kv key) (map fst es) -> headerOk s ->
  (p = rootPageNum s \/ ~ In (rootPageNum s) (p :: fpc)) ->
  exists r s',
    (r <- match insertChildIndex (strncpy key STRINGSIZE) N with
          | None => raise UndefinedBehaviour
          | Some i => child (pageAt (pageNoArray N) i)
          end ;; absorbSplit p r) s = Ok r s' /\
    if Nat.eqb p (rootPageNum s)
    then rootOutcome s s' h lo hi first nxt (insEntry (kv key) rid es) (p :: fpc)
    else insOutcome s s' (S h) p lo hi first nxt (insEntry (kv key) rid es) (p :: fpc) r.
Proof.
  intros HN Hok Hlvl Hreps Hp Hk Hnew Hhdr Hroot.
  pose proof (lookupPage_bounds _ _ _ HN) as Hbp.
  destruct (nodeItems_cons N Hok) as (it0 & rest0 & Hitems).
  assert (Hasc : itemsAscending lo hi (nodeItems N)).
  { rewrite Hitems in *. eapply reps_routers; exact Hreps. }
  destruct (insertChildIndex_spec N (strncpy key STRINGSIZE) lo hi Hok Hasc) as (j & Hj & Hq).
  rewrite kv_strncpy in Hq.
  destruct (reps_descend (rep (file s) h) (rep_bounds (file s) h)
              _ _ _ _ _ _ _ _ (kv key) Hreps Hk)
    as (lo' & hi' & first' & nxt' & esL & esC & esR & fpL & fpC & fpR &
        HC & Hlo' & Hkk & Hhi' & -> & -> & HL & HR & Hap & Hre1 & Hre2).
  rewrite <- Hq in *. set (q := pageAt (pageNoArray N) j) in *.
  assert (HnewC : ~ In (kv key) (map fst esC)).
  { intros Hin. apply Hnew. rewrite !map_app. apply in_or_app. right.
    apply in_or_app. now left. }
  assert (HrootC : ~ In (rootPageNum s) fpC).
  { intros Hin. assert (Hin' : In (rootPageNum s) (fpL ++ fpC ++ fpR)).
    { apply in_or_app. right. apply in_or_app. now left. }
    destruct Hroot as [E|Hroot]; [apply Hp; rewrite E; exact Hin'|]. apply Hroot. now right. }
  destruct (child_spec s q lo' hi' first' nxt' esC fpC HC Hkk HnewC Hhdr HrootC)
    as ([split sk] & s2 & Hchild & Hkeep & Hhd2 & Hrt2 & Hout).
  assert (Hes : insEntry (kv key) rid (esL ++ esC ++ esR)
                = esL ++ insEntry (kv key) rid esC ++ esR).
  { rewrite insEntry_app_l by exact HL. f_equal.
    apply insEntry_app_r. intros e He. specialize (HR e He). lia. }
  rewrite Hes.
  unfold bind at 1. rewrite Hj. fold q. rewrite Hchild.
  assert (Hpages : forall x, In x (fpL ++ fpC ++ fpR) ->
                     exists pg, lookupPage (file s) x = Some pg /\ nodePage pg).
  { intros x Hx. eapply reps_page; eassumption. }
  assert (Hlen : forall x, In x (fpL ++ fpC ++ fpR) -> (x <= length (file s))%nat).
  { intros x Hx. destruct (Hpages x Hx) as (pg & Hpg & _).
    pose proof (lookupPage_bounds _ _ _ Hpg). lia. }
  assert (HlenLR : forall x, In x fpL \/ In x fpR -> (x <= length (file s))%nat).
  { intros x Hx. apply Hlen. apply in_three. tauto. }
  assert (HpL : ~ In p fpL) by (intros Hin; apply Hp, in_three; tauto).
  assert (HpC : ~ In p fpC) by (intros Hin; apply Hp, in_three; tauto).
  assert (HpR : ~ In p fpR) by (intros Hin; apply Hp, in_three; tauto).
  assert (HN2 : lookupPage (file s2) p = Some (PNonLeaf N)).
  { eapply keeps_node; [exact Hkeep|exact HN|intros m; discriminate|exact HpC]. }
  assert (Hkeep' : keeps (file s) (file s2) (p :: fpL ++ fpC ++ fpR)).
  { apply keeps_weaken with (1 := Hkeep). intros x Hx. right. apply in_three. tauto. }
  assert (Htr : forall f', keeps (file s) f' (p :: fpC) ->
                           transfers (rep (file s) h) (rep f' h) fpL fpR).
  { intros f' Hk' c l u fi nx e fpx Hc Hsub. eapply keeps_rep; [exact Hk'|exact Hc|].
    intros x Hx [<-|Hin].
    - destruct (Hsub _ Hx); contradiction.
    - destruct (Hap x Hin) as [Ha Hb]. destruct (Hsub _ Hx); contradiction. }
  assert (Hkeep2 : keeps (file s) (file s2) (p :: fpC)).
  { apply keeps_weaken with (1 := Hkeep). intros x Hx. now right. }
  destruct split; cbn [fst snd] in Hout.
  - destruct Hout as (firstq & es1 & es2 & fp1 & fp2 & HC1 & HC2 & Hmk & Hes' & Hd12 & Hg).
    destruct sk as [q' key']. cbn [pk_key pk_pageNo] in *.
    rewrite Hes'.
    destruct (rep_root_page _ _ _ _ _ _ _ _ _ HC2) as [Hq'0 Hq'len].
    pose proof (lookupPage_bounds _ _ _ HN2) as Hbp2.
    assert (Hg1 : grownFrom (file s) fpC fp1) by (intros x Hx; apply Hg, in_or_app; now left).
    assert (Hg2 : grownFrom (file s) fpC fp2) by (intros x Hx; apply Hg, in_or_app; now right).
    assert (Hp1 : ~ In p fp1) by (eapply notin_grown; [exact HpC|exact Hg1|lia]).
    assert (Hp2 : ~ In p fp2) by (eapply notin_grown; [exact HpC|exact Hg2|lia]).
    assert (Hap12 : apart (fp1 ++ fp2) fpL fpR) by (eapply apart_grown; eassumption).
    assert (Hlen12 : forall x, In x (fp1 ++ fp2) -> (x <= length (file s2))%nat).
    { intros x Hx. apply in_app_or in Hx.
      destruct Hx as [Hx|Hx];
        [destruct (rep_page _ _ _ _ _ _ _ _ _ x HC1 Hx) as (pg & Hpg & _)
        |destruct (rep_page _ _ _ _ _ _ _ _ _ x HC2 Hx) as (pg & Hpg & _)];
        pose proof (lookupPage_bounds _ _ _ Hpg); lia. }
    assert (Hgrown : grownFrom (file s) (p :: fpL ++ fpC ++ fpR)
                       (p :: fpL ++ (fp1 ++ fp2) ++ fpR)).
    { intros x [<-|Hx]; [left; now left|].
      apply in_three in Hx. destruct Hx as [Hx|[Hx|Hx]].
      - left. right. apply in_three. tauto.
      - destruct (Hg x Hx) as [Hin|Hfresh]; [|now right].
        left. right. apply in_three. tauto.
      - left. right. apply in_three. tauto. }
    assert (HpNew : ~ In p (fpL ++ (fp1 ++ fp2) ++ fpR)).
    { apply notin_three; try assumption. intros Hin. apply in_app_or in Hin.
      destruct Hin; contradiction. }
    unfold absorbSplit. mrun. rewrite HN2. mrun.
    rewrite (isRoomyNonLeaf_length _ Hok).
    destruct (Nat.ltb_spec (getNonLeafLength N) NON_LEAF_NUM_KEYS) as [Hroom|Hfull].
    + destruct (insertInRoomyNonLeaf_spec N key' q' Hok Hroom Hq'0)
        as (Hok' & Hitems' & Hfc' & Hlvl').
      mrun. eexists _, _. split; [reflexivity|].
      assert (Hk23 : keeps (file s2)
                       (writePage (file s2) p
                          (PNonLeaf (insertInRoomyNonLeaf N (mkPageKeyPair q' key')))) [p])
        by (apply keeps_write; now left).
      assert (Hk3 : keeps (file s)
                      (writePage (file s2) p
                         (PNonLeaf (insertInRoomyNonLeaf N (mkPageKeyPair q' key'))))
                      (p :: fpC)).
      { eapply keeps_trans; [exact Hkeep2|exact Hk23|]. intros x [<-|[]]. left; now left. }
      apply outcome_single with (fp' := p :: fpL ++ (fp1 ++ fp2) ++ fpR);
        state_simpl; try assumption.
      * apply keeps_weaken with (1 := Hk3).
        intros x [<-|Hx]; [now left|right; apply in_three; tauto].
      * apply rep_node with (N := insertInRoomyNonLeaf N (mkPageKeyPair q' key'));
          try assumption.
        -- apply lookupPage_write_eq. lia.
        -- now rewrite Hlvl'.
        -- rewrite Hfc', Hitems'.
           apply Hre2 with (firstq := firstq); try assumption.
           ++ now apply Htr.
           ++ eapply keeps_rep; [exact Hk23|exact HC1|]. intros x Hx [<-|[]]. contradiction.
           ++ eapply keeps_rep; [exact Hk23|exact HC2|]. intros x Hx [<-|[]]. contradiction.
    + assert (Hlen4 : getNonLeafLength N = NON_LEAF_NUM_KEYS).
      { pose proof (node_length_bound N). lia. }
      destruct (nonLeafSplit_spec N key' q' lo hi Hok Hlen4 Hq'0 Hasc)
        as (N1 & N2 & mid & Hsplit & Hok1 & Hok2 & Hlvl1 & Hlvl2 & Hfc1 & Hins).
      mrun. rewrite Hsplit. mrun.
      set (newPid := S (length (file s2))) in *.
      set (f4 := writePage
                   (writePage (file s2 ++ [PNonLeaf freshNonLeaf]) p (PNonLeaf N1))
                   newPid (PNonLeaf N2)).
      assert (Hlen4' : length f4 = S (length (file s2))).
      { subst f4. rewrite !length_writePage, length_app. cbn [length]. lia. }
      assert (Hk24 : keeps (file s2) f4 [p; newPid]).
      { apply keeps_trans with (f' := file s2 ++ [PNonLeaf freshNonLeaf])
                               (fp' := [p; newPid]); [apply keeps_app| |intros x Hx; now left].
        apply keeps_trans
          with (f' := writePage (file s2 ++ [PNonLeaf freshNonLeaf]) p (PNonLeaf N1))
               (fp' := [p; newPid]); [| |intros x Hx; now left].
        - apply keeps_write. now left.
        - apply keeps_write. right. now left. }
      assert (Hk4 : keeps (file s) f4 (p :: fpC)).
      { eapply keeps_trans; [exact Hkeep2|exact Hk24|].
        intros x [<-|[<-|[]]]; [left; now left|right]. destruct Hkeep2 as [Hl _].
        subst newPid. lia. }
      assert (Hl4p : lookupPage f4 p = Some (PNonLeaf N1)).
      { subst f4 newPid. lsimp. reflexivity. }
      assert (Hl4n : lookupPage f4 newPid = Some (PNonLeaf N2)).
      { subst f4 newPid. lsimp. reflexivity. }
      assert (Hnotnew : forall x, In x [p; newPid] -> ~ In x (fp1 ++ fp2)).
      { intros x [<-|[<-|[]]] Hin.
        - apply in_app_or in Hin. destruct Hin; contradiction.
        - specialize (Hlen12 _ Hin). subst newPid. lia. }
      assert (Hreps4 : reps (rep f4 h) (nodeFirstChild N)
                         (insItem (kv key') q' (nodeItems N)) lo hi first nxt
                         (esL ++ (es1 ++ es2) ++ esR) (fpL ++ (fp1 ++ fp2) ++ fpR)).
      { apply Hre2 with (firstq := firstq); try assumption.
        - now apply Htr.
        - eapply keeps_rep; [exact Hk24|exact HC1|].
          intros x Hx Hin. apply (Hnotnew x Hin). apply in_or_app. now left.
        - eapply keeps_rep; [exact Hk24|exact HC2|].
          intros x Hx Hin. apply (Hnotnew x Hin). apply in_or_app. now right. }
      rewrite Hins in Hreps4. apply reps_app in Hreps4.
      destruct Hreps4 as (esA & esB & fpA & fpB & midp & HA & HB & HesAB & HfpAB & HdAB & Hmid).
      assert (HlenAB : forall x, In x (fpA ++ fpB) -> (x <= length (file s2))%nat).
      { rewrite <- HfpAB. intros x Hx. apply in_three in Hx.
        destruct Hkeep2 as [Hl _].
        destruct Hx as [Hx|[Hx|Hx]].
        - specialize (HlenLR x (or_introl Hx)). lia.
        - now apply Hlen12.
        - specialize (HlenLR x (or_intror Hx)). lia. }
      rewrite HfpAB in HpNew.
      assert (HrepA : rep f4 (S h) p lo (kv mid) first midp esA (p :: fpA)).
      { apply rep_node with (N := N1); try assumption.
        - now rewrite Hlvl1.
        - now rewrite Hfc1.
        - intros Hin. apply HpNew, in_or_app. now left. }
      assert (HrepB : rep f4 (S h) newPid (kv mid) hi midp nxt esB (newPid :: fpB)).
      { apply rep_node with (N := N2); try assumption.
        - now rewrite Hlvl2.
        - intros Hin. assert (Hin' : In newPid (fpA ++ fpB)) by (apply in_or_app; now right).
          specialize (HlenAB _ Hin'). subst newPid. lia. }
      assert (HdisjAB : forall x, In x (p :: fpA) -> ~ In x (newPid :: fpB)).
      { intros x [<-|Hx] [E|Hin].
        - subst newPid. lia.
        - apply HpNew, in_or_app. now right.
        - assert (Hin' : In newPid (fpA ++ fpB)) by (apply in_or_app; left; now rewrite E).
          specialize (HlenAB _ Hin'). subst newPid. lia.
        - now apply (HdAB x). }
      assert (HgrownAB : grownFrom (file s) (p :: fpL ++ fpC ++ fpR)
                           ((p :: fpA) ++ newPid :: fpB)).
      { intros x Hx. apply in_app_or in Hx. destruct Hkeep2 as [Hl _].
        assert (Hsub : In x (fpA ++ fpB) -> In x (p :: fpL ++ fpC ++ fpR) \/
                                            (length (file s) < x)%nat).
        { intros Hin. rewrite <- HfpAB in Hin. apply Hgrown. now right. }
        destruct Hx as [[<-|Hx]|[<-|Hx]].
        - left. now left.
        - apply Hsub, in_or_app. now left.
        - right. subst newPid. lia.
        - apply Hsub, in_or_app. now right. }
      rewrite Hrt2.
      destruct (Nat.eqb_spec p (rootPageNum s)) as [Eroot|Eroot].
      * destruct Hhdr as [m0 Hm0].
        assert (Hhd4 : exists m4, lookupPage f4 (headerPageNum s2) = Some (PMeta m4)).
        { rewrite Hhd2. eapply keeps_meta; [exact Hk4|exact Hm0|].
          intros [E|Hin].
          - rewrite <- E, HN in Hm0. discriminate.
          - assert (Hin' : In (headerPageNum s) (fpL ++ fpC ++ fpR))
              by (apply in_three; tauto).
            destruct (Hpages _ Hin') as (pg & Hpg & Hnode).
            rewrite Hm0 in Hpg. injection Hpg as <-. now elim (Hnode m0). }
        destruct Hhd4 as [m4 Hm4].
        cbv beta.
        match goal with
        | |- context [growRoot ?a ?b ?c ?st] =>
            destruct (growRoot_spec st a b c N1 m4 Hl4p Hm4)
              as (s5 & m5 & Hgr & Hf5 & Hr5 & Hh5)
        end.
        rewrite Hgr. state_simpl. fold f4 in Hf5.
        eexists _, _. split; [reflexivity|].
        destruct (grownRootNode_spec p (length (file s2)) mid (level N1))
          as (HokR & HitemsR & HfcR & HlvlR).
        fold newPid in HokR, HitemsR, HfcR, HlvlR.
        pose proof (lookupPage_bounds _ _ _ Hm4) as Hbh4.
        set (newRoot := S (length f4)) in *.
        assert (Hk45 : keeps f4 (file s5) [newRoot]).
        { rewrite Hf5.
          apply keeps_trans with (f' := f4 ++ [PNonLeaf freshNonLeaf]) (fp' := [newRoot]);
            [apply keeps_app| |intros x Hx; now left].
          apply keeps_trans
            with (f' := writePage (f4 ++ [PNonLeaf freshNonLeaf]) (headerPageNum s2) (PMeta m5))
                 (fp' := [newRoot]); [| |intros x Hx; now left].
          - apply keeps_write_meta with (m := m4).
            rewrite lookupPage_app_old by lia. exact Hm4.
          - apply keeps_write. now left. }
        assert (Hl5 : lookupPage (file s5) newRoot
                      = Some (PNonLeaf (grownRootNode p newPid mid (level N1)))).
        { rewrite Hf5. apply lookupPage_write_eq.
          rewrite length_writePage, length_app. cbn [length]. subst newRoot. lia. }
        assert (Hfar : forall x, In x ((p :: fpA) ++ newPid :: fpB) -> x <> newRoot).
        { intros x Hx. apply in_app_or in Hx.
          assert (Hsub : In x (fpA ++ fpB) -> x <> newRoot).
          { intros Hin. specialize (HlenAB _ Hin). subst newRoot. lia. }
          destruct Hx as [[<-|Hx]|[<-|Hx]].
          - subst newRoot. lia.
          - apply Hsub, in_or_app. now left.
          - subst newRoot newPid. lia.
          - apply Hsub, in_or_app. now right. }
        split; [|split].
        { state_simpl. apply keeps_trans with (f' := f4) (fp' := [newRoot]).
          - apply keeps_weaken with (1 := Hk4).
            intros x [<-|Hx]; [now left|right; apply in_three; tauto].
          - exact Hk45.
          - intros x [<-|[]]. right. destruct Hkeep2 as [Hl _]. subst newRoot. lia. }
        { state_simpl. rewrite Hh5. state_simpl. exact Hhd2. }
        exists (S h), (newRoot :: (p :: fpA) ++ newPid :: fpB).
        state_simpl. rewrite Hr5. state_simpl. fold f4. fold newRoot.
        split; [|split; [lia|]].
        { apply rep_node with (N := grownRootNode p newPid mid (level N1)); try assumption.
          - rewrite HlvlR, Hlvl1, Hlvl. lia.
          - rewrite HfcR, HitemsR. cbn [reps fst snd].
            exists esA, esB, (p :: fpA), (newPid :: fpB), midp.
            split; [eapply keeps_rep; [exact Hk45|exact HrepA|]|].
            { intros x Hx [E|[]]. apply (Hfar x); [apply in_or_app; now left|now rewrite E]. }
            split; [eapply keeps_rep; [exact Hk45|exact HrepB|]|].
            { intros x Hx [E|[]]. apply (Hfar x); [apply in_or_app; now right|now rewrite E]. }
            repeat split; try assumption; lia.
          - intros Hin. now apply (Hfar _ Hin). }
        intros x [<-|Hx]; [|now apply HgrownAB].
        right. destruct Hkeep2 as [Hl _]. subst newRoot. lia.
      * eexists _, _. split; [reflexivity|].
        split; [|split; [exact Hhd2|split; [exact Hrt2|]]].
        { state_simpl. apply keeps_weaken with (1 := Hk4).
          intros x [<-|Hx]; [now left|right; apply in_three; tauto]. }
        cbn [fst snd pk_key pk_pageNo]. state_simpl. rewrite kv_strncpy.
        exists midp, esA, esB, (p :: fpA), (newPid :: fpB).
        repeat split; try assumption; lia.
  - destruct Hout as (fp' & HC' & Hg).
    unfold absorbSplit. mrun.
    eexists _, _. split; [reflexivity|].
    apply outcome_single with (fp' := p :: fpL ++ fp' ++ fpR); mrun; try assumption.
    + apply rep_node with (N := N); try assumption.
      * apply Hre1; [now apply Htr|exact HC'|].
        eapply apart_grown; eassumption.
      * apply notin_three; try assumption.
        eapply notin_grown; [exact HpC|exact Hg|lia].
    + intros x [<-|Hx]; [left; now left|].
      apply in_three in Hx. destruct Hx as [Hx|[Hx|Hx]].
      * left. right. apply in_three. tauto.
      * destruct (Hg x Hx) as [Hin|Hfresh]; [|now right].
        left. right. apply in_three. tauto.
      * left. right. apply in_three. tauto.
Qed.
End InsertBelow.

(** insertInSubtree on a subtree of height [S h]: with fuel for its levels
    it returns, and leaves the subtree (or its two halves, or the tree under
    a new root) with the new entry in its place. *)
Lemma insertInSubtree_spec key rid sk0 : forall h fuel s p lo hi first nxt es fp,
  rep (file s) (S h) p lo hi first nxt es fp ->
  (S h <= fuel)%nat ->
  lo <= kv key < hi -> ~ In (kv key) (map fst es) -> validRid rid ->
  headerOk s ->
  (p = rootPageNum s \/ ~ In (rootPageNum s) fp) ->
  exists r s',
    insertInSubtree fuel (RIDKeyPair_set rid key) p sk0 s = Ok r s' /\
    if Nat.eqb p (rootPageNum s)
    then rootOutcome s s' h lo hi first nxt (insEntry (kv key) rid es) fp
    else insOutcome s s' (S h) p lo hi first nxt (insEntry (kv key) rid es) fp r.
Proof.
  induction h as [|h IH]; intros fuel s p lo hi first nxt es fp Hrep Hfuel Hk Hnew Hrid Hhdr Hroot;
    (destruct fuel as [|fuel]; [lia|]);
    rewrite insertInSubtree_unfold;
    cbn [rep] in Hrep; destruct Hrep as (N & fpc & HN & Hok & Hlvl & Hreps & -> & Hp);
    unfold readNonLeafNode, readPage; unfold bind at 1; unfold bind at 1; rewrite HN;
    cbn [asNonLeaf]; unfold ret at 1; cbn [RIDKeyPair_set rk_key].
  - rewrite Hlvl. change (Z.of_nat 1 =? 1) with true. cbv iota.
    match goal with
    | |- exists r s', bind _ _ ?st = _ /\ _ =>
        destruct (insertBelow_spec 0 key rid
                    (fun q => insertInLeaf (RIDKeyPair_set rid key) q sk0)
                    (fun s q lo hi first nxt es fp H1 H2 H3 _ _ =>
                       insertInLeaf_spec s q lo hi first nxt es fp key rid sk0 H1 H2 H3 Hrid)
                    st p N fpc lo hi first nxt es HN Hok Hlvl Hreps Hp Hk Hnew Hhdr Hroot)
          as (r & s' & Hrun & Hout)
    end.
    exists r, s'. split; [exact Hrun|exact Hout].
  - assert (Hl1 : (level N =? 1) = false).
    { rewrite Hlvl. apply Z.eqb_neq. lia. }
    rewrite Hl1.
    match goal with
    | |- exists r s', bind _ _ ?st = _ /\ _ =>
        destruct (insertBelow_spec (S h) key rid
                    (fun q => insertInSubtree fuel (RIDKeyPair_set rid key) q sk0)) with
          (s := st) (p := p) (N := N) (fpc := fpc) (lo := lo) (hi := hi)
          (first := first) (nxt := nxt) (es := es)
          as (r & s' & Hrun & Hout); try assumption
    end.
    + intros s1 q lo1 hi1 first1 nxt1 es1 fp1 H1 H2 H3 H4 H5.
      destruct (IH fuel s1 q lo1 hi1 first1 nxt1 es1 fp1 H1 ltac:(lia) H2 H3 Hrid H4
                  (or_intror H5)) as (r & s' & Hrun & Hout).
      exists r, s'. split; [exact Hrun|].
      destruct (Nat.eqb_spec q (rootPageNum s1)) as [E|E]; [|exact Hout].
      exfalso. apply H5. rewrite <- E. eapply rep_root. exact H1.
    + exists r, s'. split; [exact Hrun|exact Hout].
Qed.

(** ** insertEntry keeps the tree *)

Lemma kv_bounds k : -1 <= kv k < INF.
Proof. unfold kv, INF. pose proof (keyVal_range k STRINGSIZE). lia. Qed.

Lemma emptyLeaf_spec q :
  let l := lf_setRightSib q freshLeaf in
  leafOk l /\ leafEntries l = [] /\ rightSibPageNo l = q.
Proof.
  split_compute. split; [apply leafOk_leafForm; constructor|]. split; reflexivity.
Qed.

Lemma firstLeaf_spec key rid :
  validRid rid ->
  let l := lf_setRid 0 rid (lf_setKey 0 key (lf_setRightSib INVALID_NUMBER freshLeaf)) in
  leafOk l /\ leafEntries l = [(kv key, rid)] /\ rightSibPageNo l = INVALID_NUMBER.
Proof.
  intros Hrid. destruct rid as [[|rp] rs]; [now elim Hrid|].
  split_compute. rewrite kv_strncpy.
  split; [apply leafOk_leafForm; constructor|]. split; reflexivity.
Qed.

Lemma insertEntry_first_tree fuel key rid s m :
  rootPageNum s = INVALID_NUMBER ->
  lookupPage (file s) (headerPageNum s) = Some (PMeta m) ->
  validRid rid ->
  exists s',
    insertEntry fuel key rid s = Ok tt s' /\
    treeInv s' [(kv key, rid)] 1 /\
    headerPageNum s' = headerPageNum s.
Proof.
  intros Hroot Hhdr Hrid.
  pose proof (lookupPage_bounds _ _ _ Hhdr) as Hb.
  pose proof (kv_bounds key) as Hkv. pose proof (kv_nonneg key) as Hk0.
  unfold insertEntry, bind at 1, gets at 1. rewrite Hroot. cbn [Nat.eqb INVALID_NUMBER].
  unfold insertFirst. mrun. lsimp. rewrite Hhdr. mrun.
  eexists. split; [reflexivity|]. unfold treeInv. mrun.
  split; [|reflexivity].
  cbn [pageAt nth pageNoArray nl_setPage nl_setKey nl_setLevel freshNonLeaf
       list_insert insert repeat NON_LEAF_NUM_KEYS].
  repeat rewrite ?length_writePage, ?length_app. cbn [length].
  replace (length (file s) + 1)%nat with (S (length (file s))) by lia.
  replace (S (length (file s)) + 1)%nat with (S (S (length (file s)))) by lia.
  set (root := S (length (file s))).
  set (leaf1 := S root).
  assert (Hr : root = S (length (file s))) by reflexivity.
  assert (Hl1 : leaf1 = S (S (length (file s)))) by reflexivity.
  clearbody root leaf1.
  destruct (grownRootNode_spec leaf1 leaf1 key 0) as (HokR & HitemsR & HfcR & HlvlR).
  destruct (emptyLeaf_spec (S leaf1)) as (Hok1 & Hes1 & Hsib1).
  destruct (firstLeaf_spec key rid Hrid) as (Hok2 & Hes2 & Hsib2).
  exists 0%nat, leaf1, [root; leaf1; S leaf1]. eexists.
  split; [|split; [lia|lsimp; reflexivity]].
  apply rep_node with (N := grownRootNode leaf1 (S leaf1) key 0).
  - lsimp. reflexivity.
  - exact HokR.
  - exact HlvlR.
  - rewrite HfcR, HitemsR. cbn [reps fst snd].
    exists [], [(kv key, rid)], [leaf1], [S leaf1], (S leaf1).
    split.
    { eexists. split; [lsimp; reflexivity|].
      split; [exact Hok1|]. split; [exact Hes1|]. split; [exact Hsib1|].
      repeat split; try reflexivity. now right. }
    split.
    { eexists. split; [lsimp; reflexivity|].
      split; [exact Hok2|]. split; [exact Hes2|]. split; [exact Hsib2|].
      cbn [ascending fst]. repeat split; try reflexivity; try lia. left. discriminate. }
    split; [reflexivity|]. split; [reflexivity|]. split; [|lia].
    intros x [<-|[]] [E|[]]. lia.
  - intros [E|[E|[]]]; lia.
Qed.

Lemma insertEntry_spec fuel key rid s es n :
  treeInv s es n -> (n <= fuel)%nat ->
  ~ In (kv key) (map fst es) -> validRid rid ->
  exists s',
    insertEntry fuel key rid s = Ok tt s' /\
    treeInv s' (insEntry (kv key) rid es) (S n) /\
    headerPageNum s' = headerPageNum s.
Proof.
  intros (h & first & fp & m & Hrep & Hn & Hm) Hfuel Hnew Hrid.
  destruct (rep_root_page _ _ _ _ _ _ _ _ _ Hrep) as [Hr0 _].
  unfold insertEntry, bind at 1, gets at 1.
  destruct (Nat.eqb_spec (rootPageNum s) INVALID_NUMBER) as [E|_]; [contradiction|].
  destruct (insertInSubtree_spec key rid uninitPageKey h fuel s (rootPageNum s)
              (-1) INF first INVALID_NUMBER es fp Hrep ltac:(lia) (kv_bounds key) Hnew Hrid
              (ex_intro _ m Hm) (or_introl eq_refl))
    as (r & s' & Hrun & Hout).
  rewrite Nat.eqb_refl in Hout.
  destruct Hout as (Hkeep & Hhd & h' & fp' & Hrep' & Hh' & Hg).
  unfold bind, ret. rewrite Hrun.
  exists s'. split; [reflexivity|]. split; [|exact Hhd].
  assert (Hhdr' : headerOk s').
  { apply headerOk_keeps with (s := s) (fp := fp); try assumption.
    - now exists m.
    - intros x Hx. eapply rep_page; eassumption. }
  destruct Hhdr' as [m' Hm'].
  exists h', first, fp', m'. split; [exact Hrep'|]. split; [lia|exact Hm'].
Qed.

(** A run of inserts of new keys with valid record ids. *)
Lemma insertEntries_spec : forall inserted fuel s es n,
  treeInv s es n -> (n + length inserted <= fuel)%nat ->
  NoDup (map (fun x => kv (fst x)) inserted) ->
  (forall x, In x inserted -> ~ In (kv (fst x)) (map fst es)) ->
  Forall (fun x => validRid (snd x)) inserted ->
  exists s',
    insertEntries fuel inserted s = Ok tt s' /\
    treeInv s' (entriesAfter inserted es) (n + length inserted) /\
    headerPageNum s' = headerPageNum s.
Proof.
  induction inserted as [|[key rid] rest IH]; intros fuel s es n Hinv Hfuel Hnd Hnew Hval.
  - exists s. cbn [insertEntries entriesAfter fold_left length]. rewrite Nat.add_0_r.
    split; [reflexivity|]. split; [exact Hinv|reflexivity].
  - cbn [length] in Hfuel. cbn [map fst] in Hnd. inversion Hnd as [|? ? Hnin Hnd']; subst.
    inversion Hval as [|? ? Hrid Hval']; subst. cbn [snd] in Hrid.
    destruct (insertEntry_spec fuel key rid s es n Hinv ltac:(lia)
                (Hnew (key, rid) (or_introl eq_refl)) Hrid) as (s1 & Hrun1 & Hinv1 & Hh1).
    destruct (IH fuel s1 (insEntry (kv key) rid es) (S n) Hinv1 ltac:(lia) Hnd') as
      (s' & Hrun & Hinv' & Hh'); [|exact Hval'|].
    + intros x Hx Hin. apply insEntry_keys in Hin. destruct Hin as [E|Hin].
      * apply Hnin, list_elem_of_In. rewrite <- E.
        apply (in_map (fun x => kv (fst x))). exact Hx.
      * apply (Hnew x (or_intror Hx)). exact Hin.
    + exists s'. cbn [insertEntries]. unfold bind. rewrite Hrun1.
      split; [exact Hrun|]. split; [|congruence].
      cbn [entriesAfter fold_left fst snd length].
      replace (n + S (length rest))%nat with (S n + length rest)%nat by lia. exact Hinv'.
Qed.

(** ** The scan: leaves and the range test *)

Lemma matchRangeWith_inRangeZ lop lv hop hv key :
  matchRangeWith lop lv hop hv key = inRangeZ lop (kv lv) hop (kv hv) (kv key).
Proof.
  unfold matchRangeWith, inRangeZ.
  rewrite strncmp_gtb, strncmp_geb, strncmp_ltb, strncmp_leb. reflexivity.
Qed.

Lemma chain_nil_inv f p : chain f p [] -> p = INVALID_NUMBER.
Proof. intros H. inversion H. reflexivity. Qed.

Lemma chain_cons_inv f p es ess :
  chain f p (es :: ess) ->
  exists l, lookupPage f p = Some (PLeaf l) /\ leafOk l /\ leafEntries l = es /\
            chain f (rightSibPageNo l) ess.
Proof. intros H. inversion H; subst. eauto. Qed.

Lemma chain_frame f f' p ess :
  chain f p ess -> (forall x pg, lookupPage f x = Some pg -> lookupPage f' x = Some pg) ->
  chain f' p ess.
Proof.
  intros H Hsame. induction H as [|p l ess Hl Hok Hch IH]; [constructor|].
  econstructor; eauto.
Qed.

Lemma leaf_rid_valid l i :
  leafOk l -> (i < getLeafLength l)%nat -> validRid (ridAt (ridArray l) i).
Proof.
  intros Hok Hi. unfold validRid.
  leaf_forms Hok; leaf_compute;
    repeat (destruct i as [|i]; [discriminate|]); lia.
Qed.

Lemma nth_map_seq {A} (g : nat -> A) d : forall n a i,
  (i < n)%nat -> nth i (map g (seq a n)) d = g (a + i)%nat.
Proof.
  induction n as [|n IH]; intros a i Hi; [lia|].
  cbn [seq map]. destruct i as [|i]; cbn [nth].
  - now rewrite Nat.add_0_r.
  - rewrite IH by lia. f_equal. lia.
Qed.

Lemma leafEntries_nth l i d :
  (i < getLeafLength l)%nat ->
  nth i (leafEntries l) d = (kv (keyAt (lf_keyArray l) i), ridAt (ridArray l) i).
Proof. intros Hi. unfold leafEntries. now rewrite nth_map_seq. Qed.

Lemma findInLeafLoop_probe lop lv hop hv l : forall todo i,
  findInLeafLoop todo i lop lv hop hv l =
  probe (fun e => inRangeZ lop (kv lv) hop (kv hv) (fst e)) (kv hv)
        (map (fun i => (kv (keyAt (lf_keyArray l) i), ridAt (ridArray l) i)) (seq i todo)) i.
Proof.
  induction todo as [|todo IH]; intros i; [reflexivity|].
  cbn [findInLeafLoop seq map probe fst].
  rewrite matchRangeWith_inRangeZ, strncmp_gtb, IH. reflexivity.
Qed.

(** ** The range test on ascending entries *)

Lemma inRangeZ_below lop lo hop hi k : k < lo -> inRangeZ lop lo hop hi k = false.
Proof.
  intros H. unfold inRangeZ.
  destruct (Operator_eqb lop GT);
    [destruct (Z.ltb_spec lo k)|destruct (Z.leb_spec lo k)]; try lia; reflexivity.
Qed.

Lemma inRangeZ_above lop lo hop hi k : hi < k -> inRangeZ lop lo hop hi k = false.
Proof.
  intros H. unfold inRangeZ. apply andb_false_intro2.
  destruct (Operator_eqb hop LT);
    [destruct (Z.ltb_spec k hi)|destruct (Z.leb_spec k hi)]; try lia; reflexivity.
Qed.

(** Once the test has held, it fails for good at the first larger key
    where it fails. *)
Lemma inRangeZ_convex lop lo hop hi x y z :
  inRangeZ lop lo hop hi x = true -> inRangeZ lop lo hop hi y = false ->
  x <= y -> y <= z -> inRangeZ lop lo hop hi z = false.
Proof.
  unfold inRangeZ. intros Hx Hy Hxy Hyz.
  destruct (Operator_eqb lop GT), (Operator_eqb hop LT);
    repeat match goal with
           | H : context [(?a <? ?b)] |- _ => destruct (Z.ltb_spec a b)
           | H : context [(?a <=? ?b)] |- _ => destruct (Z.leb_spec a b)
           | |- context [(?a <? ?b)] => destruct (Z.ltb_spec a b)
           | |- context [(?a <=? ?b)] => destruct (Z.leb_spec a b)
           end;
    cbn [andb] in *; try discriminate; try reflexivity; lia.
Qed.

(** ** findInLeaf *)

Lemma probe_found P hi : forall es k i,
  probe P hi es k = Found i -> (k <= i < k + length es)%nat.
Proof.
  induction es as [|e t IH]; intros k i H; cbn [probe] in H; [discriminate|].
  cbn [length]. destruct (P e); [injection H as <-; lia|].
  destruct (hi <? fst e); [discriminate|].
  apply IH in H. lia.
Qed.

Lemma chain_invalid f ess : chain f INVALID_NUMBER ess -> ess = [].
Proof. intros H. inversion H as [|p l ess' Hl]; [reflexivity|]. discriminate Hl. Qed.

Lemma chain_valid f p es ess : chain f p (es :: ess) -> p <> INVALID_NUMBER.
Proof. intros H E. subst p. apply chain_invalid in H. discriminate. Qed.

Lemma findInLeaf_spec lop lv hop hv res : forall ess fuel s p,
  chain (file s) p ess -> ess <> [] ->
  currentPageNum s = p -> currentPageData s = Some p ->
  rangeIs s lop lv hop hv -> scanExecuting s = true ->
  (length ess <= fuel)%nat ->
  leafSearch (file s) lop lv hop hv res (findInLeaf fuel p res s) ess.
Proof.
  induction ess as [|es rest IH]; intros fuel s p Hch Hne Hcur Hdata Hrng Hexec Hfuel;
    [now elim Hne|].
  destruct (chain_cons_inv _ _ _ _ Hch) as (l & Hl & Hok & Hes & Hrest).
  destruct fuel as [|fuel]; [cbn [length] in Hfuel; lia|].
  destruct Hrng as (Hlo & Hlv & Hho & Hhv).
  unfold leafSearch. cbn [findFirst findInLeaf].
  unfold currentLeaf. mrun. rewrite Hdata. mrun. rewrite Hl. mrun.
  rewrite Hlo, Hlv, Hho, Hhv.
  rewrite findInLeafLoop_probe. fold (leafEntries l). rewrite Hes.
  unfold rangeTest at 1.
  destruct (probe (fun e : entry => inRangeZ lop (kv lv) hop (kv hv) (fst e)) (kv hv) es 0)
    as [i| |] eqn:Hprobe.
  - apply probe_found in Hprobe. mrun.
    exists (set_nextEntry i s), (ridAt (ridArray l) i), [], es, rest. mrun.
    assert (Hi : (i < getLeafLength l)%nat).
    { rewrite <- leafEntries_length, Hes. lia. }
    split; [reflexivity|]. split; [now apply leaf_rid_valid|].
    split; [reflexivity|]. split; [now repeat split|].
    split; [exact Hexec|]. split; [reflexivity|]. split; [reflexivity|].
    split; [lia|]. split; [rewrite Hcur; exact Hch|].
    split; [now rewrite Hcur|reflexivity].
  - mrun. exists s. auto.
  - destruct (Nat.eqb_spec (rightSibPageNo l) INVALID_NUMBER) as [E|E]; cbn [negb].
    + rewrite E in Hrest. apply chain_invalid in Hrest. subst rest.
      cbn [findFirst]. mrun. exists s. auto.
    + destruct rest as [|es1 rest']; [apply chain_nil_inv in Hrest; contradiction|].
      destruct (chain_cons_inv _ _ _ _ Hrest) as (l1 & Hl1 & _).
      unfold readCurrentPage. mrun. rewrite Hl1. mrun.
      match goal with
      | |- context [findInLeaf fuel _ res ?st] =>
          pose proof (IH fuel st (rightSibPageNo l)) as IH'
      end.
      mrun.
      specialize (IH' Hrest ltac:(discriminate) eq_refl eq_refl
                      (conj Hlo (conj Hlv (conj Hho Hhv))) Hexec
                      ltac:(cbn [length] in *; lia)).
      unfold leafSearch in IH'.
      destruct (findFirst (rangeTest lop lv hop hv) (kv hv) (es1 :: rest')) as [[j i]|].
      * destruct IH' as (s' & rid & pre & es0 & rest0 & Hr & Hrid & Hf & Hrng' & Hex' & Hess
                         & Hpre & Hi & Hch' & Hdata' & Hne').
        exists s', rid, (es :: pre), es0, rest0. rewrite Hess.
        repeat split; try assumption; try (destruct Hrng' as (?&?&?&?); assumption).
        cbn [length]. now rewrite Hpre.
      * exact IH'.
Qed.

(** ** Leaves of a subtree in the chain *)

Lemma nonEmpties_app a b : nonEmpties a -> nonEmpties b -> nonEmpties (a ++ b).
Proof. intros Ha Hb. apply Forall_app. now split. Qed.

Lemma nonEmpties_tl a : nonEmpties a -> nonEmpties (tl a).
Proof. intros Ha. destruct a; [constructor|]. now inversion Ha. Qed.

Lemma nonEmpties_length ess : nonEmpties ess -> (length ess <= length (concat ess))%nat.
Proof.
  induction 1 as [|es ess Hes _ IH]; [cbn; lia|].
  cbn [concat length]. rewrite length_app. destruct es; [now elim Hes|]. cbn [length]. lia.
Qed.

Section ChildrenChain.
Variable f : list Page.
Variable R : PageId -> Z -> Z -> PageId -> PageId -> list entry -> list PageId -> Prop.
Hypothesis Rchained : chained f R.
Hypothesis Rbounds :
  forall c lo hi first nxt es fp e,
    R c lo hi first nxt es fp -> In e es -> lo <= fst e < hi.

Lemma reps_chain c0 items : forall lo hi first nxt es fp essT,
  reps R c0 items lo hi first nxt es fp -> -1 <= lo ->
  chain f nxt essT -> nonEmpties essT ->
  exists ess,
    chain f first (ess ++ essT) /\ concat ess = es /\ ess <> [] /\
    nonEmpties (tl ess) /\ (0 <= lo -> nonEmpties ess).
Proof.
  revert c0. induction items as [|it rest IH]; intros c0 lo hi first nxt es fp essT H Hlo Hch Hne;
    cbn [reps] in H.
  - eapply Rchained; eassumption.
  - destruct H as (es1 & es2 & fp1 & fp2 & mid & H1 & H2 & -> & -> & Hd & Hk).
    destruct (IH _ _ _ _ _ _ _ essT H2 ltac:(lia) Hch Hne)
      as (ess2 & Hch2 & Hc2 & Hn2 & Ht2 & Hall2).
    specialize (Hall2 ltac:(lia)).
    destruct (Rchained _ _ _ _ _ _ _ (ess2 ++ essT) H1 Hlo Hch2
                (nonEmpties_app _ _ Hall2 Hne))
      as (ess1 & Hch1 & Hc1 & Hn1 & Ht1 & Hall1).
    exists (ess1 ++ ess2). rewrite <- app_assoc. split; [exact Hch1|].
    split; [now rewrite concat_app, Hc1, Hc2|].
    split; [destruct ess1; [now elim Hn1|discriminate]|].
    split.
    + destruct ess1 as [|e1 t1]; [now elim Hn1|]. cbn [tl app] in *.
      now apply nonEmpties_app.
    + intros H0. apply nonEmpties_app; auto.
Qed.

Lemma reps_descend_chain c0 items k : forall lo hi first nxt es fp essT,
  reps R c0 items lo hi first nxt es fp -> lo <= k < hi -> -1 <= lo ->
  chain f nxt essT -> nonEmpties essT ->
  exists lo' hi' first' nxt' esL esC fpC essT',
    R (descend k c0 items) lo' hi' first' nxt' esC fpC /\
    lo' <= k < hi' /\ -1 <= lo' /\
    chain f nxt' essT' /\ nonEmpties essT' /\
    es ++ concat essT = esL ++ esC ++ concat essT' /\
    (forall e, In e esL -> fst e < k).
Proof.
  revert c0. induction items as [|it rest IH]; intros c0 lo hi first nxt es fp essT H Hk Hlo Hch Hne;
    cbn [reps descend] in *.
  - exists lo, hi, first, nxt, [], es, fp, essT. repeat split; try assumption; try lia.
    intros e [].
  - destruct H as (es1 & es2 & fp1 & fp2 & mid & H1 & H2 & -> & -> & Hd & Hit).
    destruct (Z.ltb_spec k (fst it)) as [Hlt|Hge].
    + destruct (reps_chain _ _ _ _ _ _ _ _ essT H2 ltac:(lia) Hch Hne)
        as (ess2 & Hch2 & Hc2 & Hn2 & Ht2 & Hall2).
      specialize (Hall2 ltac:(lia)).
      exists lo, (fst it), first, mid, [], es1, fp1, (ess2 ++ essT).
      split; [exact H1|]. split; [lia|]. split; [lia|]. split; [exact Hch2|].
      split; [now apply nonEmpties_app|].
      split; [now rewrite concat_app, Hc2, <- app_assoc|intros e []].
    + destruct (IH _ _ _ _ _ _ _ essT H2 ltac:(lia) ltac:(lia) Hch Hne)
        as (lo' & hi' & first' & nxt' & esL & esC & fpC & essT' &
            HC & Hkk & Hlo' & Hch' & Hne' & Hes & HL).
      exists lo', hi', first', nxt', (es1 ++ esL), esC, fpC, essT'.
      split; [exact HC|]. split; [lia|]. split; [lia|]. split; [exact Hch'|].
      split; [exact Hne'|]. split; [now rewrite <- !app_assoc, Hes|].
      intros e He. apply in_app_or in He. destruct He as [He|He]; [|now apply HL].
      pose proof (Rbounds _ _ _ _ _ _ _ _ H1 He). lia.
Qed.
End ChildrenChain.

Lemma rep_chained f h : chained f (rep f h).
Proof.
  induction h as [|h IH]; intros p lo hi first nxt es fp essT H Hlo Hch Hne; cbn [rep] in H.
  - destruct H as (l & Hl & Hok & <- & <- & Hasc & -> & -> & Hnonempty).
    exists [leafEntries l]. cbn [app concat tl].
    split; [now constructor|]. split; [apply app_nil_r|]. split; [discriminate|].
    split; [constructor|]. intros H0. constructor; [|constructor].
    destruct Hnonempty; [assumption|lia].
  - destruct H as (N & fpc & _ & _ & _ & Hreps & _).
    eapply reps_chain; eassumption.
Qed.

(** ** findInSubtree *)

Lemma endScan_running_ok s :
  scanExecuting s = true ->
  exists s', endScan s = Ok tt s' /\ file s' = file s /\ scanExecuting s' = false.
Proof.
  intros H. unfold endScan. mrun. rewrite H. cbn [negb]. mrun.
  destruct (Nat.eqb (currentPageNum s) INVALID_NUMBER); cbn [negb]; mrun;
    eexists; (split; [reflexivity|]); mrun; split; reflexivity.
Qed.

Lemma findInSubtree_spec lop lv hop hv : forall h fuel s p lo hi first nxt es fp essT,
  rep (file s) (S h) p lo hi first nxt es fp -> lo <= kv lv < hi -> -1 <= lo ->
  chain (file s) nxt essT -> nonEmpties essT ->
  rangeIs s lop lv hop hv -> scanExecuting s = true ->
  (S h + 1 + length es + length (concat essT) <= fuel)%nat ->
  exists esL ess,
    es ++ concat essT = esL ++ concat ess /\
    (forall e, In e esL -> fst e < kv lv) /\
    nonEmpties (tl ess) /\
    scanStart (file s) lop lv hop hv (findInSubtree fuel p s) ess.
Proof.
  induction h as [|h IH];
    intros fuel s p lo hi first nxt es fp essT Hrep Hk Hlo Hch Hne Hrng Hexec Hfuel;
    (destruct fuel as [|fuel]; [lia|]);
    cbn [rep] in Hrep; destruct Hrep as (N & fpc & HN & Hok & Hlvl & Hreps & -> & Hp);
    destruct (nodeItems_cons N Hok) as (it0 & rest0 & Hitems);
    assert (Hasc : itemsAscending lo hi (nodeItems N))
      by (rewrite Hitems in *; eapply reps_routers; exact Hreps);
    pose proof Hrng as (Hlop & Hlv & Hhop & Hhv);
    cbn [findInSubtree]; mrun; rewrite HN; mrun; rewrite Hlop, Hlv;
    rewrite (findChildIndex_spec N lop lv lo hi Hok Hasc);
    rewrite Hlvl.
  - change (negb (Z.of_nat 1 =? 1)) with false. cbv iota.
    destruct (reps_descend_chain (file s) (rep (file s) 0) (rep_chained (file s) 0)
                (rep_bounds (file s) 0) _ _ (kv lv) _ _ _ _ _ _ essT Hreps Hk Hlo Hch Hne)
      as (lo' & hi' & first' & nxt' & esL & esC & fpC & essT' &
          HC & Hkk & Hlo' & Hch' & Hne' & Hes & HL).
    set (q := descend (kv lv) (nodeFirstChild N) (nodeItems N)) in *.
    cbn [rep] in HC. destruct HC as (l & Hl & Hokl & HesC & Hsib & _ & -> & -> & _).
    assert (Hchq : chain (file s) q (esC :: essT')).
    { rewrite <- HesC. econstructor; [exact Hl|exact Hokl|]. now rewrite Hsib. }
    exists esL, (esC :: essT'). cbn [concat tl].
    split; [exact Hes|]. split; [exact HL|]. split; [exact Hne'|].
    unfold readCurrentPage. mrun. rewrite Hl. mrun.
    match goal with
    | |- context [findInLeaf (S fuel) q ?res ?st] =>
        pose proof (findInLeaf_spec lop lv hop hv res (esC :: essT') (S fuel) st q
                      Hchq ltac:(discriminate) eq_refl eq_refl Hrng Hexec) as Hleaf
    end.
    assert (Hlen : (length (esC :: essT') <= S fuel)%nat).
    { cbn [length]. pose proof (nonEmpties_length _ Hne') as Hn.
      assert (Hl2 : length (es ++ concat essT) = length (esL ++ esC ++ concat essT'))
        by now rewrite Hes.
      rewrite !length_app in Hl2. lia. }
    specialize (Hleaf Hlen). unfold leafSearch in Hleaf. unfold scanStart.
    mrun.
    destruct (findFirst (rangeTest lop lv hop hv) (kv hv) (esC :: essT')) as [[j i]|].
    + destruct Hleaf as (s' & rid & pre & es0 & rest & Hr & Hrid & Hf & Hrng' & Hex' & Hess
                         & Hpre & Hi & Hch2 & Hdata' & Hne2).
      rewrite Hr. destruct (Nat.eqb_spec (page_number rid) INVALID_NUMBER) as [E|_];
        [now elim Hrid|].
      exists s', pre, es0, rest. auto 12.
    + destruct Hleaf as (s' & Hr & Hf & Hex').
      rewrite Hr. cbn [page_number Nat.eqb INVALID_NUMBER].
      destruct (endScan_running_ok s' Hex') as (s2 & He & Hf2 & Hex2).
      rewrite He. exists s2. split; [reflexivity|]. split; [congruence|exact Hex2].
  - assert (Hl1 : (Z.of_nat (S (S h)) =? 1) = false) by (apply Z.eqb_neq; lia).
    rewrite Hl1. cbn [negb]. mrun.
    destruct (reps_descend_chain (file s) (rep (file s) (S h)) (rep_chained (file s) (S h))
                (rep_bounds (file s) (S h)) _ _ (kv lv) _ _ _ _ _ _ essT Hreps Hk Hlo Hch Hne)
      as (lo' & hi' & first' & nxt' & esL & esC & fpC & essT' &
          HC & Hkk & Hlo' & Hch' & Hne' & Hes & HL).
    set (q := descend (kv lv) (nodeFirstChild N) (nodeItems N)) in *.
    assert (Hl2 : length (es ++ concat essT) = length (esL ++ esC ++ concat essT'))
      by now rewrite Hes.
    rewrite !length_app in Hl2.
    match goal with
    | |- context [findInSubtree fuel q ?st] =>
        destruct (IH fuel st q lo' hi' first' nxt' esC fpC essT' HC Hkk Hlo' Hch' Hne'
                    Hrng Hexec ltac:(lia))
          as (esL2 & ess & Hes2 & HL2 & Hne2 & Hstart)
    end.
    exists (esL ++ esL2), ess.
    split; [rewrite Hes, <- app_assoc; f_equal; exact Hes2|].
    split; [|split; [exact Hne2|exact Hstart]].
    intros e He. apply in_app_or in He. destruct He; auto.
Qed.

(** ** scanNext, one entry at a time *)

Lemma drop_nth_cons {A} (l : list A) i d :
  (i < length l)%nat -> drop i l = nth i l d :: drop (S i) l.
Proof.
  revert i. induction l as [|x l IH]; intros i Hi; cbn [length] in Hi; [lia|].
  destruct i as [|i]; [reflexivity|]. cbn [drop nth]. apply IH. lia.
Qed.

Lemma scanTest_rangeTest s lop lv hop hv e :
  rangeIs s lop lv hop hv -> scanTest s e = rangeTest lop lv hop hv e.
Proof. intros (<- & <- & <- & <-). reflexivity. Qed.

Lemma scanNext_done s :
  scanExecuting s = true -> currentPageNum s = INVALID_NUMBER ->
  exists s', scanNext s = Raise IndexScanCompletedException s' /\
             file s' = file s /\ scanExecuting s' = false.
Proof.
  intros Hex Hcur. unfold scanNext. mrun. rewrite Hex. cbn [negb]. rewrite Hcur.
  cbn [Nat.eqb INVALID_NUMBER]. mrun.
  destruct (endScan_running_ok s Hex) as (s' & He & Hf & Hex').
  rewrite He. exists s'. auto.
Qed.

(** On an entry in range scanNext hands out its record id and moves on; on
    an entry out of range it ends the scan. *)
Lemma scanNext_entry s p l essT lop lv hop hv :
  scanExecuting s = true -> currentPageNum s = p -> currentPageData s = Some p ->
  lookupPage (file s) p = Some (PLeaf l) -> leafOk l ->
  chain (file s) (rightSibPageNo l) essT -> nonEmpties essT ->
  (nextEntry s < getLeafLength l)%nat ->
  rangeIs s lop lv hop hv ->
  let e := nth (nextEntry s) (leafEntries l) (0, mkRid INVALID_NUMBER INVALID_SLOT) in
  if rangeTest lop lv hop hv e then
    exists s',
      scanNext s = Ok (snd e) s' /\
      scanAt s' (drop (S (nextEntry s)) (leafEntries l) ++ concat essT) /\
      file s' = file s /\ rangeIs s' lop lv hop hv
  else
    exists s',
      scanNext s = Raise IndexScanCompletedException s' /\
      file s' = file s /\ scanExecuting s' = false.
Proof.
  intros Hex Hcur Hdata Hl Hok Hch Hne Hi Hrng e.
  pose proof (lookupPage_bounds _ _ _ Hl) as Hb.
  pose proof (leaf_length_bound l) as Hlen.
  assert (He : e = (kv (keyAt (lf_keyArray l) (nextEntry s)),
                    ridAt (ridArray l) (nextEntry s))).
  { subst e. now apply leafEntries_nth. }
  destruct Hrng as (Hlop & Hlv & Hhop & Hhv).
  unfold scanNext, currentLeaf, matchRange. mrun. rewrite Hex. cbn [negb]. rewrite Hcur.
  destruct (Nat.eqb_spec p INVALID_NUMBER) as [E|_]; [unfold INVALID_NUMBER in E; lia|].
  rewrite Hdata. mrun. rewrite Hl. mrun.
  destruct (Nat.leb_spec LEAF_NUM_KEYS (nextEntry s)) as [Hbad|_]; [lia|].
  rewrite matchRangeWith_inRangeZ, Hlop, Hlv, Hhop, Hhv.
  unfold rangeTest. rewrite He. cbn [fst snd].
  destruct (inRangeZ lop (kv lv) hop (kv hv) (kv (keyAt (lf_keyArray l) (nextEntry s))));
    cbn [negb].
  - destruct (Nat.eqb_spec (S (nextEntry s)) (getLeafLength l)) as [Elast|Hmore].
    + assert (Hdrop : drop (S (nextEntry s)) (leafEntries l) = []).
      { apply drop_ge. rewrite leafEntries_length. lia. }
      rewrite Hdrop. cbn [app].
      destruct (Nat.eqb_spec (rightSibPageNo l) INVALID_NUMBER) as [E|E]; cbn [negb].
      * rewrite E in Hch. apply chain_invalid in Hch. subst essT. mrun.
        eexists. split; [reflexivity|]. mrun.
        split; [|split; [reflexivity|repeat split; assumption]].
        apply scanAt_done; mrun; [exact Hex|exact E].
      * destruct essT as [|es1 rest]; [apply chain_nil_inv in Hch; contradiction|].
        destruct (chain_cons_inv _ _ _ _ Hch) as (l1 & Hl1 & _).
        unfold readCurrentPage. mrun. rewrite Hl1. mrun.
        eexists. split; [reflexivity|]. mrun.
        split; [|split; [reflexivity|repeat split; assumption]].
        inversion Hne as [|? ? Hes1 Hrest']; subst.
        change (concat (es1 :: rest)) with (drop 0 es1 ++ concat rest).
        match goal with
        | |- scanAt ?st _ =>
            change 0%nat with (nextEntry st) at 1;
            apply (scanAt_entry st (rightSibPageNo l) es1 rest)
        end; mrun; try reflexivity; try assumption.
        destruct es1; [now elim Hes1|cbn [length]; lia].
    + mrun. eexists. split; [reflexivity|]. mrun.
      split; [|split; [reflexivity|repeat split; assumption]].
      match goal with
      | |- scanAt ?st _ =>
          change (S (nextEntry s)) with (nextEntry st);
          apply (scanAt_entry st p (leafEntries l) essT)
      end; mrun; try reflexivity; try assumption.
      * econstructor; eassumption.
      * rewrite leafEntries_length. lia.
  - destruct (endScan_running_ok s Hex) as (s' & Hend & Hf & Hex').
    rewrite Hend. exists s'. auto.
Qed.

Lemma scanLoop_spec lop lv hop hv : forall fuel rem s,
  scanAt s rem -> rangeIs s lop lv hop hv -> (length rem < fuel)%nat ->
  exists s',
    scanLoop fuel s = Ok (map snd (whileTrue (rangeTest lop lv hop hv) rem)) s' /\
    file s' = file s /\ scanExecuting s' = false.
Proof.
  induction fuel as [|fuel IH]; intros rem s Hat Hrng Hfuel; [lia|].
  cbn [scanLoop].
  destruct Hat as [Hex Hcur|p es0 essT Hex Hcur Hdata Hch Hi Hne].
  - destruct (scanNext_done s Hex Hcur) as (s' & Hr & Hf & Hex').
    rewrite Hr. exists s'. auto.
  - destruct (chain_cons_inv _ _ _ _ Hch) as (l & Hl & Hok & Hes & Hrest). subst es0.
    rewrite (drop_nth_cons (leafEntries l) _ (0, mkRid INVALID_NUMBER INVALID_SLOT) Hi) in *.
    cbn [app whileTrue map] in *.
    assert (Hfuel' : (length (drop (S (nextEntry s)) (leafEntries l) ++ concat essT) < fuel)%nat).
    { cbn [length] in Hfuel. lia. }
    pose proof (scanNext_entry s p l essT lop lv hop hv Hex Hcur Hdata Hl Hok Hrest Hne
                  ltac:(rewrite <- leafEntries_length; exact Hi) Hrng) as Hstep.
    cbv zeta in Hstep.
    destruct (rangeTest lop lv hop hv
                (nth (nextEntry s) (leafEntries l) (0, mkRid INVALID_NUMBER INVALID_SLOT))).
    + destruct Hstep as (s1 & Hr & Hat1 & Hf1 & Hrng1). rewrite Hr.
      destruct (IH _ s1 Hat1 Hrng1 Hfuel') as (s' & Hloop & Hf' & Hex').
      rewrite Hloop. exists s'. cbn [map]. split; [reflexivity|]. split; [congruence|exact Hex'].
    + destruct Hstep as (s' & Hr & Hf & Hex'). rewrite Hr. exists s'. auto.
Qed.

(** ** From the first entry in range to the last *)

Lemma fromFirst_none P es :
  (forall e, In e es -> P e = false) -> fromFirst P es = [].
Proof.
  induction es as [|e t IH]; intros H; [reflexivity|]. cbn [fromFirst].
  rewrite (H e (or_introl eq_refl)). apply IH. intros x Hx. apply H. now right.
Qed.

Lemma fromFirst_app_none P a b :
  (forall e, In e a -> P e = false) -> fromFirst P (a ++ b) = fromFirst P b.
Proof.
  induction a as [|e t IH]; intros H; [reflexivity|]. cbn [fromFirst app].
  rewrite (H e (or_introl eq_refl)). apply IH. intros x Hx. apply H. now right.
Qed.

Lemma filter_none (P : entry -> bool) es :
  (forall e, In e es -> P e = false) -> List.filter P es = [].
Proof.
  induction es as [|e t IH]; intros H; [reflexivity|]. cbn [List.filter].
  rewrite (H e (or_introl eq_refl)). apply IH. intros x Hx. apply H. now right.
Qed.

(** What the loop over one leaf has seen when it ends. *)
Lemma probe_spec P hi : forall es k,
  match probe P hi es k with
  | Found i =>
      (k <= i < k + length es)%nat /\
      (forall e, In e (take (i - k) es) -> P e = false) /\
      fromFirst P es = drop (i - k) es /\
      forall d, P (nth (i - k) es d) = true
  | PastHigh =>
      exists a e b, es = a ++ e :: b /\ hi < fst e /\
                    forall x, In x (a ++ [e]) -> P x = false
  | Exhausted => forall e, In e es -> P e = false
  end.
Proof.
  induction es as [|e t IH]; intros k; cbn [probe]; [intros e []|].
  destruct (P e) eqn:HP.
  - rewrite Nat.sub_diag. cbn [take drop nth fromFirst length]. rewrite HP.
    split; [lia|]. split; [intros x []|]. split; [reflexivity|]. intros _. reflexivity.
  - destruct (Z.ltb_spec hi (fst e)) as [Hhi|Hhi].
    + exists [], e, t. split; [reflexivity|]. split; [exact Hhi|].
      intros x [<-|[]]. exact HP.
    + specialize (IH (S k)). destruct (probe P hi t (S k)) as [i| |].
      * destruct IH as (Hi & Hbefore & Hfrom & Hnth).
        replace (i - k)%nat with (S (i - S k)) by lia.
        cbn [take drop nth fromFirst length]. rewrite HP.
        split; [lia|]. split; [|split; [exact Hfrom|exact Hnth]].
        intros x [<-|Hx]; [exact HP|now apply Hbefore].
      * destruct IH as (a & x & b & -> & Hx & Hall).
        exists (e :: a), x, b. split; [reflexivity|]. split; [exact Hx|].
        intros y [<-|Hy]; [exact HP|now apply Hall].
      * intros x [<-|Hx]; [exact HP|now apply IH].
Qed.

(** What findInLeaf has seen over a chain of leaves. *)
Lemma findFirst_spec P hi : forall ess,
  match findFirst P hi ess with
  | Some (j, i) =>
      forall pre es0 rest,
        ess = pre ++ es0 :: rest -> length pre = j ->
        (i < length es0)%nat /\
        fromFirst P (concat ess) = drop i es0 ++ concat rest
  | None =>
      (forall e, In e (concat ess) -> P e = false) \/
      exists a e b, concat ess = a ++ e :: b /\ hi < fst e /\
                    forall x, In x (a ++ [e]) -> P x = false
  end.
Proof.
  induction ess as [|es ess IH]; cbn [findFirst concat]; [left; intros e []|].
  pose proof (probe_spec P hi es 0) as Hp.
  destruct (probe P hi es 0) as [i| |].
  - destruct Hp as (Hi & Hbefore & Hfrom & Hnth). rewrite Nat.sub_0_r in *.
    intros pre es0 rest Hess Hpre. destruct pre; [|discriminate].
    cbn [app] in Hess. injection Hess as <- <-.
    split; [lia|].
    rewrite <- (take_drop i es) at 1. rewrite <- app_assoc.
    rewrite fromFirst_app_none by exact Hbefore.
    rewrite (drop_nth_cons es i (0, mkRid INVALID_NUMBER INVALID_SLOT)) by lia.
    cbn [app fromFirst]. now rewrite Hnth.
  - right. destruct Hp as (a & e & b & -> & He & Hall).
    exists a, e, (b ++ concat ess). rewrite <- app_assoc. auto.
  - destruct (findFirst P hi ess) as [[j i]|].
    + intros pre es0 rest Hess Hpre. destruct pre as [|x pre]; [discriminate|].
      cbn [app length] in *. injection Hess as <- ->. injection Hpre as Hpre.
      destruct (IH pre es0 rest eq_refl Hpre) as [Hi Hfrom].
      split; [exact Hi|]. now rewrite fromFirst_app_none.
    + destruct IH as [IH|(a & e & b & Hc & He & Hall)].
      * left. intros e He. apply in_app_or in He. destruct He; auto.
      * right. exists (es ++ a), e, b. rewrite Hc, <- !app_assoc.
        split; [reflexivity|]. split; [exact He|].
        intros x Hx. apply in_app_or in Hx. destruct Hx as [Hx|Hx]; auto.
Qed.

Section Ascending.
Variables (lop : Operator) (lv : list byte) (hop : Operator) (hv : list byte).
Let P := rangeTest lop lv hop hv.

Lemma rangeTest_below e : fst e < kv lv -> P e = false.
Proof. apply inRangeZ_below. Qed.

Lemma rangeTest_above e : kv hv < fst e -> P e = false.
Proof. apply inRangeZ_above. Qed.

Lemma filter_after_fail lo hi x t :
  ascending lo hi t -> fst x < lo -> P x = false ->
  forall y, P y = true -> fst y <= fst x ->
  List.filter P t = [].
Proof.
  intros Hasc Hlo Hx y Hy Hyx. apply filter_none. intros e He.
  pose proof (ascending_bounds _ _ _ _ Hasc He).
  unfold P, rangeTest in *. eapply inRangeZ_convex; [exact Hy|exact Hx|lia|lia].
Qed.

Lemma filter_whileTrue_from y : forall t lo hi,
  ascending lo hi t -> P y = true -> fst y < lo ->
  List.filter P t = whileTrue P t.
Proof.
  induction t as [|x t IH]; intros lo hi Hasc Hy Hlo; [reflexivity|].
  cbn [ascending] in Hasc. destruct Hasc as [Hx Ht].
  cbn [List.filter whileTrue]. destruct (P x) eqn:HPx.
  - f_equal. eapply IH; [exact Ht|exact Hy|lia].
  - apply (filter_after_fail (fst x + 1) hi x t Ht ltac:(lia) HPx y Hy ltac:(lia)).
Qed.

Lemma filter_fromFirst : forall es lo hi,
  ascending lo hi es -> List.filter P es = whileTrue P (fromFirst P es).
Proof.
  induction es as [|e t IH]; intros lo hi Hasc; [reflexivity|].
  cbn [ascending] in Hasc. destruct Hasc as [He Ht].
  cbn [List.filter fromFirst]. destruct (P e) eqn:HPe.
  - cbn [whileTrue]. rewrite HPe. f_equal.
    eapply filter_whileTrue_from; [exact Ht|exact HPe|lia].
  - eapply IH. exact Ht.
Qed.

Lemma filter_past_high lo hi a e b :
  ascending lo hi (a ++ e :: b) -> kv hv < fst e ->
  (forall x, In x (a ++ [e]) -> P x = false) ->
  List.filter P (a ++ e :: b) = [].
Proof.
  intros Hasc He Hall. apply filter_none. intros x Hx.
  apply in_app_or in Hx. destruct Hx as [Hx|[<-|Hx]].
  - apply Hall, in_or_app. now left.
  - apply Hall, in_or_app. right. now left.
  - apply rangeTest_above.
    destruct (ascending_app_inv _ _ _ _ Hasc) as (_ & Hb & _).
    cbn [ascending] in Hb. destruct Hb as [_ Hb].
    pose proof (ascending_bounds _ _ _ _ Hb Hx). lia.
Qed.

Lemma filter_skip a b :
  (forall e, In e a -> fst e < kv lv) ->
  List.filter P (a ++ b) = List.filter P b.
Proof.
  intros H. rewrite List.filter_app, filter_none; [reflexivity|].
  intros e He. apply rangeTest_below. now apply H.
Qed.
End Ascending.

(** ** A whole scan *)

Lemma endScan_root s s' : endScan s = Ok tt s' -> rootPageNum s' = rootPageNum s.
Proof.
  unfold endScan. mrun. destruct (scanExecuting s); cbn [negb]; [|discriminate].
  destruct (Nat.eqb (currentPageNum s) INVALID_NUMBER); cbn [negb]; mrun;
    intros H; injection H as <-; reflexivity.
Qed.

Lemma fromFirst_length P es : (length (fromFirst P es) <= length es)%nat.
Proof.
  induction es as [|e t IH]; [reflexivity|]. cbn [fromFirst].
  destruct (P e); cbn [length]; lia.
Qed.

Lemma nonEmpties_suffix (pre : list (list entry)) es0 rest :
  nonEmpties (tl (pre ++ es0 :: rest)) -> nonEmpties rest.
Proof.
  destruct pre as [|x pre]; cbn [app tl]; [auto|].
  intros H. apply Forall_app in H. destruct H as [_ H]. now inversion H.
Qed.

Lemma fromFirst_filter_nil (P : entry -> bool) es :
  List.filter P es = [] -> fromFirst P es = [].
Proof.
  induction es as [|e t IH]; [reflexivity|]. cbn [List.filter fromFirst].
  destruct (P e); [discriminate|exact IH].
Qed.

(** startScan on a tree that holds the entries [es]: the cursor is put on
    the first entry in range; without one the scan is ended and
    NoSuchKeyFound raised. *)
Lemma startScan_spec fuel lv lop hv hop s es n :
  treeInv s es n -> goodOpcodes lop hop -> strncmp lv hv STRINGSIZE <= 0 ->
  (n + 1 + length es <= fuel)%nat ->
  match fromFirst (rangeTest lop lv hop hv) es with
  | [] =>
      exists s',
        startScan fuel lv lop hv hop s = Raise NoSuchKeyFoundException s' /\
        file s' = file s /\ scanExecuting s' = false
  | e :: rem =>
      exists s',
        startScan fuel lv lop hv hop s = Ok tt s' /\
        scanAt s' (e :: rem) /\ rangeIs s' lop lv hop hv /\ file s' = file s
  end.
Proof.
  intros (h & first & fp & m & Hrep & Hn & Hm) Hops Hrange Hfuel.
  assert (Hpre : exists s1, (if scanExecuting s then endScan else ret tt) s = Ok tt s1 /\
                            file s1 = file s /\ rootPageNum s1 = rootPageNum s).
  { destruct (scanExecuting s) eqn:Hex.
    - destruct (endScan_running_ok s Hex) as (s1 & He & Hf & _).
      exists s1. split; [exact He|]. split; [exact Hf|]. now apply endScan_root.
    - exists s. auto. }
  destruct Hpre as (s1 & Hpre & Hf1 & Hr1).
  assert (Hgt : (strncmp lv hv STRINGSIZE >? 0) = false).
  { unfold Z.gtb. destruct (strncmp lv hv STRINGSIZE ?= 0) eqn:E; try reflexivity.
    apply Z.compare_gt_iff in E. lia. }
  assert (Hop1 : negb (Operator_eqb lop GT) && negb (Operator_eqb lop GTE) = false).
  { destruct Hops as [[-> | ->] _]; reflexivity. }
  assert (Hop2 : negb (Operator_eqb hop LT) && negb (Operator_eqb hop LTE) = false).
  { destruct Hops as [_ [-> | ->]]; reflexivity. }
  assert (Hrun : startScan fuel lv lop hv hop s
                 = findInSubtree fuel (rootPageNum s)
                     (set_range lv lop hv hop (set_nextEntry 0 (set_scanExecuting true s1)))).
  { unfold startScan. unfold bind at 1, gets at 1. unfold bind at 1.
    rewrite Hpre, Hgt, Hop1, Hop2. mrun. now rewrite Hr1. }
  rewrite Hrun. clear Hrun.
  pose proof (rep_ascending _ _ _ _ _ _ _ _ _ Hrep) as Hasc.
  destruct (findInSubtree_spec lop lv hop hv h fuel
              (set_range lv lop hv hop (set_nextEntry 0 (set_scanExecuting true s1)))
              (rootPageNum s) (-1) INF first INVALID_NUMBER es fp [])
    as (esL & ess & Hes & HL & Hne & Hstart); mrun; try rewrite Hf1; try assumption.
  { apply kv_bounds. }
  { lia. }
  { constructor. }
  { constructor. }
  { repeat split. }
  { reflexivity. }
  { cbn [concat length]. lia. }
  cbn [concat] in Hes. rewrite app_nil_r in Hes. subst es.
  rewrite fromFirst_app_none
    by (intros e He; apply (rangeTest_below lop lv hop hv); now apply HL).
  destruct (ascending_app_inv _ _ _ _ Hasc) as (_ & Hasc2 & _).
  unfold scanStart in Hstart.
  pose proof (findFirst_spec (rangeTest lop lv hop hv) (kv hv) ess) as Hff.
  destruct (findFirst (rangeTest lop lv hop hv) (kv hv) ess) as [[j i]|].
  - destruct Hstart as (s' & pre & es0 & rest & Hr & Hf & Hrng & Hex & Hess & Hpre' & Hi
                        & Hch & Hdata & Hne').
    destruct (Hff pre es0 rest Hess Hpre') as [_ Hfrom].
    rewrite Hfrom.
    assert (Hat : scanAt s' (drop i es0 ++ concat rest)).
    { rewrite <- Hne'. apply scanAt_entry with (p := currentPageNum s'); try assumption.
      - reflexivity.
      - now rewrite Hf.
      - now rewrite Hne'.
      - rewrite Hess in Hne. now apply nonEmpties_suffix in Hne. }
    rewrite (drop_nth_cons es0 i (0, mkRid INVALID_NUMBER INVALID_SLOT) Hi) in *.
    cbn [app] in *. exists s'. rewrite Hf1 in Hf. auto.
  - destruct Hstart as (s' & Hr & Hf & Hex).
    assert (Hnone : fromFirst (rangeTest lop lv hop hv) (concat ess) = []).
    { apply fromFirst_filter_nil.
      destruct Hff as [Hall|(a & e & b & Hc & He & Hall)].
      - now apply filter_none.
      - rewrite Hc in *. exact (filter_past_high lop lv hop hv _ _ _ _ _ Hasc2 He Hall). }
    rewrite Hnone. exists s'. rewrite Hf1 in Hf. auto.
Qed.

(** startScan and the scanNext calls after it, on a tree that holds the
    entries [es]: the record ids of the entries in range, in key order. *)
Lemma scanAll_spec fuel lv lop hv hop s es n :
  treeInv s es n -> goodOpcodes lop hop -> strncmp lv hv STRINGSIZE <= 0 ->
  (n + 1 + length es <= fuel)%nat ->
  exists s',
    scanAll fuel lv lop hv hop s
      = Ok (map snd (List.filter (rangeTest lop lv hop hv) es)) s' /\
    file s' = file s /\ scanExecuting s' = false.
Proof.
  intros Hinv Hops Hrange Hfuel.
  pose proof (startScan_spec fuel lv lop hv hop s es n Hinv Hops Hrange Hfuel) as Hstart.
  destruct Hinv as (h & first & fp & m & Hrep & Hn & Hm).
  pose proof (rep_ascending _ _ _ _ _ _ _ _ _ Hrep) as Hasc.
  rewrite (filter_fromFirst lop lv hop hv _ _ _ Hasc).
  pose proof (fromFirst_length (rangeTest lop lv hop hv) es) as Hlen.
  unfold scanAll.
  destruct (fromFirst (rangeTest lop lv hop hv) es) as [|e rem].
  - destruct Hstart as (s' & Hr & Hf & Hex). rewrite Hr. exists s'. auto.
  - destruct Hstart as (s' & Hr & Hat & Hrng & Hf). rewrite Hr.
    destruct (scanLoop_spec lop lv hop hv fuel _ s' Hat Hrng ltac:(lia))
      as (s2 & Hloop & Hf2 & Hex2).
    exists s2. rewrite Hloop. split; [reflexivity|]. split; [congruence|exact Hex2].
Qed.

(** ** Pins taken and released by an insertion *)

Lemma pinsMoved_zero s s' p : pinsMoved s s' p 0 -> pinsSame s s'.
Proof. intros H q. rewrite (H q). destruct (Nat.eqb q p); lia. Qed.

Lemma pinsSame_refl s : pinsSame s s.
Proof. intros q. reflexivity. Qed.

Lemma pinsSame_trans s1 s2 s3 : pinsSame s1 s2 -> pinsSame s2 s3 -> pinsSame s1 s3.
Proof. intros H1 H2 q. now rewrite H2, H1. Qed.

Lemma scanMembersKept_refl s : scanMembersKept s s.
Proof. repeat split. Qed.

Lemma scanMembersKept_trans s1 s2 s3 :
  scanMembersKept s1 s2 -> scanMembersKept s2 s3 -> scanMembersKept s1 s3.
Proof.
  intros (A1 & A2 & A3 & A4 & A5 & A6 & A7 & A8 & A9 & A10)
         (B1 & B2 & B3 & B4 & B5 & B6 & B7 & B8 & B9 & B10).
  repeat split; congruence.
Qed.

Ltac pins_solve :=
  intros ?q; state_simpl; repeat rewrite pinCount_pinDelta;
  repeat match goal with
         | |- context [Nat.eqb ?a ?b] => destruct (Nat.eqb_spec a b)
         end; subst; try lia.

Lemma insertInLeaf_frame krid p sk s r s' :
  insertInLeaf krid p sk s = Ok r s' ->
  pinsSame s s' /\ scanMembersKept s s' /\ rootPageNum s' = rootPageNum s.
Proof.
  unfold insertInLeaf. mrun.
  destruct (lookupPage (file s) p) as [[m|N|l]|]; mrun; try discriminate.
  destruct (isRoomyLeaf l).
  - mrun. intros H. injection H as <- <-. mrun.
    split; [pins_solve|]. split; [repeat split|reflexivity].
  - mrun. destruct (leafSplit l freshLeaf (S (length (file s))) krid) as [[l1 l2] sk'].
    mrun. intros H. injection H as <- <-. mrun.
    split; [pins_solve|]. split; [repeat split|reflexivity].
Qed.

Lemma growRoot_frame p q mid s s' :
  growRoot p q mid s = Ok tt s' ->
  pinsSame s s' /\ scanMembersKept s s'.
Proof.
  unfold growRoot. mrun.
  destruct (lookupPage (file s ++ [PNonLeaf freshNonLeaf]) (headerPageNum s))
    as [[m|N|l]|]; mrun; try discriminate.
  match goal with
  | |- context [lookupPage ?f p] => destruct (lookupPage f p) as [[m'|N|l]|]
  end; mrun; try discriminate.
  intros H. injection H as <-. mrun.
  split; [pins_solve|repeat split].
Qed.

(** The rest of insertInSubtree releases the pin its first line took. *)
Lemma absorbSplit_frame p r s r' s' :
  absorbSplit p r s = Ok r' s' ->
  pinsMoved s s' p (-1) /\ scanMembersKept s s' /\
  (p <> rootPageNum s -> rootPageNum s' = rootPageNum s).
Proof.
  unfold absorbSplit. destruct r as [[|] sk]; mrun.
  - destruct (lookupPage (file s) p) as [[m|N|l]|]; mrun; try discriminate.
    destruct (isRoomyNonLeaf N); mrun.
    + intros H. injection H as <- <-. mrun.
      split; [pins_solve|]. split; [repeat split|reflexivity].
    + destruct (nonLeafSplit N freshNonLeaf sk) as [[[N1 N2] mid]|]; mrun; [|discriminate].
      destruct (Nat.eqb_spec p (rootPageNum s)) as [E|E].
      * match goal with
        | |- context [growRoot ?a ?b ?c ?st] =>
            destruct (growRoot a b c st) as [[] s5| |] eqn:Hg; try discriminate;
            apply growRoot_frame in Hg; destruct Hg as [Hp5 Hm5]
        end.
        intros H. injection H as <- <-. mrun.
        split; [|split; [|intros Hne; contradiction]].
        -- intros q. state_simpl. repeat rewrite pinCount_pinDelta. rewrite (Hp5 q).
           state_simpl. repeat rewrite pinCount_pinDelta.
           repeat match goal with
                  | |- context [Nat.eqb ?a ?b] => destruct (Nat.eqb_spec a b)
                  end; subst; lia.
        -- destruct Hm5 as (A1 & A2 & A3 & A4 & A5 & A6 & A7 & A8 & A9 & A10).
           state_simpl. repeat split; assumption.
      * mrun. intros H. injection H as <- <-. mrun.
        split; [pins_solve|]. split; [repeat split|reflexivity].
  - intros H. injection H as <- <-. mrun.
    split; [pins_solve|]. split; [repeat split|reflexivity].
Qed.

Lemma insertInSubtree_frame krid sk : forall fuel p s r s',
  insertInSubtree fuel krid p sk s = Ok r s' ->
  pinsSame s s' /\ scanMembersKept s s'.
Proof.
  induction fuel as [|fuel IH]; intros p s r s'; [discriminate|].
  rewrite insertInSubtree_unfold. mrun.
  destruct (lookupPage (file s) p) as [[m|N|l]|]; mrun; try discriminate.
  destruct (insertChildIndex (rk_key krid) N) as [i|]; mrun; [|discriminate].
  match goal with
  | |- match ?c ?st with _ => _ end = _ -> _ =>
      destruct (c st) as [r1 s1| |] eqn:Hchild; try discriminate;
      assert (Hc : pinsSame st s1 /\ scanMembersKept st s1)
  end.
  { destruct (level N =? 1).
    - apply insertInLeaf_frame in Hchild. tauto.
    - apply IH in Hchild. exact Hchild. }
  intros Habs. apply absorbSplit_frame in Habs.
  destruct Hc as [Hp1 Hm1]. destruct Habs as (Hp2 & Hm2 & _).
  split.
  - intros q. rewrite (Hp2 q), (Hp1 q). state_simpl. rewrite pinCount_pinDelta.
    destruct (Nat.eqb q p); lia.
  - eapply scanMembersKept_trans; [|exact Hm2].
    eapply scanMembersKept_trans; [|exact Hm1]. repeat split.
Qed.

Lemma insertEntry_frame fuel key rid s s' :
  insertEntry fuel key rid s = Ok tt s' ->
  pinsSame s s' /\ scanMembersKept s s'.
Proof.
  unfold insertEntry. unfold bind at 1, gets at 1.
  destruct (Nat.eqb (rootPageNum s) INVALID_NUMBER).
  - unfold insertFirst. mrun.
    match goal with
    | |- context [lookupPage ?f (headerPageNum s)] =>
        destruct (lookupPage f (headerPageNum s)) as [[m|N|l]|]
    end; mrun; try discriminate.
    intros H. injection H as <-. mrun.
    split; [|repeat split].
    cbn [pageAt nth pageNoArray nl_setPage nl_setKey nl_setLevel freshNonLeaf
         list_insert insert repeat NON_LEAF_NUM_KEYS].
    pins_solve.
  - unfold bind, ret.
    destruct (insertInSubtree fuel (RIDKeyPair_set rid key) (rootPageNum s) uninitPageKey s)
      as [r s1| |] eqn:Hrun; try discriminate.
    intros H. injection H as <-. eapply insertInSubtree_frame. exact Hrun.
Qed.

Lemma insertEntries_frame fuel : forall inserted s s',
  insertEntries fuel inserted s = Ok tt s' ->
  pinsSame s s' /\ scanMembersKept s s'.
Proof.
  induction inserted as [|[key rid] rest IH]; intros s s'; cbn [insertEntries].
  - unfold ret. intros H. injection H as <-.
    split; [apply pinsSame_refl|apply scanMembersKept_refl].
  - unfold bind. destruct (insertEntry fuel key rid s) as [[] s1| |] eqn:H1; try discriminate.
    intros H2. apply insertEntry_frame in H1. apply IH in H2.
    destruct H1, H2. split; [eapply pinsSame_trans|eapply scanMembersKept_trans]; eassumption.
Qed.

(** ** Pins held by a scan *)

Ltac eqb_cases :=
  repeat match goal with
         | |- context [Nat.eqb ?a ?b] => destruct (Nat.eqb_spec a b)
         | H : context [Nat.eqb ?a ?b] |- _ => destruct (Nat.eqb_spec a b)
         end; cbn [andb negb] in *; subst; try lia.

Lemma endScan_pins c0 s s' :
  endScan s = Ok tt s' -> scanPinned c0 s ->
  scanExecuting s = true /\ scanExecuting s' = false /\
  (forall q, pinCount (pins s') q = pinCount c0 q) /\ treeMembersKept s s'.
Proof.
  unfold endScan. mrun. destruct (scanExecuting s); cbn [negb]; [|discriminate].
  intros H Hpin. split; [reflexivity|]. revert H.
  destruct (Nat.eqb_spec (currentPageNum s) INVALID_NUMBER) as [E|E]; cbn [negb]; mrun;
    intros H; injection H as <-; mrun; (split; [reflexivity|]); (split; [|repeat split]);
    intros q; specialize (Hpin q); state_simpl; rewrite ?pinCount_pinDelta;
    unfold INVALID_NUMBER in *; eqb_cases.
Qed.

Lemma endScan_raises s e s' :
  endScan s = Raise e s' -> e = ScanNotInitializedException /\ s' = s /\ scanExecuting s = false.
Proof.
  unfold endScan. mrun. destruct (scanExecuting s); cbn [negb].
  - destruct (Nat.eqb (currentPageNum s) INVALID_NUMBER); cbn [negb]; mrun; discriminate.
  - intros H. injection H as <- <-. auto.
Qed.

Lemma findInLeaf_pins c0 res : forall fuel p s rid s',
  findInLeaf fuel p res s = Ok rid s' ->
  currentPageNum s = p -> p <> INVALID_NUMBER -> scanPinned c0 s ->
  scanPinned c0 s' /\ treeMembersKept s s' /\ scanExecuting s' = scanExecuting s.
Proof.
  induction fuel as [|fuel IH]; intros p s rid s'; [discriminate|].
  cbn [findInLeaf]. unfold currentLeaf. mrun.
  destruct (currentPageData s) as [d|]; mrun; [|discriminate].
  destruct (lookupPage (file s) d) as [[m|N|l]|]; mrun; try discriminate.
  destruct (findInLeafLoop (getLeafLength l) 0 (lowOp s) (lowVal s) (highOp s) (highVal s) l)
    as [i| |]; mrun.
  - intros H Hcur Hp Hpin. injection H as <- <-. mrun.
    split; [exact Hpin|]. split; [repeat split|reflexivity].
  - intros H Hcur Hp Hpin. injection H as <- <-.
    split; [exact Hpin|]. split; [repeat split|reflexivity].
  - destruct (Nat.eqb_spec (rightSibPageNo l) INVALID_NUMBER) as [E|E]; cbn [negb]; mrun.
    + intros H Hcur Hp Hpin. injection H as <- <-.
      split; [exact Hpin|]. split; [repeat split|reflexivity].
    + unfold readCurrentPage. mrun.
      destruct (lookupPage (file s) (rightSibPageNo l)) as [pg|]; mrun; [|discriminate].
      intros H Hcur Hp Hpin.
      apply IH in H; [| reflexivity | exact E |].
      * mrun. exact H.
      * intros q. specialize (Hpin q). mrun. rewrite !pinCount_pinDelta.
        unfold INVALID_NUMBER in *. eqb_cases.
Qed.

Lemma findInLeaf_raises res : forall fuel p s e s',
  findInLeaf fuel p res s = Raise e s' -> isFault e = true.
Proof.
  induction fuel as [|fuel IH]; intros p s e s'; [discriminate|].
  cbn [findInLeaf]. unfold currentLeaf. mrun.
  destruct (currentPageData s) as [d|]; mrun; [|intros H; injection H as <- _; reflexivity].
  destruct (lookupPage (file s) d) as [[m|N|l]|]; mrun;
    try (intros H; injection H as <- _; reflexivity).
  destruct (findInLeafLoop (getLeafLength l) 0 (lowOp s) (lowVal s) (highOp s) (highVal s) l)
    as [i| |]; mrun; try discriminate.
  destruct (Nat.eqb (rightSibPageNo l) INVALID_NUMBER); cbn [negb]; mrun; [discriminate|].
  unfold readCurrentPage. mrun.
  destruct (lookupPage (file s) (rightSibPageNo l)) as [pg|]; mrun;
    [|intros H; injection H as <- _; reflexivity].
  apply IH.
Qed.

(** findInSubtree leaves one pin, on the leaf the cursor is on; none when it
    ends the scan with NoSuchKeyFound. *)
Lemma findInSubtree_pins c0 : forall fuel p s,
  (forall q, pinCount (pins s) q = pinCount c0 q) ->
  match findInSubtree fuel p s with
  | Ok _ s' =>
      scanPinned c0 s' /\ treeMembersKept s s' /\ scanExecuting s' = scanExecuting s
  | Raise e s' =>
      if isFault e then True
      else match e with
           | NoSuchKeyFoundException =>
               (forall q, pinCount (pins s') q = pinCount c0 q) /\ treeMembersKept s s' /\
               scanExecuting s' = false
           | ScanNotInitializedException => True
           | _ => False
           end
  | OutOfFuel => True
  end.
Proof.
  induction fuel as [|fuel IH]; intros p s Hpin; [exact I|].
  cbn [findInSubtree]. mrun.
  destruct (lookupPage (file s) p) as [[m|N|l]|]; mrun; try exact I.
  destruct (level N =? 1); cbn [negb]; mrun.
  - unfold readCurrentPage. mrun.
    match goal with
    | |- context [lookupPage (file s) ?c] =>
        destruct (lookupPage (file s) c) as [pg|] eqn:Hc; mrun; [|exact I];
        pose proof (lookupPage_bounds _ _ _ Hc) as Hb
    end.
    match goal with
    | |- context [findInLeaf (S fuel) ?c ?res ?st] =>
        destruct (findInLeaf (S fuel) c res st) as [rec s1|e s1|] eqn:Hleaf;
        [apply (findInLeaf_pins c0) in Hleaf;
         [|reflexivity|unfold INVALID_NUMBER; lia|]
        |apply findInLeaf_raises in Hleaf; now rewrite Hleaf
        |exact I]
    end.
    + destruct Hleaf as (Hpin1 & Hkept1 & Hex1). unfold treeMembersKept in *. state_simpl.
      destruct (Nat.eqb (page_number rec) INVALID_NUMBER).
      * destruct (endScan s1) as [[] s2|e s2|] eqn:Hend.
        -- destruct (endScan_pins c0 _ _ Hend Hpin1) as (_ & Hex2 & Hpin2 & Hkept2).
           split; [exact Hpin2|]. split; [|exact Hex2].
           destruct Hkept1 as (?&?&?&?), Hkept2 as (?&?&?&?). repeat split; congruence.
        -- apply endScan_raises in Hend. destruct Hend as (-> & _). exact I.
        -- exact I.
      * split; [exact Hpin1|]. split; [exact Hkept1|exact Hex1].
    + intros q. specialize (Hpin q). mrun. rewrite !pinCount_pinDelta.
      unfold INVALID_NUMBER. eqb_cases.
  - match goal with
    | |- context [findInSubtree fuel ?c ?st] =>
        specialize (IH c st)
    end.
    mrun.
    assert (Hpin' : forall q, pinCount (pinDelta p (-1) (pinDelta p 1 (pins s))) q
                              = pinCount c0 q).
    { intros q. rewrite !pinCount_pinDelta, (Hpin q). destruct (Nat.eqb q p); lia. }
    specialize (IH Hpin').
    match goal with
    | |- match ?r with _ => _ end => destruct r as [[] s1|e s1|]
    end; mrun; exact IH.
Qed.

Lemma startScan_pins c0 fuel lv lop hv hop s :
  scanPins c0 s ->
  match startScan fuel lv lop hv hop s with
  | Ok _ s' => scanPins c0 s' /\ scanExecuting s' = true /\ treeMembersKept s s'
  | Raise NoSuchKeyFoundException s'
  | Raise BadScanrangeException s'
  | Raise BadOpcodesException s' =>
      scanPins c0 s' /\ scanExecuting s' = false /\ treeMembersKept s s'
  | _ => True
  end.
Proof.
  intros Hpins.
  assert (Hpre : exists s1, (if scanExecuting s then endScan else ret tt) s = Ok tt s1 /\
                            scanExecuting s1 = false /\
                            (forall q, pinCount (pins s1) q = pinCount c0 q) /\
                            treeMembersKept s s1).
  { unfold scanPins in Hpins. destruct (scanExecuting s) eqn:Hex.
    - destruct (endScan_running_ok s Hex) as (s1 & He & _).
      destruct (endScan_pins c0 _ _ He Hpins) as (_ & Hex1 & Hp1 & Hk1).
      exists s1. auto.
    - exists s. repeat split; assumption. }
  destruct Hpre as (s1 & Hpre & Hex1 & Hp1 & Hk1).
  unfold startScan. unfold bind at 1, gets at 1. unfold bind at 1. rewrite Hpre.
  destruct (strncmp lv hv STRINGSIZE >? 0).
  { unfold raise, scanPins. rewrite Hex1. auto. }
  destruct (negb (Operator_eqb lop GT) && negb (Operator_eqb lop GTE)).
  { unfold raise, scanPins. rewrite Hex1. auto. }
  destruct (negb (Operator_eqb hop LT) && negb (Operator_eqb hop LTE)).
  { unfold raise, scanPins. rewrite Hex1. auto. }
  mrun.
  match goal with
  | |- context [findInSubtree fuel ?p ?st] =>
      pose proof (findInSubtree_pins c0 fuel p st Hp1) as Hfind;
      destruct (findInSubtree fuel p st) as [[] s'|e s'|]
  end; [|destruct e; cbn [isFault] in Hfind; try exact I; try contradiction|exact I];
    unfold treeMembersKept in *; mrun;
    destruct Hfind as (Hp' & Hk' & Hex'); unfold scanPins; rewrite Hex';
    (split; [exact Hp'|]); (split; [reflexivity|]);
    destruct Hk1 as (?&?&?&?), Hk' as (?&?&?&?); repeat split; congruence.
Qed.

Lemma scanNext_pins c0 s :
  scanPins c0 s ->
  match scanNext s with
  | Ok _ s' => scanPins c0 s' /\ scanExecuting s' = true /\ treeMembersKept s s'
  | Raise IndexScanCompletedException s' =>
      scanPins c0 s' /\ scanExecuting s' = false /\ treeMembersKept s s'
  | Raise ScanNotInitializedException s' => s' = s /\ scanExecuting s = false
  | _ => True
  end.
Proof.
  intros Hpins. unfold scanPins in Hpins. unfold scanNext. mrun.
  destruct (scanExecuting s) eqn:Hex; cbn [negb]; [|auto].
  assert (Hend : exists s', endScan s = Ok tt s' /\ scanPins c0 s' /\
                            scanExecuting s' = false /\ treeMembersKept s s').
  { destruct (endScan_running_ok s Hex) as (s1 & He & _).
    destruct (endScan_pins c0 _ _ He Hpins) as (_ & Hex1 & Hp1 & Hk1).
    exists s1. unfold scanPins. rewrite Hex1. auto. }
  destruct Hend as (se & Hend & Hpe & Hexe & Hke).
  destruct (Nat.eqb_spec (currentPageNum s) INVALID_NUMBER) as [E|E].
  { rewrite Hend. auto. }
  unfold currentLeaf, matchRange. mrun.
  destruct (currentPageData s) as [d|]; mrun; [|exact I].
  destruct (lookupPage (file s) d) as [[m|N|l]|]; mrun; try exact I.
  destruct (Nat.leb LEAF_NUM_KEYS (nextEntry s)); [exact I|].
  destruct (matchRangeWith (lowOp s) (lowVal s) (highOp s) (highVal s)
              (keyAt (lf_keyArray l) (nextEntry s))); cbn [negb]; [|rewrite Hend; auto].
  destruct (Nat.eqb (S (nextEntry s)) (getLeafLength l)); mrun.
  - destruct (Nat.eqb_spec (rightSibPageNo l) INVALID_NUMBER) as [Es|Es]; cbn [negb]; mrun.
    + unfold scanPins. mrun. rewrite Hex.
      split; [|split; [reflexivity|repeat split]].
      intros q. specialize (Hpins q). mrun. rewrite !pinCount_pinDelta, Es.
      unfold INVALID_NUMBER in *. eqb_cases.
    + unfold readCurrentPage. mrun.
      destruct (lookupPage (file s) (rightSibPageNo l)) as [pg|]; mrun; [|exact I].
      unfold scanPins. mrun. rewrite Hex.
      split; [|split; [reflexivity|repeat split]].
      intros q. specialize (Hpins q). mrun. rewrite !pinCount_pinDelta.
      unfold INVALID_NUMBER in *. eqb_cases.
  - unfold scanPins. mrun. rewrite Hex.
    split; [exact Hpins|]. split; [reflexivity|repeat split].
Qed.

(** ** Inserted pairs and what a scan returns *)

Lemma entryOf_insertSorted x acc :
  map entryOf (insertSorted x acc) = insEntry (kv (fst x)) (snd x) (map entryOf acc).
Proof.
  induction acc as [|y t IH]; [reflexivity|].
  cbn [insertSorted map insEntry]. unfold entryOf at 2. cbn [fst].
  rewrite strncmp_leb. destruct (kv (fst x) <=? kv (fst y)); [reflexivity|].
  cbn [map]. now rewrite IH.
Qed.

Lemma entryOf_sortByKey inserted :
  map entryOf (sortByKey inserted) = entriesAfter inserted [].
Proof.
  unfold sortByKey, entriesAfter.
  change (@nil entry) with (map entryOf []). generalize (@nil (list byte * RecordId)).
  induction inserted as [|x t IH]; intros acc; [reflexivity|].
  cbn [fold_left]. rewrite IH, entryOf_insertSorted. reflexivity.
Qed.

Lemma filter_entryOf lop lv hop hv l :
  map snd (List.filter (rangeTest lop lv hop hv) (map entryOf l))
  = map snd (List.filter (fun e => matchRangeWith lop lv hop hv (fst e)) l).
Proof.
  induction l as [|x t IH]; [reflexivity|].
  cbn [map List.filter]. unfold rangeTest at 1, entryOf at 1. cbn [fst].
  rewrite <- matchRangeWith_inRangeZ.
  destruct (matchRangeWith lop lv hop hv (fst x)); cbn [map]; now rewrite IH.
Qed.

Lemma entriesAfter_length inserted : forall es,
  length (entriesAfter inserted es) = (length es + length inserted)%nat.
Proof.
  unfold entriesAfter. induction inserted as [|x t IH]; intros es; cbn [fold_left length];
    [lia|]. rewrite IH, insEntry_length. lia.
Qed.

Lemma distinctKeys_kv inserted :
  distinctKeys inserted -> NoDup (map (fun x => kv (fst x)) inserted).
Proof.
  unfold distinctKeys. induction inserted as [|x t IH]; cbn [map]; intros H; [constructor|].
  inversion H as [|? ? Hnin Hnd]; subst. constructor; [|now apply IH].
  intros Hin. apply Hnin. apply list_elem_of_In in Hin. apply list_elem_of_In.
  apply in_map_iff in Hin. destruct Hin as (y & Hy & Hin).
  apply in_map_iff. exists y. split; [|exact Hin]. now apply kv_inj.
Qed.

(** X1: insertEntry calls on an index that has no tree yet, one per pair of
    [inserted] in this order, with keys that differ as stored and record ids
    whose page number is not the reserved one; then the scan of main.cpp
    (startScan, then scanNext until IndexScanCompleted) with accepted
    operators and lowVal <= highVal.  Every call returns, the index is a
    tree in good shape that holds the inserted pairs, and the scan returns
    the record ids of exactly the pairs whose key satisfies matchRange, each
    once, in ascending key order; it leaves the file as it was. *)
Theorem scan_returns_inserted s0 m inserted fuel lv lop hv hop :
  rootPageNum s0 = INVALID_NUMBER ->
  lookupPage (file s0) (headerPageNum s0) = Some (PMeta m) ->
  inserted <> [] -> distinctKeys inserted ->
  Forall (fun x => validRid (snd x)) inserted ->
  goodOpcodes lop hop -> strncmp lv hv STRINGSIZE <= 0 ->
  (2 * length inserted + 1 <= fuel)%nat ->
  exists s1 s2,
    insertEntries fuel inserted s0 = Ok tt s1 /\
    treeInv s1 (entriesAfter inserted []) (length inserted) /\
    scanAll fuel lv lop hv hop s1 = Ok (expectedScan inserted lv lop hv hop) s2 /\
    file s2 = file s1.
Proof.
  intros Hroot Hhdr Hne Hdist Hval Hops Hrange Hfuel.
  destruct inserted as [|[key rid] rest]; [now elim Hne|].
  apply distinctKeys_kv in Hdist. cbn [map fst] in Hdist.
  inversion Hdist as [|? ? Hnin Hnd]; subst.
  inversion Hval as [|? ? Hrid Hval']; subst. cbn [snd] in Hrid.
  cbn [length] in Hfuel.
  destruct (insertEntry_first_tree fuel key rid s0 m Hroot Hhdr Hrid) as (sa & Hrun1 & Hinv1 & _).
  destruct (insertEntries_spec rest fuel sa [(kv key, rid)] 1 Hinv1 ltac:(lia) Hnd)
    as (s1 & Hrun & Hinv & _); [|exact Hval'|].
  { intros x Hx [E|[]]. cbn [fst] in E. apply Hnin, list_elem_of_In. rewrite E.
    apply (in_map (fun x => kv (fst x))). exact Hx. }
  assert (Hall : entriesAfter ((key, rid) :: rest) [] = entriesAfter rest [(kv key, rid)])
    by reflexivity.
  destruct (scanAll_spec fuel lv lop hv hop s1 _ _ Hinv Hops Hrange) as (s2 & Hscan & Hf & _).
  { rewrite entriesAfter_length. cbn [length]. lia. }
  exists s1, s2. cbn [insertEntries]. unfold bind. rewrite Hrun1.
  split; [exact Hrun|]. split; [rewrite Hall; exact Hinv|]. split; [|exact Hf].
  rewrite Hscan. f_equal. unfold expectedScan.
  rewrite <- filter_entryOf, entryOf_sortByKey, Hall. reflexivity.
Qed.

Lemma scan_returns_inserted_witness :
  exists s1 s2,
    insertEntries 7 [(["d"%byte], mkRid 1%nat 1%nat); (["b"%byte], mkRid 1%nat 2%nat);
                     (["f"%byte], mkRid 1%nat 3%nat)] emptyIndex = Ok tt s1 /\
    treeInv s1 (entriesAfter [(["d"%byte], mkRid 1%nat 1%nat); (["b"%byte], mkRid 1%nat 2%nat);
                              (["f"%byte], mkRid 1%nat 3%nat)] []) 3 /\
    scanAll 7 ["c"%byte] GTE ["f"%byte] LT s1
      = Ok (expectedScan [(["d"%byte], mkRid 1%nat 1%nat); (["b"%byte], mkRid 1%nat 2%nat);
                          (["f"%byte], mkRid 1%nat 3%nat)] ["c"%byte] GTE ["f"%byte] LT) s2 /\
    file s2 = file s1.
Proof.
  apply (scan_returns_inserted emptyIndex
           {| relationName := strncpy relA 20; meta_attrByteOffset := 0;
              rootPageNo := INVALID_NUMBER |}).
  - reflexivity.
  - reflexivity.
  - discriminate.
  - unfold distinctKeys. cbn [map fst].
    repeat (constructor; [rewrite list_elem_of_In; cbn [In]; intuition discriminate|]).
    constructor.
  - repeat constructor; discriminate.
  - split; [now right|now left].
  - vm_compute. discriminate.
  - cbn [length]. lia.
Defined.

(** ** Insertion keeps the tree, scans walk it *)

(** X2: insertEntry on an index whose tree is in good shape, for a key it
    does not hold yet and a record id with a page number: the call returns;
    the tree is in good shape again and holds the old entries with the new
    one at its place in key order; it has grown by one level at most; every
    pin taken has been released; the scan members are untouched. *)
Theorem insertEntry_keeps_tree fuel key rid s es n :
  treeInv s es n -> (n <= fuel)%nat ->
  ~ In (kv key) (map fst es) -> validRid rid ->
  exists s',
    insertEntry fuel key rid s = Ok tt s' /\
    treeInv s' (insEntry (kv key) rid es) (S n) /\
    pinsSame s s' /\ scanMembersKept s s'.
Proof.
  intros Hinv Hfuel Hnew Hrid.
  destruct (insertEntry_spec fuel key rid s es n Hinv Hfuel Hnew Hrid) as (s' & Hrun & Hinv' & _).
  destruct (insertEntry_frame _ _ _ _ _ Hrun) as [Hp Hm].
  exists s'. auto.
Qed.

Lemma insertEntry_keeps_tree_witness :
  exists s1 s2,
    insertEntry 8 ["d"%byte] (mkRid 1%nat 1%nat) emptyIndex = Ok tt s1 /\
    insertEntry 8 ["b"%byte] (mkRid 1%nat 2%nat) s1 = Ok tt s2 /\
    treeInv s2 (insEntry (kv ["b"%byte]) (mkRid 1%nat 2%nat)
                  [(kv ["d"%byte], mkRid 1%nat 1%nat)]) 2 /\
    pinsSame s1 s2.
Proof.
  destruct (insertEntry_first_tree 8 ["d"%byte] (mkRid 1%nat 1%nat) emptyIndex
              {| relationName := strncpy relA 20; meta_attrByteOffset := 0;
                 rootPageNo := INVALID_NUMBER |} eq_refl eq_refl)
    as (s1 & Hrun1 & Hinv1 & _); [discriminate|].
  destruct (insertEntry_keeps_tree 8 ["b"%byte] (mkRid 1%nat 2%nat) s1
              [(kv ["d"%byte], mkRid 1%nat 1%nat)] 1 Hinv1)
    as (s2 & Hrun2 & Hinv2 & Hpins & _).
  - lia.
  - cbn [map fst In]. vm_compute. intros [H|[]]. discriminate H.
  - discriminate.
  - exists s1, s2. auto.
Defined.

Lemma fromFirst_head P es e rem : fromFirst P es = e :: rem -> P e = true.
Proof.
  induction es as [|x t IH]; cbn [fromFirst]; [discriminate|].
  destruct (P x) eqn:HP; [|exact IH]. intros H. injection H as <- _. exact HP.
Qed.

(** The next scanNext on a cursor that stands before the entries
    [e :: rem]. *)
Lemma scanAt_next s e rem lop lv hop hv :
  scanAt s (e :: rem) -> rangeIs s lop lv hop hv ->
  if rangeTest lop lv hop hv e then
    exists s',
      scanNext s = Ok (snd e) s' /\ scanAt s' rem /\
      file s' = file s /\ rangeIs s' lop lv hop hv
  else
    exists s',
      scanNext s = Raise IndexScanCompletedException s' /\
      file s' = file s /\ scanExecuting s' = false.
Proof.
  intros Hat Hrng. remember (e :: rem) as l eqn:Hl.
  destruct Hat as [Hex Hcur|p es0 essT Hex Hcur Hdata Hch Hi Hne]; [discriminate|].
  destruct (chain_cons_inv _ _ _ _ Hch) as (lf & Hlf & Hok & Hes & Hrest). subst es0.
  rewrite (drop_nth_cons (leafEntries lf) _ (0, mkRid INVALID_NUMBER INVALID_SLOT) Hi) in Hl.
  cbn [app] in Hl. injection Hl as <- <-.
  exact (scanNext_entry s p lf essT lop lv hop hv Hex Hcur Hdata Hlf Hok Hrest Hne
           ltac:(rewrite <- leafEntries_length; exact Hi) Hrng).
Qed.

Lemma scanAt_running s rem : scanAt s rem -> scanExecuting s = true.
Proof. now destruct 1. Qed.

(** X5: one scanNext of a scan whose cursor stands before the entries
    [rem] of the chain of leaves.  With no entry left, or with the next
    entry out of range, the scan is ended and IndexScanCompleted raised,
    all pins released; otherwise the record id of the next entry is
    returned, the cursor stands before the entries after it, and the one pin
    of the scan is on the leaf under the cursor. *)
Theorem scanNext_step c0 s rem lop lv hop hv :
  scanAt s rem -> rangeIs s lop lv hop hv -> scanPinned c0 s ->
  match whileTrue (rangeTest lop lv hop hv) rem with
  | [] =>
      exists s',
        scanNext s = Raise IndexScanCompletedException s' /\
        scanExecuting s' = false /\ treeMembersKept s s' /\
        forall q, pinCount (pins s') q = pinCount c0 q
  | e :: _ =>
      exists s',
        scanNext s = Ok (snd e) s' /\ scanAt s' (tl rem) /\
        rangeIs s' lop lv hop hv /\ treeMembersKept s s' /\ scanPinned c0 s'
  end.
Proof.
  intros Hat Hrng Hpin.
  pose proof (scanAt_running _ _ Hat) as Hex.
  assert (Hpins : scanPins c0 s) by (unfold scanPins; now rewrite Hex).
  pose proof (scanNext_pins c0 s Hpins) as Hp.
  destruct rem as [|e rem]; cbn [whileTrue].
  - inversion Hat as [_ Hcur|p es0 essT _ _ _ _ Hi _ Hnil].
    + destruct (scanNext_done s Hex Hcur) as (s' & Hr & _). rewrite Hr in Hp.
      destruct Hp as (Hp' & Hex' & Hk). unfold scanPins in Hp'. rewrite Hex' in Hp'.
      exists s'. auto.
    + exfalso.
      rewrite (drop_nth_cons es0 _ (0, mkRid INVALID_NUMBER INVALID_SLOT) Hi) in Hnil.
      discriminate.
  - pose proof (scanAt_next s e rem lop lv hop hv Hat Hrng) as Hstep.
    destruct (rangeTest lop lv hop hv e).
    + destruct Hstep as (s' & Hr & Hat' & _ & Hrng'). rewrite Hr in Hp.
      destruct Hp as (Hp' & Hex' & Hk). unfold scanPins in Hp'. rewrite Hex' in Hp'.
      exists s'. cbn [tl]. auto.
    + destruct Hstep as (s' & Hr & _). rewrite Hr in Hp.
      destruct Hp as (Hp' & Hex' & Hk). unfold scanPins in Hp'. rewrite Hex' in Hp'.
      exists s'. auto.
Qed.

Lemma pinsSame_counts s s' :
  (forall q, pinCount (pins s') q = pinCount (pins s) q) -> pinsSame s s'.
Proof. intros H q. apply H. Qed.

(** X3: startScan on an index whose tree is in good shape and holds the
    entries [es], with no scan running, accepted operators and
    lowVal <= highVal.  When no entry is in range, the scan is ended again
    and NoSuchKeyFound raised, with every pin released; otherwise startScan
    returns with one pin, on the leaf under the cursor, and the first
    scanNext returns the record id of the entry in range with the smallest
    key.  The tree is not written in either case. *)
Theorem startScan_first_in_range fuel lv lop hv hop s es n :
  treeInv s es n -> scanExecuting s = false ->
  goodOpcodes lop hop -> strncmp lv hv STRINGSIZE <= 0 ->
  (n + 1 + length es <= fuel)%nat ->
  match List.filter (rangeTest lop lv hop hv) es with
  | [] =>
      exists s',
        startScan fuel lv lop hv hop s = Raise NoSuchKeyFoundException s' /\
        scanExecuting s' = false /\ pinsSame s s' /\ treeMembersKept s s'
  | e :: _ =>
      exists s' s'',
        startScan fuel lv lop hv hop s = Ok tt s' /\
        scanExecuting s' = true /\ scanPinned (pins s) s' /\ treeMembersKept s s' /\
        scanNext s' = Ok (snd e) s''
  end.
Proof.
  intros Hinv Hidle Hops Hrange Hfuel.
  pose proof (startScan_spec fuel lv lop hv hop s es n Hinv Hops Hrange Hfuel) as Hstart.
  assert (Hpins : scanPins (pins s) s).
  { unfold scanPins. rewrite Hidle. reflexivity. }
  pose proof (startScan_pins (pins s) fuel lv lop hv hop s Hpins) as Hp.
  destruct Hinv as (h & first & fp & m & Hrep & Hn & Hm).
  pose proof (rep_ascending _ _ _ _ _ _ _ _ _ Hrep) as Hasc.
  rewrite (filter_fromFirst lop lv hop hv _ _ _ Hasc).
  destruct (fromFirst (rangeTest lop lv hop hv) es) as [|e rem] eqn:Hfrom; cbn [whileTrue].
  - destruct Hstart as (s' & Hr & _). rewrite Hr in Hp.
    destruct Hp as (Hp' & Hex' & Hk). unfold scanPins in Hp'. rewrite Hex' in Hp'.
    exists s'. auto.
  - pose proof (fromFirst_head _ _ _ _ Hfrom) as He. rewrite He.
    destruct Hstart as (s' & Hr & Hat & Hrng & _). rewrite Hr in Hp.
    destruct Hp as (Hp' & Hex' & Hk). unfold scanPins in Hp'. rewrite Hex' in Hp'.
    pose proof (scanAt_next s' e rem lop lv hop hv Hat Hrng) as Hstep. rewrite He in Hstep.
    destruct Hstep as (s'' & Hnext & _).
    exists s', s''. auto.
Qed.

Lemma startScan_first_in_range_witness :
  exists s0 s1 s2,
    insertEntry 8 ["d"%byte] (mkRid 1%nat 1%nat) emptyIndex = Ok tt s0 /\
    startScan 8 ["a"%byte] GTE ["z"%byte] LTE s0 = Ok tt s1 /\
    scanPinned (pins s0) s1 /\
    scanNext s1 = Ok (mkRid 1%nat 1%nat) s2.
Proof.
  destruct (insertEntry_first_tree 8 ["d"%byte] (mkRid 1%nat 1%nat) emptyIndex
              {| relationName := strncpy relA 20; meta_attrByteOffset := 0;
                 rootPageNo := INVALID_NUMBER |} eq_refl eq_refl)
    as (s0 & Hrun & Hinv & _); [discriminate|].
  destruct (insertEntry_frame _ _ _ _ _ Hrun) as [_ Hm].
  assert (Hidle : scanExecuting s0 = false).
  { destruct Hm as (_ & _ & -> & _). reflexivity. }
  pose proof (startScan_first_in_range 8 ["a"%byte] GTE ["z"%byte] LTE s0
                [(kv ["d"%byte], mkRid 1%nat 1%nat)] 1 Hinv Hidle
                (conj (or_intror eq_refl) (or_intror eq_refl))) as H.
  assert (Hle : strncmp ["a"%byte] ["z"%byte] STRINGSIZE <= 0) by (vm_compute; discriminate).
  specialize (H Hle ltac:(cbn [length]; lia)).
  assert (Hf : List.filter (rangeTest GTE ["a"%byte] LTE ["z"%byte])
                 [(kv ["d"%byte], mkRid 1%nat 1%nat)]
               = [(kv ["d"%byte], mkRid 1%nat 1%nat)]) by (vm_compute; reflexivity).
  rewrite Hf in H. destruct H as (s1 & s2 & Hstart & _ & Hpin & _ & Hnext).
  exists s0, s1, s2. auto.
Defined.

Lemma scanNext_step_witness :
  exists s0 s1 s2,
    insertEntry 8 ["d"%byte] (mkRid 1%nat 1%nat) emptyIndex = Ok tt s0 /\
    startScan 8 ["a"%byte] GTE ["z"%byte] LTE s0 = Ok tt s1 /\
    scanNext s1 = Ok (mkRid 1%nat 1%nat) s2 /\
    scanAt s2 [].
Proof.
  destruct (insertEntry_first_tree 8 ["d"%byte] (mkRid 1%nat 1%nat) emptyIndex
              {| relationName := strncpy relA 20; meta_attrByteOffset := 0;
                 rootPageNo := INVALID_NUMBER |} eq_refl eq_refl)
    as (s0 & Hrun & Hinv & _); [discriminate|].
  destruct (insertEntry_frame _ _ _ _ _ Hrun) as [_ Hm].
  assert (Hidle : scanExecuting s0 = false).
  { destruct Hm as (_ & _ & -> & _). reflexivity. }
  assert (Hle : strncmp ["a"%byte] ["z"%byte] STRINGSIZE <= 0) by (vm_compute; discriminate).
  pose proof (startScan_spec 8 ["a"%byte] GTE ["z"%byte] LTE s0
                [(kv ["d"%byte], mkRid 1%nat 1%nat)] 1 Hinv
                (conj (or_intror eq_refl) (or_intror eq_refl)) Hle
                ltac:(cbn [length]; lia)) as Hstart.
  assert (Hf : fromFirst (rangeTest GTE ["a"%byte] LTE ["z"%byte])
                 [(kv ["d"%byte], mkRid 1%nat 1%nat)]
               = [(kv ["d"%byte], mkRid 1%nat 1%nat)]) by (vm_compute; reflexivity).
  rewrite Hf in Hstart. destruct Hstart as (s1 & Hstart & Hat & Hrng & _).
  assert (Hpins : scanPins (pins s0) s0) by (unfold scanPins; now rewrite Hidle).
  pose proof (startScan_pins (pins s0) 8 ["a"%byte] GTE ["z"%byte] LTE s0 Hpins) as Hp.
  rewrite Hstart in Hp. destruct Hp as (Hp & Hex & _).
  unfold scanPins in Hp. rewrite Hex in Hp.
  pose proof (scanNext_step (pins s0) s1 _ GTE ["a"%byte] LTE ["z"%byte] Hat Hrng Hp) as Hstep.
  change (whileTrue _ _) with [(kv ["d"%byte], mkRid 1%nat 1%nat)] in Hstep.
  destruct Hstep as (s2 & Hnext & Hat2 & _).
  exists s0, s1, s2. auto.
Defined.

(** ** Pins across the scan functions *)




(** ** The meta page names the root *)

Ltac hdr_solve :=
  unfold headerNames in *; state_simpl; lsimp; try eassumption; try reflexivity.

Lemma insertInLeaf_header krid p sk s r s' name off :
  insertInLeaf krid p sk s = Ok r s' -> headerNames s name off -> headerNames s' name off.
Proof.
  unfold insertInLeaf. mrun. intros H Hh.
  pose proof (lookupPage_bounds _ _ _ Hh) as Hb. revert H.
  destruct (lookupPage (file s) p) as [[m|N|l]|] eqn:Hp; mrun; try discriminate.
  assert (Hne : p <> headerPageNum s).
  { intros E. unfold headerNames in Hh. rewrite E, Hh in Hp. discriminate. }
  pose proof (lookupPage_bounds _ _ _ Hp) as Hbp.
  destruct (isRoomyLeaf l); mrun.
  - intros H. injection H as <- <-. hdr_solve.
  - destruct (leafSplit l freshLeaf (S (length (file s))) krid) as [[l1 l2] sk'].
    mrun. intros H. injection H as <- <-. hdr_solve.
Qed.

Lemma growRoot_header p q mid s s' name off :
  growRoot p q mid s = Ok tt s' ->
  lookupPage (file s) (headerPageNum s)
    = Some (PMeta {| relationName := name; meta_attrByteOffset := off;
                     rootPageNo := rootPageNum s |}) ->
  headerNames s' name off.
Proof.
  unfold growRoot. mrun. intros H Hh.
  pose proof (lookupPage_bounds _ _ _ Hh) as Hb. revert H.
  rewrite lookupPage_app_old by lia. rewrite Hh. mrun.
  match goal with
  | |- context [lookupPage ?f p] => destruct (lookupPage f p) as [[m'|N|l]|]
  end; mrun; try discriminate.
  intros H. injection H as <-. unfold headerNames. state_simpl.
  rewrite lookupPage_write_ne by len_solve.
  rewrite lookupPage_write_eq by len_solve. reflexivity.
Qed.

Lemma absorbSplit_header p r s r' s' name off :
  absorbSplit p r s = Ok r' s' -> headerNames s name off -> headerNames s' name off.
Proof.
  unfold absorbSplit. intros H Hh.
  pose proof (lookupPage_bounds _ _ _ Hh) as Hb. revert H.
  destruct r as [[|] sk]; mrun.
  - destruct (lookupPage (file s) p) as [[m|N|l]|] eqn:Hp; mrun; try discriminate.
    assert (Hne : p <> headerPageNum s).
    { intros E. unfold headerNames in Hh. rewrite E, Hh in Hp. discriminate. }
    pose proof (lookupPage_bounds _ _ _ Hp) as Hbp.
    destruct (isRoomyNonLeaf N); mrun.
    + intros H. injection H as <- <-. hdr_solve.
    + destruct (nonLeafSplit N freshNonLeaf sk) as [[[N1 N2] mid]|]; mrun; [|discriminate].
      destruct (Nat.eqb_spec p (rootPageNum s)) as [E|E].
      * match goal with
        | |- context [growRoot ?a ?b ?c ?st] =>
            destruct (growRoot a b c st) as [[] s5| |] eqn:Hg; try discriminate;
            apply (growRoot_header a b c st s5 name off) in Hg
        end.
        -- intros H. injection H as <- <-. unfold headerNames in *. state_simpl. exact Hg.
        -- state_simpl. lsimp. exact Hh.
      * mrun. intros H. injection H as <- <-. hdr_solve.
  - intros H. injection H as <- <-. hdr_solve.
Qed.

Lemma insertInSubtree_header krid sk name off : forall fuel p s r s',
  insertInSubtree fuel krid p sk s = Ok r s' ->
  headerNames s name off -> headerNames s' name off.
Proof.
  induction fuel as [|fuel IH]; intros p s r s'; [discriminate|].
  rewrite insertInSubtree_unfold. mrun.
  destruct (lookupPage (file s) p) as [[m|N|l]|]; mrun; try discriminate.
  destruct (insertChildIndex (rk_key krid) N) as [i|]; mrun; [|discriminate].
  match goal with
  | |- match ?c ?st with _ => _ end = _ -> _ =>
      destruct (c st) as [r1 s1| |] eqn:Hchild; try discriminate;
      assert (Hc : headerNames st name off -> headerNames s1 name off)
  end.
  { destruct (level N =? 1).
    - eapply insertInLeaf_header. exact Hchild.
    - eapply IH. exact Hchild. }
  intros Habs Hh. eapply absorbSplit_header; [exact Habs|]. apply Hc. exact Hh.
Qed.

Lemma insertEntry_header fuel key rid s s' name off :
  insertEntry fuel key rid s = Ok tt s' ->
  headerNames s name off -> headerNames s' name off.
Proof.
  unfold insertEntry. unfold bind at 1, gets at 1. intros H Hh.
  pose proof (lookupPage_bounds _ _ _ Hh) as Hb. revert H.
  destruct (Nat.eqb (rootPageNum s) INVALID_NUMBER).
  - unfold insertFirst. mrun. lsimp. unfold headerNames in Hh. rewrite Hh. mrun.
    intros H. injection H as <-. unfold headerNames. state_simpl.
    cbn [pageAt nth pageNoArray nl_setPage nl_setKey nl_setLevel freshNonLeaf
         list_insert insert repeat NON_LEAF_NUM_KEYS].
    lsimp. reflexivity.
  - unfold bind, ret.
    destruct (insertInSubtree fuel (RIDKeyPair_set rid key) (rootPageNum s) uninitPageKey s)
      as [r s1| |] eqn:Hrun; try discriminate.
    intros H. injection H as <-. eapply insertInSubtree_header; eassumption.
Qed.

Lemma insertEntries_header fuel name off : forall inserted s s',
  insertEntries fuel inserted s = Ok tt s' ->
  headerNames s name off -> headerNames s' name off.
Proof.
  induction inserted as [|[key rid] rest IH]; intros s s'; cbn [insertEntries].
  - unfold ret. intros H. now injection H as <-.
  - unfold bind. destruct (insertEntry fuel key rid s) as [[] s1| |] eqn:H1; try discriminate.
    intros H2 Hh. eapply IH; [exact H2|]. eapply insertEntry_header; eassumption.
Qed.

(** The constructor's loop over the relation is a run of insertEntry calls. *)
Lemma bulkLoad_insertEntries fuel off : forall relation s,
  attrByteOffset s = off ->
  bulkLoad fuel relation s = insertEntries fuel (keysOf off relation) s.
Proof.
  induction relation as [|[rid record] rest IH]; intros s Hoff; [reflexivity|].
  cbn [bulkLoad keysOf map insertEntries fst snd].
  unfold bind at 1, gets at 1. rewrite Hoff. unfold bind.
  destruct (insertEntry fuel (drop (Z.to_nat off) record) rid s) as [[] s1| |] eqn:H1;
    try reflexivity.
  apply IH. apply insertEntry_frame in H1. destruct H1 as (_ & _ & -> & _). exact Hoff.
Qed.

(** ** Building and reopening an index *)

Lemma strncpy_S s n :
  strncpy s (S n)
  = if uchar (peek s) =? 0 then repeat NUL (S n) else peek s :: strncpy (tl s) n.
Proof. reflexivity. Qed.

Lemma cstr_strncpy : forall n s,
  (length (cstr s) < n)%nat ->
  cstr (strncpy s n) = cstr s /\ terminated (strncpy s n) = true.
Proof.
  induction n as [|n IH]; intros s Hlen; [lia|].
  rewrite strncpy_S. destruct s as [|c t]; cbn [peek hd tl].
  - change (uchar NUL =? 0) with true. cbv iota. split; reflexivity.
  - cbn [cstr] in *. destruct (uchar c =? 0) eqn:Ec.
    + split; reflexivity.
    + cbn [cstr terminated existsb length] in *. rewrite Ec. cbn [orb].
      destruct (IH t ltac:(lia)) as [E T]. now rewrite E.
Qed.



(** The [catch] block of the constructor: the meta page is written, then the
    records go through insertEntry, then the meta page is unpinned. *)
Lemma buildIndex_run fuel name off relation bufPins uninit :
  BTreeIndex_new fuel name off None relation bufPins uninit
  = match insertEntries fuel (keysOf off relation) (headerWritten name off bufPins uninit) with
    | Ok _ s1 => Ok tt (set_pins (pinDelta (headerPageNum s1) (-1) (pins s1)) s1)
    | Raise e s1 => Raise e s1
    | OutOfFuel => OutOfFuel
    end.
Proof.
  rewrite <- (bulkLoad_insertEntries fuel off relation) by reflexivity.
  unfold BTreeIndex_new, buildIndex. mrun.
  match goal with
  | |- context [bulkLoad fuel relation ?st] =>
      change st with (headerWritten name off bufPins uninit)
  end.
  destruct (bulkLoad fuel relation (headerWritten name off bufPins uninit)) as [[] s1| |];
    reflexivity.
Qed.

Lemma headerWritten_names name off bufPins uninit :
  headerNames (headerWritten name off bufPins uninit) (strncpy name 20) off.
Proof. reflexivity. Qed.

(** Whenever the constructor returns from building a new index, the meta
    page is page 1 and names the root, and the pins are the buffer
    manager's. *)
Lemma buildIndex_header fuel name off relation bufPins uninit s :
  BTreeIndex_new fuel name off None relation bufPins uninit = Ok tt s ->
  headerPageNum s = 1%nat /\ headerNames s (strncpy name 20) off /\
  attrByteOffset s = off /\ scanExecuting s = false /\
  forall q, pinCount (pins s) q = pinCount bufPins q.
Proof.
  rewrite buildIndex_run.
  destruct (insertEntries fuel (keysOf off relation) (headerWritten name off bufPins uninit))
    as [[] s1| |] eqn:Hrun; try discriminate.
  intros H. injection H as <-.
  pose proof (insertEntries_header _ _ _ _ _ _ Hrun (headerWritten_names _ _ _ _)) as Hh.
  apply insertEntries_frame in Hrun.
  destruct Hrun as (Hp & Hhp & Hoff & Hse & _).
  cbn [headerPageNum attrByteOffset scanExecuting headerWritten] in Hhp, Hoff, Hse.
  unfold headerNames in *. state_simpl.
  repeat split; try assumption.
  intros q. rewrite Hhp, pinCount_pinDelta, (Hp q).
  cbn [pins headerWritten]. rewrite pinCount_pinDelta. destruct (Nat.eqb q 1); lia.
Qed.

Lemma insertEntries_new_tree inserted fuel s m :
  rootPageNum s = INVALID_NUMBER ->
  lookupPage (file s) (headerPageNum s) = Some (PMeta m) ->
  inserted <> [] -> distinctKeys inserted ->
  Forall (fun x => validRid (snd x)) inserted ->
  (length inserted <= fuel)%nat ->
  exists s',
    insertEntries fuel inserted s = Ok tt s' /\
    treeInv s' (entriesAfter inserted []) (length inserted).
Proof.
  intros Hroot Hhdr Hne Hdist Hval Hfuel.
  destruct inserted as [|[key rid] rest]; [now elim Hne|].
  apply distinctKeys_kv in Hdist. cbn [map fst] in Hdist.
  inversion Hdist as [|? ? Hnin Hnd]; subst.
  inversion Hval as [|? ? Hrid Hval']; subst. cbn [snd] in Hrid.
  cbn [length] in Hfuel.
  destruct (insertEntry_first_tree fuel key rid s m Hroot Hhdr Hrid) as (sa & Hrun1 & Hinv1 & _).
  destruct (insertEntries_spec rest fuel sa [(kv key, rid)] 1 Hinv1 ltac:(lia) Hnd)
    as (s1 & Hrun & Hinv & _); [|exact Hval'|].
  { intros x Hx [E|[]]. cbn [fst] in E. apply Hnin, list_elem_of_In. rewrite E.
    apply (in_map (fun x => kv (fst x))). exact Hx. }
  exists s1. cbn [insertEntries]. unfold bind. rewrite Hrun1. split; [exact Hrun|].
  exact Hinv.
Qed.

Lemma treeInv_members s s' es n :
  file s' = file s -> rootPageNum s' = rootPageNum s -> headerPageNum s' = headerPageNum s ->
  treeInv s es n -> treeInv s' es n.
Proof. unfold treeInv. intros -> -> ->. exact (fun H => H). Qed.



(** The [try] block of the constructor on a file whose page 1 is a meta
    page, once strcmp has compared the stored name with the given one. *)
Lemma loadIndex_run fuel name off f m c relation bufPins uninit :
  lookupPage f 1%nat = Some (PMeta m) ->
  strcmpArray (relationName m) name = Some c ->
  let s1 := set_rootPageNum (rootPageNo m)
              (set_pins (pinDelta 1%nat 1 bufPins)
                 (set_headerPageNum 1%nat (constructorEntry off (Some f) bufPins uninit))) in
  BTreeIndex_new fuel name off (Some f) relation bufPins uninit
  = if negb (c =? 0) then Raise BadIndexInfoException s1
    else if negb (meta_attrByteOffset m =? off) then Raise BadIndexInfoException s1
    else Ok tt (set_pins (pinDelta 1%nat (-1) (pinDelta 1%nat 1 bufPins)) s1).
Proof.
  intros Hm Hc s1. subst s1.
  unfold BTreeIndex_new, loadIndex, getHeader, readPage, unPinPage, bind, gets,
    modify, ret, raise.
  cbn [file pins headerPageNum set_headerPageNum set_pins set_rootPageNum constructorEntry].
  rewrite Hm. cbn [asMeta ret]. rewrite Hc.
  destruct (negb (c =? 0)); [reflexivity|].
  destruct (negb (meta_attrByteOffset m =? off)); reflexivity.
Qed.

(** X7: an index built by the constructor for a relation whose name has
    fewer than 20 characters, opened again.  With the same name and the same
    offset the constructor returns, the object works on the same file with
    the same meta page and the same root (so it holds the same tree), and
    all pins are released.  With another name or another offset it throws
    BadIndexInfoException, and the pin getHeader took on page 1 stays. *)
Theorem BTreeIndex_new_reopens fuel name off relation bufPins uninit s
    fuel' name' off' relation' bufPins' uninit' :
  BTreeIndex_new fuel name off None relation bufPins uninit = Ok tt s ->
  (length (cstr name) < 20)%nat ->
  let r := BTreeIndex_new fuel' name' off' (Some (file s)) relation' bufPins' uninit' in
  (cstr name' = cstr name -> off' = off ->
     exists s', r = Ok tt s' /\
       file s' = file s /\ headerPageNum s' = headerPageNum s /\
       rootPageNum s' = rootPageNum s /\ attrByteOffset s' = attrByteOffset s /\
       scanExecuting s' = false /\
       (forall q, pinCount (pins s') q = pinCount bufPins' q) /\
       (forall es n, treeInv s es n -> treeInv s' es n)) /\
  (cstr name' <> cstr name \/ off' <> off ->
     outcome r = Some BadIndexInfoException /\
     pinCount (pins (stateOf r)) 1%nat = pinCount bufPins' 1%nat + 1).
Proof.
  intros Hbuilt Hlen r.
  destruct (buildIndex_header _ _ _ _ _ _ _ Hbuilt) as (Hh1 & Hnames & Hoff & _ & _).
  unfold headerNames in Hnames. rewrite Hh1 in Hnames.
  destruct (cstr_strncpy 20 name Hlen) as [Hcs Hterm].
  destruct (strcmpArray_terminated (strncpy name 20) name' Hterm) as (c & Hc & Hc0).
  rewrite Hcs in Hc0.
  pose proof (loadIndex_run fuel' name' off' (file s) _ c relation' bufPins' uninit'
                Hnames Hc) as Hr.
  cbv zeta in Hr. cbn [meta_attrByteOffset rootPageNo] in Hr. fold r in Hr. rewrite Hr.
  split.
  - intros Hn Ho. subst off'.
    destruct (Z.eqb_spec c 0) as [_|E]; [|exfalso; apply E, Hc0; now symmetry].
    rewrite Z.eqb_refl. cbn [negb]. eexists. split; [reflexivity|].
    state_simpl. rewrite Hh1, Hoff.
    repeat (split; [reflexivity|]). split.
    + intros q. rewrite !pinCount_pinDelta. destruct (Nat.eqb q 1%nat); lia.
    + intros es n. apply treeInv_members; state_simpl; [reflexivity|reflexivity|].
      now rewrite Hh1.
  - intros Hdiff.
    assert (Hraise : (if negb (c =? 0) then true else negb (off =? off')) = true).
    { destruct (Z.eqb_spec c 0) as [E|E]; cbn [negb]; [|reflexivity].
      destruct (Z.eqb_spec off off') as [E'|E']; [|reflexivity].
      destruct Hdiff as [H|H]; exfalso; apply H; [symmetry; now apply Hc0|now symmetry]. }
    destruct (negb (c =? 0)); [|rewrite Hraise];
      (split; [reflexivity|]); cbn [stateOf]; state_simpl; apply pinCount_pinDelta_eq.
Qed.

Lemma BTreeIndex_new_reopens_witness :
  let r name' off' := BTreeIndex_new 8 name' off' (Some (file exampleIndex)) [] [] blankIndex in
  (exists s', r relA 0 = Ok tt s' /\
     file s' = file exampleIndex /\ headerPageNum s' = headerPageNum exampleIndex /\
     rootPageNum s' = rootPageNum exampleIndex /\
     attrByteOffset s' = attrByteOffset exampleIndex /\
     scanExecuting s' = false /\
     (forall q, pinCount (pins s') q = pinCount [] q) /\
     (forall es n, treeInv exampleIndex es n -> treeInv s' es n)) /\
  outcome (r relB 0) = Some BadIndexInfoException /\
  outcome (r relA 4) = Some BadIndexInfoException.
Proof.
  assert (Hb : BTreeIndex_new 8 relA 0 None exampleRelation [] blankIndex = Ok tt exampleIndex)
    by (vm_compute; reflexivity).
  assert (Hl : (length (cstr relA) < 20)%nat) by (vm_compute; lia).
  intros r. split; [|split].
  - apply (BTreeIndex_new_reopens 8 relA 0 exampleRelation [] blankIndex exampleIndex
             8 relA 0 [] [] blankIndex Hb Hl); reflexivity.
  - apply (BTreeIndex_new_reopens 8 relA 0 exampleRelation [] blankIndex exampleIndex
             8 relB 0 [] [] blankIndex Hb Hl). left. discriminate.
  - apply (BTreeIndex_new_reopens 8 relA 0 exampleRelation [] blankIndex exampleIndex
             8 relA 4 [] [] blankIndex Hb Hl). right. discriminate.
Defined.



(** ** Printing *)

Lemma keyVal_cstr_take : forall n s, keyVal (cstr (take n s)) n = keyVal s n.
Proof.
  induction n as [|n IH]; intros s; [reflexivity|].
  destruct s as [|c t]; [reflexivity|].
  change (take (S n) (c :: t)) with (c :: take n t).
  cbn [cstr keyVal peek hd tl].
  destruct (uchar c =? 0) eqn:Ec.
  - cbn [hd]. reflexivity.
  - cbn [peek hd tl tail]. rewrite Ec. now rewrite IH.
Qed.

Lemma kv_shown k : kv (shown k) = kv k.
Proof. apply keyVal_cstr_take. Qed.

Lemma printedEntries_app a b :
  printedEntries (a ++ b) = printedEntries a ++ printedEntries b.
Proof.
  induction a as [|x a IH]; [reflexivity|].
  destruct x; cbn [app printedEntries]; now rewrite IH.
Qed.

(** A loop whose body is one printf. *)
Lemma pfor_printf {X} (g : X -> Printed) s : forall xs,
  pfor xs (fun i => printf (g i)) s = (map g xs, Ok tt s).
Proof.
  induction xs as [|x xs IH]; [reflexivity|].
  cbn [pfor map]. unfold pbind at 1, printf at 1. now rewrite IH.
Qed.

Lemma pfor_map {X Y} (g : X -> Y) (body : Y -> Printer unit) s : forall xs,
  pfor (map g xs) body s = pfor xs (fun x => body (g x)) s.
Proof.
  intros xs. revert s. induction xs as [|x xs IH]; intros s; [reflexivity|].
  cbn [pfor map]. unfold pbind. destruct (body (g x) s) as [out [[] s'|e s'|]]; try reflexivity.
  now rewrite IH.
Qed.

Lemma children_seq N :
  map (pageAt (pageNoArray N)) (seq 0 (S (getNonLeafLength N)))
  = nodeFirstChild N :: map snd (nodeItems N).
Proof.
  cbn [seq map]. unfold nodeFirstChild, nodeItems. f_equal.
  rewrite <- seq_shift, !map_map. reflexivity.
Qed.

Lemma pins_back p c q :
  pinCount (pinDelta p (-1) (pinDelta p 1 c)) q = pinCount c q.
Proof. rewrite !pinCount_pinDelta. destruct (Nat.eqb q p); lia. Qed.

(** printLeaf on a leaf page: its entries, and the pin is released. *)
Lemma printLeaf_spec p l s :
  lookupPage (file s) p = Some (PLeaf l) ->
  exists out,
    printLeaf p s = (out, Ok tt (set_pins (pinDelta p (-1) (pinDelta p 1 (pins s))) s)) /\
    printedEntries out = leafEntries l.
Proof.
  intros Hp. unfold printLeaf, pbind at 1, quiet at 1, readPage. rewrite Hp.
  unfold pbind at 1, quiet at 1, asLeaf, ret.
  unfold pbind at 1, printf at 1.
  assert (Hentries : forall n,
    printedEntries (map (fun i => PrEntry (shown (keyAt (lf_keyArray l) i))
                                          (ridAt (ridArray l) i)) (seq 0 n))
    = map (fun i => (kv (keyAt (lf_keyArray l) i), ridAt (ridArray l) i)) (seq 0 n)).
  { intros n. generalize 0%nat. induction n as [|n IH]; intros a; [reflexivity|].
    cbn [seq map printedEntries]. now rewrite kv_shown, IH. }
  unfold leafEntries.
  destruct (getLeafLength l) as [|n] eqn:Hlen.
  - cbn [Nat.eqb]. unfold pbind, printf, quiet, unPinPage, modify.
    eexists. split; [reflexivity|]. reflexivity.
  - cbn [Nat.eqb]. unfold pbind at 1. unfold pbind at 1. unfold printf at 1.
    unfold pbind at 1. rewrite pfor_printf.
    unfold printf, quiet, unPinPage, modify.
    eexists. split; [reflexivity|].
    cbn [app printedEntries]. rewrite !printedEntries_app, Hentries.
    cbn [printedEntries]. now rewrite !app_nil_r.
Qed.

Section PrintChildren.
Variable R : PageId -> Z -> Z -> PageId -> PageId -> list entry -> list PageId -> Prop.
Variable body : PageId -> Printer unit.
Variable s : BTreeIndex.
Hypothesis body_spec : forall c lo hi first nxt es fp pc,
  R c lo hi first nxt es fp ->
  exists out pc',
    body c (set_pins pc s) = (out, Ok tt (set_pins pc' s)) /\
    (forall q, pinCount pc' q = pinCount pc q) /\
    printedEntries out = es.

(** The loop over the children of an internal node prints the entries of
    the children, left to right. *)
Lemma pfor_children : forall items c0 lo hi first nxt es fp pc,
  reps R c0 items lo hi first nxt es fp ->
  exists out pc',
    pfor (c0 :: map snd items) body (set_pins pc s) = (out, Ok tt (set_pins pc' s)) /\
    (forall q, pinCount pc' q = pinCount pc q) /\
    printedEntries out = es.
Proof.
  induction items as [|it rest IH]; intros c0 lo hi first nxt es fp pc Hre;
    cbn [reps] in Hre; cbn [map pfor].
  - destruct (body_spec _ _ _ _ _ _ _ pc Hre) as (out & pc' & Hrun & Hpc & Hout).
    unfold pbind. rewrite Hrun. unfold quiet, ret.
    exists (out ++ []), pc'. split; [reflexivity|]. split; [exact Hpc|].
    now rewrite app_nil_r.
  - destruct Hre as (es1 & es2 & fp1 & fp2 & mid & Hc & Hrest & -> & _).
    destruct (body_spec _ _ _ _ _ _ _ pc Hc) as (out1 & pc1 & Hrun1 & Hpc1 & Hout1).
    destruct (IH _ _ _ _ _ _ _ pc1 Hrest) as (out2 & pc2 & Hrun2 & Hpc2 & Hout2).
    unfold pbind at 1. rewrite Hrun1. cbn [pfor] in Hrun2. rewrite Hrun2.
    exists (out1 ++ out2), pc2. split; [reflexivity|]. split.
    + intros q. now rewrite Hpc2, Hpc1.
    + now rewrite printedEntries_app, Hout1, Hout2.
Qed.
End PrintChildren.

Lemma printedEntries_routers N : forall xs,
  printedEntries (map (fun i => PrRouter (pageAt (pageNoArray N) i)
                                         (shown (keyAt (nl_keyArray N) i))) xs) = [].
Proof. induction xs as [|x xs IH]; [reflexivity|exact IH]. Qed.

(** printSubtree on the root of a subtree in good shape prints its entries
    in key order and releases every pin it takes. *)
Lemma printSubtree_spec s : forall h fuel p lo hi first nxt es fp pc,
  rep (file s) (S h) p lo hi first nxt es fp -> (S h <= fuel)%nat ->
  exists out pc',
    printSubtree fuel p (set_pins pc s) = (out, Ok tt (set_pins pc' s)) /\
    (forall q, pinCount pc' q = pinCount pc q) /\
    printedEntries out = es.
Proof.
  induction h as [|h IH]; intros fuel p lo hi first nxt es fp pc Hrep Hfuel;
    (destruct fuel as [|fuel]; [lia|]);
    destruct Hrep as (N & fpc & Hp & Hok & Hlvl & Hre & _ & _);
    cbn [printSubtree]; unfold pbind at 1, quiet at 1, readPage;
    change (file (set_pins pc s)) with (file s); rewrite Hp;
    unfold pbind at 1, quiet at 1, asNonLeaf, ret;
    unfold pbind at 1, printf at 1;
    unfold pbind at 1; rewrite pfor_printf;
    unfold pbind at 1, printf at 1;
    unfold pbind at 1;
    rewrite <- (pfor_map (pageAt (pageNoArray N))
                  (fun c => if level N =? 1 then printLeaf c else printSubtree fuel c)),
            children_seq; rewrite Hlvl.
  - destruct (pfor_children (rep (file s) 0)
                (fun c => if Z.of_nat 1 =? 1 then printLeaf c else printSubtree fuel c) s) with
      (items := nodeItems N) (c0 := nodeFirstChild N) (lo := lo) (hi := hi) (first := first)
      (nxt := nxt) (es := es) (fp := fpc) (pc := pinDelta p 1 pc)
      as (out & pc' & Hrun & Hpc & Hout); [|exact Hre|].
    { intros c lo' hi' first' nxt' es' fp' pc0 (l & Hl & _ & Hes & _).
      destruct (printLeaf_spec c l (set_pins pc0 s) Hl) as (out & Hrun & Hout).
      exists out, (pinDelta c (-1) (pinDelta c 1 pc0)). split; [exact Hrun|].
      split; [intros q; apply pins_back|]. now rewrite Hout. }
    change (set_pins (pinDelta p 1 (pins (set_pins pc s))) (set_pins pc s))
      with (set_pins (pinDelta p 1 pc) s).
    rewrite Hrun. unfold quiet, unPinPage, modify.
    eexists. exists (pinDelta p (-1) pc'). split; [reflexivity|]. split.
    + intros q. rewrite pinCount_pinDelta, Hpc, pinCount_pinDelta.
      destruct (Nat.eqb q p); lia.
    + cbn [app printedEntries]. rewrite !printedEntries_app, printedEntries_routers.
      cbn [app printedEntries]. rewrite printedEntries_app, Hout. cbn [printedEntries].
      now rewrite app_nil_r.
  - assert (Hl1 : (Z.of_nat (S (S h)) =? 1) = false) by (apply Z.eqb_neq; lia).
    destruct (pfor_children (rep (file s) (S h))
                (fun c => if Z.of_nat (S (S h)) =? 1 then printLeaf c else printSubtree fuel c)
                s) with
      (items := nodeItems N) (c0 := nodeFirstChild N) (lo := lo) (hi := hi) (first := first)
      (nxt := nxt) (es := es) (fp := fpc) (pc := pinDelta p 1 pc)
      as (out & pc' & Hrun & Hpc & Hout); [|exact Hre|].
    { intros c lo' hi' first' nxt' es' fp' pc0 Hc. rewrite Hl1.
      apply (IH fuel c lo' hi' first' nxt' es' fp' pc0 Hc). lia. }
    change (set_pins (pinDelta p 1 (pins (set_pins pc s))) (set_pins pc s))
      with (set_pins (pinDelta p 1 pc) s).
    rewrite Hrun. unfold quiet, unPinPage, modify.
    eexists. exists (pinDelta p (-1) pc'). split; [reflexivity|]. split.
    + intros q. rewrite pinCount_pinDelta, Hpc, pinCount_pinDelta.
      destruct (Nat.eqb q p); lia.
    + cbn [app printedEntries]. rewrite !printedEntries_app, printedEntries_routers.
      cbn [app printedEntries]. rewrite printedEntries_app, Hout. cbn [printedEntries].
      now rewrite app_nil_r.
Qed.

(** X9: printTree.  On an index without a root it prints the two banners
    around the empty-tree line and touches nothing.  On an index whose tree
    is in good shape it returns, the entry lines it prints between the
    banners show every entry of the index exactly once, in ascending key
    order, with its record id; the object is left as it was, and every pin
    taken on the way is released. *)
Theorem printTree_prints_entries fuel s :
  (rootPageNum s = INVALID_NUMBER ->
     printTree fuel s = ([PrBegin; PrEmptyTree; PrEnd], Ok tt s)) /\
  (forall es n,
     treeInv s es n -> (n <= fuel)%nat ->
     exists out pc,
       printTree fuel s = (PrBegin :: out ++ [PrEnd], Ok tt (set_pins pc s)) /\
       (forall q, pinCount pc q = pinCount (pins s) q) /\
       printedEntries out = es).
Proof.
  split.
  - intros Hroot. unfold printTree, pbind, printf, quiet, gets. rewrite Hroot. reflexivity.
  - intros es n (h & first & fp & m & Hrep & Hn & _) Hfuel.
    destruct (rep_root_page _ _ _ _ _ _ _ _ _ Hrep) as [Hr0 _].
    destruct (printSubtree_spec s h fuel (rootPageNum s) _ _ _ _ _ _ (pins s) Hrep ltac:(lia))
      as (out & pc & Hrun & Hpc & Hout).
    assert (Hs : set_pins (pins s) s = s) by (destruct s; reflexivity).
    rewrite Hs in Hrun.
    exists out, pc. split; [|split; assumption].
    unfold printTree, pbind at 1, printf at 1, pbind at 1, quiet at 1, gets.
    destruct (Nat.eqb_spec (rootPageNum s) INVALID_NUMBER) as [E|_]; [contradiction|].
    unfold pbind. rewrite Hrun. unfold printf. reflexivity.
Qed.

Lemma printTree_prints_entries_witness :
  printTree 8 emptyIndex = ([PrBegin; PrEmptyTree; PrEnd], Ok tt emptyIndex) /\
  exists s out pc,
    insertEntries 8 (keysOf 0 exampleRelation) (headerWritten relA 0 [] blankIndex) = Ok tt s /\
    printTree 8 s = (PrBegin :: out ++ [PrEnd], Ok tt (set_pins pc s)) /\
    (forall q, pinCount pc q = pinCount (pins s) q) /\
    printedEntries out = entriesAfter (keysOf 0 exampleRelation) [].
Proof.
  split.
  - apply (printTree_prints_entries 8 emptyIndex). reflexivity.
  - destruct (insertEntries_new_tree (keysOf 0 exampleRelation) 8
                (headerWritten relA 0 [] blankIndex) _ eq_refl eq_refl)
      as (s & Hrun & Hinv).
    + discriminate.
    + unfold distinctKeys. cbn [map fst keysOf exampleRelation].
      repeat (constructor; [rewrite list_elem_of_In; cbn [In]; intuition discriminate|]).
      constructor.
    + repeat constructor; discriminate.
    + cbn [length keysOf map exampleRelation]. lia.
    + destruct (proj2 (printTree_prints_entries 8 s) _ _ Hinv) as (out & pc & H).
      * cbn [length keysOf map exampleRelation]. lia.
      * exists s, out, pc. split; [exact Hrun|exact H].
Defined.

(** ** Build, scan, close, reopen, scan (main.cpp, testFileload) *)








(** ** The order of insertion *)

Lemma insEntry_perm k r es : Permutation (insEntry k r es) ((k, r) :: es).
Proof.
  induction es as [|e t IH]; cbn [insEntry]; [reflexivity|].
  destruct (k <=? fst e); [reflexivity|].
  rewrite IH. apply perm_swap.
Qed.

Lemma entriesAfter_perm inserted : forall es,
  Permutation (entriesAfter inserted es) (map entryOf inserted ++ es).
Proof.
  unfold entriesAfter. induction inserted as [|x t IH]; intros es; cbn [fold_left map app];
    [reflexivity|].
  rewrite IH, insEntry_perm. symmetry. apply Permutation_middle.
Qed.

(** Two lists in strictly ascending key order with the same elements are
    the same list. *)
Lemma ascending_perm_eq : forall es es' lo hi lo' hi',
  ascending lo hi es -> ascending lo' hi' es' -> Permutation es es' -> es = es'.
Proof.
  induction es as [|e t IH]; intros es' lo hi lo' hi' Ha Ha' Hp.
  - apply Permutation_nil in Hp. now subst.
  - destruct es' as [|e' t']; [symmetry in Hp; now apply Permutation_nil_cons in Hp|].
    cbn [ascending] in Ha, Ha'. destruct Ha as [Hb Ht], Ha' as [Hb' Ht'].
    assert (He : e = e').
    { assert (Hin : In e (e' :: t')).
      { apply (Permutation_in e Hp). now left. }
      assert (Hin' : In e' (e :: t)).
      { apply (Permutation_in e' (Permutation_sym Hp)). now left. }
      destruct Hin as [E|Hin]; [now symmetry|].
      destruct Hin' as [E|Hin']; [exact E|].
      pose proof (ascending_bounds _ _ _ _ Ht' Hin).
      pose proof (ascending_bounds _ _ _ _ Ht Hin'). lia. }
    subst e'. f_equal. apply Permutation_cons_inv in Hp.
    exact (IH t' _ _ _ _ Ht Ht' Hp).
Qed.

Lemma treeInv_ascending s es n : treeInv s es n -> ascending (-1) INF es.
Proof.
  intros (h & first & fp & m & Hrep & _). exact (rep_ascending _ _ _ _ _ _ _ _ _ Hrep).
Qed.

(** X12: the order of insertion does not show in a scan.  Two runs of
    insertEntry calls from the same index without a tree, over the same
    pairs in two different orders (keys that differ as stored, record ids
    with a page number), both return; the two trees hold the same entries in
    the same order, and every scan with accepted operators and
    lowVal <= highVal returns the same record ids in the same order on
    both. *)
Theorem scan_ignores_insertion_order s0 m inserted inserted' fuel lv lop hv hop :
  rootPageNum s0 = INVALID_NUMBER ->
  lookupPage (file s0) (headerPageNum s0) = Some (PMeta m) ->
  inserted <> [] -> distinctKeys inserted ->
  Forall (fun x => validRid (snd x)) inserted ->
  Permutation inserted inserted' ->
  goodOpcodes lop hop -> strncmp lv hv STRINGSIZE <= 0 ->
  (2 * length inserted + 1 <= fuel)%nat ->
  exists s1 s1' s2 s2' es rids,
    insertEntries fuel inserted s0 = Ok tt s1 /\
    insertEntries fuel inserted' s0 = Ok tt s1' /\
    treeInv s1 es (length inserted) /\ treeInv s1' es (length inserted) /\
    scanAll fuel lv lop hv hop s1 = Ok rids s2 /\
    scanAll fuel lv lop hv hop s1' = Ok rids s2'.
Proof.
  intros Hroot Hhdr Hne Hdist Hval Hperm Hops Hrange Hfuel.
  pose proof (Permutation_length Hperm) as Hlen.
  assert (Hne' : inserted' <> []).
  { intros ->. apply Permutation_sym, Permutation_nil in Hperm. contradiction. }
  assert (Hdist' : distinctKeys inserted').
  { unfold distinctKeys in *.
    refine (proj1 (NoDup_Permutation_proper _ _ _) Hdist). now apply Permutation_map. }
  assert (Hval' : Forall (fun x => validRid (snd x)) inserted').
  { eapply Permutation_Forall; eassumption. }
  destruct (insertEntries_new_tree inserted fuel s0 m Hroot Hhdr Hne Hdist Hval ltac:(lia))
    as (s1 & Hrun & Hinv).
  destruct (insertEntries_new_tree inserted' fuel s0 m Hroot Hhdr Hne' Hdist' Hval' ltac:(lia))
    as (s1' & Hrun' & Hinv').
  assert (Hes : entriesAfter inserted' [] = entriesAfter inserted []).
  { apply (ascending_perm_eq _ _ (-1) INF (-1) INF).
    - exact (treeInv_ascending _ _ _ Hinv').
    - exact (treeInv_ascending _ _ _ Hinv).
    - rewrite !entriesAfter_perm, !app_nil_r. apply Permutation_map. now symmetry. }
  rewrite Hes, <- Hlen in Hinv'.
  destruct (scanAll_spec fuel lv lop hv hop s1 _ _ Hinv Hops Hrange) as (s2 & Hscan & _).
  { rewrite entriesAfter_length. cbn [length]. lia. }
  destruct (scanAll_spec fuel lv lop hv hop s1' _ _ Hinv' Hops Hrange) as (s2' & Hscan' & _).
  { rewrite entriesAfter_length. cbn [length]. lia. }
  exists s1, s1', s2, s2', (entriesAfter inserted []),
    (map snd (List.filter (rangeTest lop lv hop hv) (entriesAfter inserted []))).
  auto 10.
Qed.

Lemma scan_ignores_insertion_order_witness :
  exists s1 s1' s2 s2' es rids,
    insertEntries 7 [(["d"%byte], mkRid 1%nat 1%nat); (["b"%byte], mkRid 1%nat 2%nat);
                     (["f"%byte], mkRid 1%nat 3%nat)] emptyIndex = Ok tt s1 /\
    insertEntries 7 [(["f"%byte], mkRid 1%nat 3%nat); (["d"%byte], mkRid 1%nat 1%nat);
                     (["b"%byte], mkRid 1%nat 2%nat)] emptyIndex = Ok tt s1' /\
    treeInv s1 es 3 /\ treeInv s1' es 3 /\
    scanAll 7 ["c"%byte] GTE ["f"%byte] LTE s1 = Ok rids s2 /\
    scanAll 7 ["c"%byte] GTE ["f"%byte] LTE s1' = Ok rids s2'.
Proof.
  apply (scan_ignores_insertion_order emptyIndex
           {| relationName := strncpy relA 20; meta_attrByteOffset := 0;
              rootPageNo := INVALID_NUMBER |}).
  - reflexivity.
  - reflexivity.
  - discriminate.
  - unfold distinctKeys. cbn [map fst].
    repeat (constructor; [rewrite list_elem_of_In; cbn [In]; intuition discriminate|]).
    constructor.
  - repeat constructor; discriminate.
  - symmetry. apply (Permutation_cons_append [_; _]).
  - split; [now right|now right].
  - vm_compute. discriminate.
  - cbn [length]. lia.
Defined.

(** X13: what insertEntry writes reaches the next constructor.  For an
    index built by the constructor under a relation name of fewer than 20
    characters and any further insertEntry calls that return: the meta page
    still holds the name and the offset and names the current root (a root
    split writes the new root there), so the constructor on this file with
    the same name and offset returns with the same file and root, and the
    object holds the same tree. *)
Theorem inserted_entries_reopen fuel name off relation bufPins uninit s1
    fuel2 inserted s2 fuel3 name3 relation3 bufPins3 uninit3 :
  BTreeIndex_new fuel name off None relation bufPins uninit = Ok tt s1 ->
  (length (cstr name) < 20)%nat ->
  insertEntries fuel2 inserted s1 = Ok tt s2 ->
  cstr name3 = cstr name ->
  headerNames s2 (strncpy name 20) off /\
  exists s3,
    BTreeIndex_new fuel3 name3 off (Some (file s2)) relation3 bufPins3 uninit3 = Ok tt s3 /\
    file s3 = file s2 /\ rootPageNum s3 = rootPageNum s2 /\
    headerPageNum s3 = headerPageNum s2 /\
    (forall q, pinCount (pins s3) q = pinCount bufPins3 q) /\
    (forall es n, treeInv s2 es n -> treeInv s3 es n).
Proof.
  intros Hbuilt Hlen Hins Hname.
  destruct (buildIndex_header _ _ _ _ _ _ _ Hbuilt) as (Hh1 & Hnames1 & _).
  pose proof (insertEntries_header _ _ _ _ _ _ Hins Hnames1) as Hnames2.
  destruct (insertEntries_frame _ _ _ _ Hins) as (_ & Hh2 & _).
  split; [exact Hnames2|].
  unfold headerNames in Hnames2. rewrite Hh2, Hh1 in Hnames2.
  destruct (cstr_strncpy 20 name Hlen) as [Hcs Hterm].
  destruct (strcmpArray_terminated (strncpy name 20) name3 Hterm) as (c & Hc & Hc0).
  assert (Hc00 : c = 0) by (apply Hc0; now rewrite Hcs).
  pose proof (loadIndex_run fuel3 name3 off (file s2) _ c relation3 bufPins3 uninit3
                Hnames2 Hc) as Hr.
  cbv zeta in Hr. cbn [meta_attrByteOffset rootPageNo] in Hr.
  rewrite Hc00 in Hr. change (0 =? 0) with true in Hr. rewrite Z.eqb_refl in Hr.
  cbn [negb] in Hr.
  eexists. split; [exact Hr|]. state_simpl.
  split; [reflexivity|]. split; [reflexivity|]. split; [now rewrite Hh2, Hh1|]. split.
  - intros q. apply pins_back.
  - intros es n. apply treeInv_members; state_simpl; [reflexivity|reflexivity|].
    now rewrite Hh2, Hh1.
Qed.

Lemma inserted_entries_reopen_witness :
  headerNames
    (stateOf (insertEntries 8 [(["h"%byte], mkRid 3%nat 2%nat)] exampleIndex))
    (strncpy relA 20) 0 /\
  exists s3,
    BTreeIndex_new 8 relA 0
      (Some (file (stateOf (insertEntries 8 [(["h"%byte], mkRid 3%nat 2%nat)] exampleIndex))))
      [] [] blankIndex = Ok tt s3 /\
    file s3 = file (stateOf (insertEntries 8 [(["h"%byte], mkRid 3%nat 2%nat)] exampleIndex)) /\
    rootPageNum s3
      = rootPageNum (stateOf (insertEntries 8 [(["h"%byte], mkRid 3%nat 2%nat)] exampleIndex)) /\
    headerPageNum s3
      = headerPageNum (stateOf (insertEntries 8 [(["h"%byte], mkRid 3%nat 2%nat)] exampleIndex)) /\
    (forall q, pinCount (pins s3) q = pinCount [] q) /\
    (forall es n,
       treeInv (stateOf (insertEntries 8 [(["h"%byte], mkRid 3%nat 2%nat)] exampleIndex)) es n ->
       treeInv s3 es n).
Proof.
  apply (inserted_entries_reopen 8 relA 0 exampleRelation [] blankIndex exampleIndex
           8 [(["h"%byte], mkRid 3%nat 2%nat)] _ 8 relA [] [] blankIndex).
  - vm_compute. reflexivity.
  - vm_compute. lia.
  - vm_compute. reflexivity.
  - reflexivity.
Defined.

(** ** Occupancy after a split *)

(** X14: splits are balanced.  Splitting a full leaf in good shape for a new
    pair leaves LEAF_NUM_KEYS + 1 entries on the two leaves, at least
    LEAF_NUM_KEYS / 2 on each, and the key handed to the parent is the first
    key of the right leaf (copied up).  Splitting a full internal node in
    good shape for a new router key leaves NON_LEAF_NUM_KEYS / 2 keys on
    each of the two nodes and hands the middle key to the parent (pushed up:
    neither node keeps it). *)
Theorem splits_are_balanced :
  (forall l key rid newPid lo hi,
     leafOk l -> getLeafLength l = LEAF_NUM_KEYS -> validRid rid ->
     ascending lo hi (leafEntries l) ->
     exists l' r' sk,
       leafSplit l freshLeaf newPid (mkRIDKeyPair rid key) = (l', r', sk) /\
       (getLeafLength l' + getLeafLength r' = LEAF_NUM_KEYS + 1)%nat /\
       (LEAF_NUM_KEYS / 2 <= getLeafLength l')%nat /\
       (LEAF_NUM_KEYS / 2 <= getLeafLength r')%nat /\
       kv (pk_key sk) = kv (keyAt (lf_keyArray r') 0)) /\
  (forall N key q lo hi,
     nodeOk N -> getNonLeafLength N = NON_LEAF_NUM_KEYS -> q <> INVALID_NUMBER ->
     itemsAscending lo hi (nodeItems N) -> ~ In (kv key) (map fst (nodeItems N)) ->
     exists N1 N2 mid,
       nonLeafSplit N freshNonLeaf (mkPageKeyPair q key) = Some (N1, N2, mid) /\
       getNonLeafLength N1 = (NON_LEAF_NUM_KEYS / 2)%nat /\
       getNonLeafLength N2 = (NON_LEAF_NUM_KEYS / 2)%nat /\
       ~ In (kv mid) (map fst (nodeItems N1)) /\
       ~ In (kv mid) (map fst (nodeItems N2))).
Proof.
  split.
  - intros l key rid newPid lo hi Hok Hlen Hrid Hasc.
    destruct rid as [[|rp] rsl]; [now elim Hrid|].
    leaf_forms Hok; split_compute; try discriminate.
    kv_tests. destruct Hasc as (H0 & H1 & H2 & H3 & _).
    case_tests; split_compute; kv_tests; try lia;
      (do 3 eexists; split; [reflexivity|]);
      split_compute; kv_tests; repeat split; try reflexivity; lia.
  - intros N key q lo hi Hok Hlen Hq Hasc Hnew. destruct q as [|q]; [now elim Hq|].
    node_forms Hok; node_compute; try discriminate.
    kv_tests. destruct Hasc as (H0 & H1 & H2 & H3 & H4).
    cbv [In] in Hnew.
    case_tests; node_compute; kv_tests; case_tests; node_compute; kv_tests; try lia;
      (do 3 eexists; split; [reflexivity|]);
      node_compute; kv_tests; cbv [In];
      (split; [reflexivity|]); (split; [reflexivity|]); split; lia.
Qed.

Lemma splits_are_balanced_witness :
  (exists l' r' sk,
     leafSplit fullLeaf freshLeaf 5%nat (mkRIDKeyPair (mkRid 3%nat 2%nat) ["h"%byte])
       = (l', r', sk) /\
     (getLeafLength l' + getLeafLength r' = LEAF_NUM_KEYS + 1)%nat /\
     (LEAF_NUM_KEYS / 2 <= getLeafLength l')%nat /\
     (LEAF_NUM_KEYS / 2 <= getLeafLength r')%nat /\
     kv (pk_key sk) = kv (keyAt (lf_keyArray r') 0)) /\
  (exists N1 N2 mid,
     nonLeafSplit fullNode freshNonLeaf (mkPageKeyPair 7%nat ["e"%byte]) = Some (N1, N2, mid) /\
     getNonLeafLength N1 = (NON_LEAF_NUM_KEYS / 2)%nat /\
     getNonLeafLength N2 = (NON_LEAF_NUM_KEYS / 2)%nat /\
     ~ In (kv mid) (map fst (nodeItems N1)) /\
     ~ In (kv mid) (map fst (nodeItems N2))).
Proof.
  split.
  - apply (proj1 splits_are_balanced fullLeaf ["h"%byte] (mkRid 3%nat 2%nat) 5%nat 0 INF).
    + split; [reflexivity|]. split; [reflexivity|].
      intros i Hi. change (getLeafLength fullLeaf) with 4%nat in Hi.
      unfold LEAF_NUM_KEYS in Hi. lia.
    + reflexivity.
    + discriminate.
    + vm_compute. intuition discriminate.
  - apply (proj2 splits_are_balanced fullNode ["e"%byte] 7%nat 0 INF).
    + split; [reflexivity|]. split; [reflexivity|]. split.
      * change (getNonLeafLength fullNode) with 4%nat. lia.
      * intros i Hi. change (getNonLeafLength fullNode) with 4%nat in Hi.
        unfold NON_LEAF_NUM_KEYS in Hi. lia.
    + reflexivity.
    + discriminate.
    + vm_compute. intuition.
    + vm_compute. intuition discriminate.
Defined.
